(** * Custom HMR engine: module graph, update batcher, server and client runtime

    A shallow embedding of the TypeScript sources
    ([module-graph.ts], [hmr-runtime.ts], [module-system.ts],
    [hmr-server.ts], [update-batcher.ts]) together with the properties stated
    about them.

    Conventions.
    - A JavaScript [Map] or [Set] that the code iterates is an insertion-ordered
      list ([jmap], [jset]): iteration order is observable in the results.
    - A [Set] that is only tested for membership (the [visited] sets of the
      graph walks) is a [gset].
    - Recursive closures ([visit], [assign]) carry a fuel argument and return
      [None] when it runs out; every result theorem shows that the fuel the
      top-level function supplies is enough. *)

From Stdlib Require Import String Ascii List Arith Lia.
From stdpp Require Import base list gmap sets strings.

(* stdpp's solvers clear hypotheses by name; the names are not always there. *)
Set Warnings "-clear-no-such-hyp".

Open Scope string_scope.
Open Scope nat_scope.
Open Scope list_scope.
Open Scope stdpp_scope.

(** ** Insertion-ordered containers *)

Section JsContainers.
Context {V : Type}.

(** [Map<string, V>]: keys in insertion order, no duplicate keys. *)
Definition jmap := list (string * V).

Fixpoint jmap_get (k : string) (m : jmap) : option V :=
  match m with
  | [] => None
  | (k', v) :: m' => if decide (k = k') then Some v else jmap_get k m'
  end.

Definition jmap_has (k : string) (m : jmap) : bool :=
  match jmap_get k m with Some _ => true | None => false end.

(** [m.set(k, v)]: an existing key keeps its position. *)
Fixpoint jmap_set (k : string) (v : V) (m : jmap) : jmap :=
  match m with
  | [] => [(k, v)]
  | (k', v') :: m' =>
      if decide (k = k') then (k, v) :: m' else (k', v') :: jmap_set k v m'
  end.

Fixpoint jmap_delete (k : string) (m : jmap) : jmap :=
  match m with
  | [] => []
  | (k', v') :: m' =>
      if decide (k = k') then m' else (k', v') :: jmap_delete k m'
  end.

Definition jmap_keys (m : jmap) : list string := map fst m.
End JsContainers.

Arguments jmap V : clear implicits.

(** [Set<string>]: elements in insertion order, no duplicates. *)
Definition jset := list string.

Definition jset_has (x : string) (s : jset) : bool := bool_decide (x ∈ s).

Definition jset_add (x : string) (s : jset) : jset :=
  if decide (x ∈ s) then s else s ++ [x].

Definition jset_delete (x : string) (s : jset) : jset :=
  filter (fun y => y ≠ x) s.

(** [new Set(array)] *)
Definition jset_of_array (l : list string) : jset :=
  foldl (fun s x => jset_add x s) [] l.

(** ** [ModuleGraph.parseImports]

    The global regular expression of [parseImports] reads: the word import,
    one or more spaces, optionally a clause (one or more characters among
    word characters, star, braces, spaces and comma, then the word from and
    one or more spaces), a quote character (single or double), the captured
    specifier (one or more characters that are not quotes) and a quote
    character.  The scan below runs it over the code, on strings of 8-bit
    code units. *)

Module ImportRegex.

Definition code_of (c : ascii) : nat := nat_of_ascii c.

(** [\s] restricted to code units below 256. *)
Definition is_space (c : ascii) : bool :=
  let n := code_of c in
  ((9 <=? n) && (n <=? 13)) || (n =? 32) || (n =? 160).

(** [\w] *)
Definition is_word (c : ascii) : bool :=
  let n := code_of c in
  ((48 <=? n) && (n <=? 57)) || ((65 <=? n) && (n <=? 90))
  || ((97 <=? n) && (n <=? 122)) || (n =? 95).

(** the clause class: word characters, star, braces, spaces, comma *)
Definition is_clause (c : ascii) : bool :=
  let n := code_of c in
  is_word c || is_space c || (n =? 42) || (n =? 123) || (n =? 125) || (n =? 44).

(** a single or a double quote *)
Definition is_quote (c : ascii) : bool :=
  let n := code_of c in (n =? 39) || (n =? 34).

Fixpoint span (p : ascii -> bool) (l : list ascii) : list ascii * list ascii :=
  match l with
  | [] => ([], [])
  | c :: l' =>
      if p c then let '(a, b) := span p l' in (c :: a, b) else ([], l)
  end.

Fixpoint strip_prefix (p l : list ascii) : option (list ascii) :=
  match p, l with
  | [], _ => Some l
  | a :: p', b :: l' => if Ascii.eqb a b then strip_prefix p' l' else None
  | _ :: _, [] => None
  end.

(** The text between [import] and the opening quote is matched by
    the spaces and the optional clause.  Every character these pieces accept is in
    the clause class, so the text is the longest clause-class run [sp]; it
    is accepted when it is a non-empty run of spaces, or when it reads
    one space, one or more clause characters, the word from, and one or
    more spaces. *)
Definition clause_ok (sp : list ascii) : bool :=
  match sp with
  | [] => false
  | c :: _ =>
      is_space c &&
      (forallb is_space sp ||
       (let '(ws, body) := span is_space (rev sp) in
        match ws, strip_prefix (list_ascii_of_string "morf") body with
        | _ :: _, Some u => 2 <=? length u
        | _, _ => false
        end))
  end.

(** A match anchored at the head of [l]: the captured specifier and the
    length of the whole match. *)
Definition match_here (l : list ascii) : option (list ascii * nat) :=
  match strip_prefix (list_ascii_of_string "import") l with
  | None => None
  | Some r0 =>
      let '(sp, r1) := span is_clause r0 in
      if clause_ok sp then
        match r1 with
        | q :: r2 =>
            if is_quote q then
              let '(cap, r3) := span (fun c => negb (is_quote c)) r2 in
              match cap, r3 with
              | _ :: _, _ :: _ => Some (cap, 6 + length sp + 1 + length cap + 1)
              | _, _ => None
              end
            else None
        | [] => None
        end
      else None
  end.

(** The loop over [importRegex.exec(code)] until it returns null: [skip]
    characters belong to the previous match and are passed over. *)
Fixpoint scan (skip : nat) (l : list ascii) : list string :=
  match l with
  | [] => []
  | _ :: l' =>
      match skip with
      | S k => scan k l'
      | O =>
          match match_here l with
          | Some (cap, len) => string_of_list_ascii cap :: scan (len - 1) l'
          | None => scan 0 l'
          end
      end
  end.

End ImportRegex.

Definition parseImports (id : string) (code : string) : list string :=
  ImportRegex.scan 0 (list_ascii_of_string code).

(** ** [ModuleGraph] *)

(** What [node.exports] refers to: the object literal the node was created
    with, the tracked proxy made by [createProxy(node.rawExports)], or
    [node.rawExports] itself. *)
Inductive ExportsView := ExportsInitial | ExportsProxy | ExportsRaw.

(** [ModuleNode].  The optional fields [hot] and [proxy] are never written by
    the graph; [proxy] is kept because [updateModule] tests it.  The
    dependency tracker is represented by its set of accessed property names. *)
Record ModuleNode := mkNode {
  id : string;
  exports : ExportsView;
  importers : jset;
  imports : jset;
  proxy : option unit;
  dependencyTracker : option (list string);
}.

Record ModuleGraph := mkGraph {
  modules : jmap ModuleNode;
  dependencyGraph : jmap jset;
  reverseDependencyGraph : jmap jset;
  circularDependencyCache : list (nat * list (list string));
  version : nat;
}.

(** [new ModuleGraph()] *)
Definition emptyGraph : ModuleGraph :=
  mkGraph [] [] [] [] 0.

Definition getModule (g : ModuleGraph) (i : string) : option ModuleNode :=
  jmap_get i (modules g).

(** [m.get(i) || []] and [m.get(i) || new Set()] on a map of edge sets. *)
Definition edgesOf (m : jmap jset) (i : string) : list string :=
  match jmap_get i m with
  | Some s => s
  | None => []
  end.

Definition getDependents (g : ModuleGraph) (i : string) : list string :=
  edgesOf (reverseDependencyGraph g) i.

(** The body of the loop over [added] in [updateDependencies]. *)
Definition addDependent (moduleId : string) (r : jmap jset) (dep : string)
  : jmap jset :=
  let r1 := if jmap_has dep r then r else jmap_set dep [] r in
  match jmap_get dep r1 with
  | Some s => jmap_set dep (jset_add moduleId s) r1
  | None => r1
  end.

(** The body of the loop over [removed] in [updateDependencies]. *)
Definition removeDependent (moduleId : string) (r : jmap jset) (dep : string)
  : jmap jset :=
  match jmap_get dep r with
  | Some dependents =>
      let dependents' := jset_delete moduleId dependents in
      if length dependents' =? 0 then jmap_delete dep r
      else jmap_set dep dependents' r
  | None => r
  end.

Definition updateDependencies (g : ModuleGraph) (moduleId : string)
    (newImports : list string) (oldImports : jset) : ModuleGraph :=
  let added := jset_of_array (filter (fun x => x ∉ oldImports) newImports) in
  let removed := jset_of_array (filter (fun x => x ∉ newImports) oldImports) in
  let forward := jmap_set moduleId (jset_of_array newImports) (dependencyGraph g) in
  let reverse1 := foldl (addDependent moduleId) (reverseDependencyGraph g) added in
  let reverse2 := foldl (removeDependent moduleId) reverse1 removed in
  mkGraph (modules g) forward reverse2 (circularDependencyCache g) (version g).

Definition freshNode (i : string) : ModuleNode :=
  mkNode i ExportsInitial [] [] None None.

Definition updateModule (g : ModuleGraph) (i : string) (code : string)
    (isHmrEnabled : bool) : ModuleGraph :=
  let imports_ := parseImports i code in
  let existing := getModule g i in
  let node := match existing with Some n => n | None => freshNode i end in
  let node1 :=
    if isHmrEnabled then
      match proxy node with
      | None =>
          mkNode (id node) ExportsProxy (importers node) (imports node)
                 (proxy node) (Some [])
      | Some _ => node
      end
    else
      mkNode (id node) ExportsRaw (importers node) (imports node)
             (proxy node) (dependencyTracker node) in
  let g1 := updateDependencies g i imports_ (imports node1) in
  mkGraph (jmap_set i node1 (modules g1)) (dependencyGraph g1)
          (reverseDependencyGraph g1) [] (S (version g1)).

(** A call of [updateModule]: id, code, isHmrEnabled. *)
Record UpdateCall := mkCall {
  call_id : string;
  call_code : string;
  call_hmr : bool;
}.

Definition applyCall (g : ModuleGraph) (c : UpdateCall) : ModuleGraph :=
  updateModule g (call_id c) (call_code c) (call_hmr c).

Definition runCalls (g : ModuleGraph) (cs : list UpdateCall) : ModuleGraph :=
  foldl applyCall g cs.

(** ** Graph walks

    The three recursive closures of [module-graph.ts] ([visit] in
    [getUpdateChain], [visit] and [assign] in
    [detectStronglyConnectedComponents]) are depth-first walks.  [forEachM]
    is [array.forEach] / [set.forEach] over a body that may run out of fuel. *)

Fixpoint forEachM {A St : Type} (body : A -> St -> option St) (l : list A)
    (st : St) : option St :=
  match l with
  | [] => Some st
  | a :: l' =>
      match body a st with
      | Some st' => forEachM body l' st'
      | None => None
      end
  end.

(** *** [getUpdateChain] *)

Record ChainState := mkChain {
  ch_visited : gset string;
  ch_recursionStack : gset string;
  ch_result : list string;
  ch_cycles : list (list string);
}.

Fixpoint chainVisit (g : ModuleGraph) (fuel : nat) (i : string)
    (path : list string) (st : ChainState) : option ChainState :=
  match fuel with
  | O => None
  | S fuel' =>
      if decide (i ∈ ch_recursionStack st) then
        Some (mkChain (ch_visited st) (ch_recursionStack st) (ch_result st)
                      (ch_cycles st ++ [path ++ [i]]))
      else if decide (i ∈ ch_visited st) then Some st
      else
        let st1 := mkChain ({[i]} ∪ ch_visited st) ({[i]} ∪ ch_recursionStack st)
                           (ch_result st) (ch_cycles st) in
        match forEachM (fun depId => chainVisit g fuel' depId (path ++ [i]))
                       (getDependents g i) st1 with
        | Some st2 =>
            Some (mkChain (ch_visited st2) (ch_recursionStack st2 ∖ {[i]})
                          (ch_result st2 ++ [i]) (ch_cycles st2))
        | None => None
        end
  end.

(** Every module id that occurs in a map of edges. *)
Definition edgeNodes (m : jmap jset) : list string :=
  jmap_keys m ++ concat (map snd m).

Definition chainFuel (g : ModuleGraph) : nat :=
  S (S (length (edgeNodes (reverseDependencyGraph g)))).

(** The chain, and the cycles that [console.warn] reports when there are any. *)
Definition getUpdateChainWithCycles (g : ModuleGraph) (changedFile : string)
  : option (list string * list (list string)) :=
  match chainVisit g (chainFuel g) changedFile [] (mkChain ∅ ∅ [] []) with
  | Some st => Some (reverse (ch_result st), ch_cycles st)
  | None => None
  end.

Definition getUpdateChain (g : ModuleGraph) (changedFile : string)
  : option (list string) :=
  fst <$> getUpdateChainWithCycles g changedFile.

(** *** [detectStronglyConnectedComponents] *)

(** [this.dependencyGraph.get(i) || new Set()] *)
Definition importsOf (g : ModuleGraph) (i : string) : list string :=
  edgesOf (dependencyGraph g) i.

(** First pass: [visit]. *)
Fixpoint sccVisit (g : ModuleGraph) (fuel : nat) (i : string)
    (st : gset string * list string) : option (gset string * list string) :=
  match fuel with
  | O => None
  | S fuel' =>
      let '(visited, order) := st in
      if decide (i ∈ visited) then Some st
      else
        match forEachM (sccVisit g fuel') (importsOf g i)
                       ({[i]} ∪ visited, order) with
        | Some (visited2, order2) => Some (visited2, order2 ++ [i])
        | None => None
        end
  end.

(** The transposed graph, built edge by edge. *)
Definition transposeGraph (dg : jmap jset) : jmap jset :=
  foldl (fun t '(i, deps) => foldl (fun t depId => addDependent i t depId) t deps)
        [] dg.

(** Second pass: [assign]. *)
Fixpoint sccAssign (t : jmap jset) (fuel : nat) (i : string)
    (st : gset string * list string) : option (gset string * list string) :=
  match fuel with
  | O => None
  | S fuel' =>
      let '(visited, component) := st in
      if decide (i ∈ visited) then Some st
      else
        forEachM (sccAssign t fuel') (edgesOf t i)
                 ({[i]} ∪ visited, component ++ [i])
  end.

(** The body of the [while (order.length > 0)] loop, for the popped [i]. *)
Definition sccCollect (t : jmap jset) (fuel : nat) (i : string)
    (st : gset string * list (list string))
  : option (gset string * list (list string)) :=
  let '(visited, components) := st in
  if decide (i ∈ visited) then Some st
  else
    match sccAssign t fuel i (visited, []) with
    | Some (visited2, component) =>
        if 1 <? length component then Some (visited2, components ++ [component])
        else Some (visited2, components)
    | None => None
    end.

Definition sccFuel (g : ModuleGraph) : nat :=
  S (S (length (jmap_keys (modules g)) + length (edgeNodes (dependencyGraph g)))).

Definition detectStronglyConnectedComponents (g : ModuleGraph)
  : option (list (list string)) :=
  match forEachM (sccVisit g (sccFuel g)) (jmap_keys (modules g)) (∅, []) with
  | Some (_, order) =>
      let t := transposeGraph (dependencyGraph g) in
      snd <$> forEachM (sccCollect t (sccFuel g)) (reverse order) (∅, [])
  | None => None
  end.

(** ** Reachability that avoids a set of nodes *)

Section ReachDef.
Variable E : string -> string -> Prop.

(** [reach S x y]: a path of [E]-edges from [x] to [y], none of whose nodes
    (end points included) is in [S]. *)
Inductive reach (S : gset string) : string -> string -> Prop :=
| reach_refl x : x ∉ S -> reach S x x
| reach_step x y z : x ∉ S -> E x y -> reach S y z -> reach S x z.
End ReachDef.

(** ** A generic depth-first walk

    [dfs] visits [v] unless it is visited, records it in preorder, walks its
    successors in order, and records it in postorder.  The source's closures
    are instances of it (below), so its properties are proved once. *)

Section DepthFirstDef.
Variable succ : string -> list string.

Record DfsState := mkDfs {
  dfs_visited : gset string;
  dfs_pre : list string;
  dfs_post : list string;
}.

Fixpoint dfs (fuel : nat) (v : string) (st : DfsState) : option DfsState :=
  match fuel with
  | O => None
  | S fuel' =>
      if decide (v ∈ dfs_visited st) then Some st
      else
        match forEachM (dfs fuel') (succ v)
                (mkDfs ({[v]} ∪ dfs_visited st) (dfs_pre st ++ [v]) (dfs_post st)) with
        | Some st2 =>
            Some (mkDfs (dfs_visited st2) (dfs_pre st2) (dfs_post st2 ++ [v]))
        | None => None
        end
  end.

Definition edge (x y : string) : Prop := y ∈ succ x.

(** In the list [N], every node reachable from [x] is recorded no later than
    some node that is mutually reachable with [x]. *)
Definition finishes_late (S : gset string) (N : list string) : Prop :=
  forall x y i, x ∈ N -> N !! i = Some y -> reach edge S x y ->
    exists x' j, N !! j = Some x' /\ i <= j /\
                 reach edge S x x' /\ reach edge S x' x.

(** What a walk started from the nodes [ds] in state [st] adds: the nodes
    [pre] in preorder, the same nodes [post] in postorder. *)
Record walked (ds : list string) (st st' : DfsState)
    (pre post : list string) : Prop := mkWalked {
  w_visited : dfs_visited st' = list_to_set post ∪ dfs_visited st;
  w_pre_eq : dfs_pre st' = dfs_pre st ++ pre;
  w_post_eq : dfs_post st' = dfs_post st ++ post;
  w_perm : pre ≡ₚ post;
  w_nodup : NoDup post;
  w_reach : forall w, w ∈ post <->
              exists d, d ∈ ds /\ reach edge (dfs_visited st) d w;
  w_late : finishes_late (dfs_visited st) post;
  w_ends : forall v, ds = [v] -> v ∉ dfs_visited st ->
              (exists p, pre = v :: p) /\ (exists p, post = p ++ [v]);
}.
End DepthFirstDef.

Arguments w_visited {succ ds st st' pre post} _.
Arguments w_pre_eq {succ ds st st' pre post} _.
Arguments w_post_eq {succ ds st st' pre post} _.
Arguments w_perm {succ ds st st' pre post} _.
Arguments w_nodup {succ ds st st' pre post} _.
Arguments w_reach {succ ds st st' pre post} _ _.
Arguments w_late {succ ds st st' pre post} _ _ _ _ _ _ _.
Arguments w_ends {succ ds st st' pre post} _ _ _ _.


(** ** The client runtime ([hmr-runtime.ts])

    User callbacks are closures over the page's state.  They are modelled as
    named functions on an abstract [World] that may throw a [Value]; the
    runtime records what it runs in a trace, so that the order of the calls
    is observable.  A callback cannot reach the runtime's own records, and an
    update is applied without other messages arriving in between. *)

Module ClientRuntime.

Inductive Event :=
| EvDispose (callback : string)
| EvImport (file : string)
| EvAccept (callback : string)
| EvConsoleError (file : string)
| EvReload.

Section Runtime.
Context {World Value : Type}.

(** A callback taking an argument of type [A]: its name, and its effect on
    the world together with the value it throws, if any. *)
Record Callback (A : Type) := mkCallback {
  cb_name : string;
  cb_body : A -> World -> World * option Value;
}.
Arguments cb_name {A} _.
Arguments cb_body {A} _ _ _.

(** [HotModuleState], without the [_events] table of [hot.on]. *)
Record HotModuleState := mkHot {
  data : Value;
  hot_acceptCallbacks : list (Callback Value);
  hot_disposeCallbacks : list (Callback unit);
  isAccepted : bool;
  isDeclined : bool;
}.

(** An entry of [state.modules]. *)
Record ModuleRecord := mkRecord {
  hot : HotModuleState;
  exports : Value;
  acceptCallbacks : list (Callback Value);
  disposeCallbacks : list (Callback unit);
}.

Record HMRState := mkState {
  modules : gmap string ModuleRecord;
  pendingUpdates : jset;
  isApplyingUpdates : bool;
}.

(** The page: user state, and what the runtime did to it. *)
Record Env := mkEnv {
  world : World;
  trace : list Event;
}.

Definition emit (ev : Event) (env : Env) : Env :=
  mkEnv (world env) (trace env ++ [ev]).

(** [callbacks.forEach((cb) => cb(arg))]: a throw leaves the loop. *)
Fixpoint forEachCallback {A} (ev : string -> Event) (arg : A)
    (cbs : list (Callback A)) (env : Env) : Env * option Value :=
  match cbs with
  | [] => (env, None)
  | cb :: rest =>
      let '(w, thrown) := cb_body cb arg (world env) in
      let env' := mkEnv w (trace env ++ [ev (cb_name cb)]) in
      match thrown with
      | Some e => (env', Some e)
      | None => forEachCallback ev arg rest env'
      end
  end.

(** The dynamic [import()] of the updated file: the new module, or the
    error it rejects with. *)
Variable importModule : string -> World -> World * (Value + Value).

(** [applyUpdate(file)]: the state, the page, and the value the returned
    promise rejects with, if any. *)
Definition applyUpdate (file : string) (st : HMRState) (env : Env)
  : HMRState * Env * option Value :=
  match modules st !! file with
  | None => (st, env, None)
  | Some moduleState =>
      let '(env1, thrown) :=
        forEachCallback EvDispose tt (disposeCallbacks moduleState) env in
      match thrown with
      | Some e => (st, env1, Some e)
      | None =>
          let hotData := data (hot moduleState) in
          let '(w2, imported) := importModule file (world env1) in
          let env2 := mkEnv w2 (trace env1 ++ [EvImport file]) in
          match imported with
          | inr _ => (st, emit (EvConsoleError file) env2, None)
          | inl newModule =>
              let h := hot moduleState in
              let moduleState' :=
                mkRecord (mkHot hotData (hot_acceptCallbacks h)
                            (hot_disposeCallbacks h) (isAccepted h) (isDeclined h))
                         newModule (acceptCallbacks moduleState)
                         (disposeCallbacks moduleState) in
              let st' := mkState (<[file := moduleState']> (modules st))
                                 (pendingUpdates st) (isApplyingUpdates st) in
              let '(env3, thrown3) :=
                forEachCallback EvAccept newModule (acceptCallbacks moduleState) env2 in
              match thrown3 with
              | Some _ => (st', emit (EvConsoleError file) env3, None)
              | None => (st', env3, None)
              end
          end
      end
  end.

(** The [while (state.pendingUpdates.size > 0)] loop of [applyUpdates]. *)
Fixpoint drainUpdates (pending : list string) (st : HMRState) (env : Env)
  : HMRState * Env * option Value :=
  match pending with
  | [] => (st, env, None)
  | file :: rest =>
      let st1 := mkState (modules st) rest (isApplyingUpdates st) in
      let '(st2, env2, thrown) := applyUpdate file st1 env in
      match thrown with
      | Some e => (st2, env2, Some e)
      | None => drainUpdates rest st2 env2
      end
  end.

(** [applyUpdates()]: the [finally] clause resets the flag. *)
Definition applyUpdates (st : HMRState) (env : Env)
  : HMRState * Env * option Value :=
  let st1 := mkState (modules st) (pendingUpdates st) true in
  let '(st2, env2, thrown) := drainUpdates (pendingUpdates st1) st1 env in
  (mkState (modules st2) (pendingUpdates st2) false, env2, thrown).

Definition queueUpdate (file : string) (st : HMRState) (env : Env)
  : HMRState * Env * option Value :=
  let st1 := mkState (modules st) (jset_add file (pendingUpdates st))
                     (isApplyingUpdates st) in
  if isApplyingUpdates st1 then (st1, env, None) else applyUpdates st1 env.

(** *** [createHotContext] and the [hot] object *)

Variable emptyValue : Value.

Definition freshRecord : ModuleRecord :=
  mkRecord (mkHot emptyValue [] [] false false) emptyValue [] [].

Definition createHotContext (i : string) (st : HMRState) : HMRState :=
  match modules st !! i with
  | Some _ => st
  | None => mkState (<[i := freshRecord]> (modules st)) (pendingUpdates st)
                    (isApplyingUpdates st)
  end.

Definition setAccepted (m : ModuleRecord) : ModuleRecord :=
  let h := hot m in
  mkRecord (mkHot (data h) (hot_acceptCallbacks h) (hot_disposeCallbacks h)
                  true (isDeclined h))
           (exports m) (acceptCallbacks m) (disposeCallbacks m).

(** [hot.accept(callback?)] on the record [moduleState]. *)
Definition accept (callback : option (Callback Value)) (m : ModuleRecord)
  : ModuleRecord :=
  match callback with
  | Some cb =>
      mkRecord (hot m) (exports m) (acceptCallbacks m ++ [cb]) (disposeCallbacks m)
  | None => setAccepted m
  end.

(** [hot.decline()] *)
Definition decline (m : ModuleRecord) : ModuleRecord :=
  let h := hot m in
  mkRecord (mkHot (data h) (hot_acceptCallbacks h) (hot_disposeCallbacks h)
                  (isAccepted h) true)
           (exports m) (acceptCallbacks m) (disposeCallbacks m).

(** [hot.dispose(callback)] *)
Definition dispose (cb : Callback unit) (m : ModuleRecord) : ModuleRecord :=
  mkRecord (hot m) (exports m) (acceptCallbacks m) (disposeCallbacks m ++ [cb]).

(** *** [ClientModuleSystem.accept] ([module-system.ts])

    The module system keeps its callbacks in [module.hot]; [None] stands
    for the error it throws when the module is unknown. *)
Definition moduleSystemAccept (url : string)
    (callback : option (Callback Value))
    (mods : gmap string HotModuleState) : option (gmap string HotModuleState) :=
  match mods !! url with
  | None => None
  | Some h =>
      let h1 := mkHot (data h) (hot_acceptCallbacks h) (hot_disposeCallbacks h)
                      true (isDeclined h) in
      let h2 :=
        match callback with
        | Some cb =>
            mkHot (data h1) (hot_acceptCallbacks h1 ++ [cb])
                  (hot_disposeCallbacks h1) (isAccepted h1) (isDeclined h1)
        | None => h1
        end in
      Some (<[url := h2]> mods)
  end.

(** Running callbacks to the end: [runsClean cbs arg w w'] when none of
    them throws and they take the world from [w] to [w']. *)
Inductive runsClean {A} (arg : A) : list (Callback A) -> World -> World -> Prop :=
| clean_nil w : runsClean arg [] w w
| clean_cons cb cbs w w1 w' :
    cb_body cb arg w = (w1, None) -> runsClean arg cbs w1 w' ->
    runsClean arg (cb :: cbs) w w'.
End Runtime.

Arguments Callback : clear implicits.
Arguments mkCallback {World Value A} _ _.
Arguments cb_name {World Value A} _.
Arguments cb_body {World Value A} _ _ _.
Arguments HotModuleState : clear implicits.
Arguments ModuleRecord : clear implicits.
Arguments HMRState : clear implicits.
Arguments Env : clear implicits.

(** A sample page: the world counts the callbacks that ran. *)
Definition tick (name : string) : Callback nat string unit :=
  mkCallback name (fun _ w => (S w, None)).


Definition listen (name : string) : Callback nat string string :=
  mkCallback name (fun _ w => (S w, None)).

Definition sampleImport (file : string) (w : nat) : nat * (string + string) :=
  (w, inl ("new " ++ file)%string).



Definition calmRecord : ModuleRecord nat string :=
  mkRecord (mkHot "data" [] [] false false) "old"
           [listen "a1"] [tick "d1"; tick "d2"].

Definition calmState : HMRState nat string :=
  mkState {["m.js" := calmRecord]} [] false.

End ClientRuntime.

Module ClientRuntimeSpec.
Import ClientRuntime.

Section Spec.
Context {World Value : Type}.


(** The record with the flags that [hot.accept()] and [hot.decline()] write
    set to the given values. *)
Definition withFlags (accepted declined : bool) (m : ModuleRecord World Value)
  : ModuleRecord World Value :=
  mkRecord (mkHot (data (hot m)) (hot_acceptCallbacks (hot m))
                  (hot_disposeCallbacks (hot m)) accepted declined)
           (exports m) (acceptCallbacks m) (disposeCallbacks m).
End Spec.
End ClientRuntimeSpec.

(** ** The server ([hmr-server.ts])

    A [WebSocket] is a number.  The maps that are only looked up
    ([moduleCache], [clientModules], the ready states) are [gmap]s; the sets
    that are iterated to send messages are insertion-ordered lists. *)

Module Server.

Inductive ReadyState := CONNECTING | OPEN | CLOSING | CLOSED.

Global Instance ReadyState_eq_dec : EqDecision ReadyState.
Proof. solve_decision. Defined.

(** Messages sent to clients, and what reads of client messages yield. *)
Inductive ServerMessage :=
| MsgUpdate (file : string) (timestamp : nat)
| MsgError (file : string) (error : string) (timestamp : nat).

(** [JSON.parse(data.toString())]: a parse failure, or the [type] and
    [file] of the message. *)
Inductive ClientData :=
| Malformed
| Parsed (type : string) (file : string).

Record CacheEntry := mkEntry {
  entry_code : string;
  entry_hash : string;
}.

Record HMRServer := mkServer {
  wssClients : list nat;
  readyStates : gmap nat ReadyState;
  moduleGraph : ModuleGraph;
  moduleCache : gmap string CacheEntry;
  clientModules : gmap string (list nat);
(** the [clientModules] set local to each connection handler *)
connectionModules : gmap nat jset;
(** every [client.send], in order *)
sent : list (nat * ServerMessage);
}.

Definition newServer : HMRServer :=
  mkServer [] ∅ emptyGraph ∅ ∅ ∅ [].

Definition readyState (st : HMRServer) (client : nat) : ReadyState :=
  default CLOSED (readyStates st !! client).

Definition socketAdd (ws : nat) (s : list nat) : list nat :=
  if decide (ws ∈ s) then s else s ++ [ws].

Definition socketDelete (ws : nat) (s : list nat) : list nat :=
  filter (fun c => c ≠ ws) s.

(** *** [setupWebSocketHooks] *)

(** The ['message'] handler of the connection [ws]. *)
Definition onMessage (ws : nat) (data : ClientData) (st : HMRServer) : HMRServer :=
  match connectionModules st !! ws, data with
  | Some mine, Parsed type file =>
      if decide (type = "module-loaded") then
        let mine' := jset_add file mine in
        let cm1 :=
          match clientModules st !! file with
          | Some _ => clientModules st
          | None => <[file := []]> (clientModules st)
          end in
        let cm2 :=
          match cm1 !! file with
          | Some clients => <[file := socketAdd ws clients]> cm1
          | None => cm1
          end in
        mkServer (wssClients st) (readyStates st) (moduleGraph st) (moduleCache st)
                 cm2 (<[ws := mine']> (connectionModules st)) (sent st)
      else st
  | _, _ => st
  end.

(** The body of [clientModules.forEach] in the ['close'] handler. *)
Definition forgetClient (ws : nat) (cm : gmap string (list nat)) (file : string)
  : gmap string (list nat) :=
  match cm !! file with
  | Some clients =>
      let clients' := socketDelete ws clients in
      if length clients' =? 0 then delete file cm else <[file := clients']> cm
  | None => cm
  end.

(** The ['close'] handler of the connection [ws]; the socket also leaves
    [wss.clients] and becomes [CLOSED]. *)
Definition onClose (ws : nat) (st : HMRServer) : HMRServer :=
  match connectionModules st !! ws with
  | Some mine =>
      mkServer (socketDelete ws (wssClients st)) (<[ws := CLOSED]> (readyStates st))
               (moduleGraph st) (moduleCache st)
               (foldl (forgetClient ws) (clientModules st) mine)
               (connectionModules st) (sent st)
  | None => st
  end.

(** The ['connection'] event for a new socket [ws]. *)
Definition onConnection (ws : nat) (st : HMRServer) : HMRServer :=
  match connectionModules st !! ws with
  | Some _ => st
  | None =>
      mkServer (socketAdd ws (wssClients st)) (<[ws := OPEN]> (readyStates st))
               (moduleGraph st) (moduleCache st) (clientModules st)
               (<[ws := []]> (connectionModules st)) (sent st)
  end.

Inductive SocketEvent :=
| Connection (ws : nat)
| ClientMessage (ws : nat) (data : ClientData)
| Close (ws : nat).

Definition handle (st : HMRServer) (ev : SocketEvent) : HMRServer :=
  match ev with
  | Connection ws => onConnection ws st
  | ClientMessage ws data => onMessage ws data st
  | Close ws => onClose ws st
  end.

Definition handleAll (st : HMRServer) (evs : list SocketEvent) : HMRServer :=
  foldl handle st evs.

(** *** Updates *)

Definition sendTo (msg : ServerMessage) (st : HMRServer) (client : nat) : HMRServer :=
  if decide (readyState st client = OPEN) then
    mkServer (wssClients st) (readyStates st) (moduleGraph st) (moduleCache st)
             (clientModules st) (connectionModules st) (sent st ++ [(client, msg)])
  else st.

(** [notifyError(file, error)] *)
Definition notifyError (file error : string) (now : nat) (st : HMRServer) : HMRServer :=
  foldl (sendTo (MsgError file error now)) st (wssClients st).

(** An [HMRUpdate] of type ['update']. *)
Record HMRUpdate := mkUpdate {
  upd_file : string;
  upd_clients : list nat;
  upd_timestamp : nat;
}.

Definition calculateUpdates (updateChain : list string) (now : nat) (st : HMRServer)
  : list HMRUpdate :=
  map (fun file => mkUpdate file (default [] (clientModules st !! file)) now)
      updateChain.

Definition notifyClients (updates : list HMRUpdate) (st : HMRServer) : HMRServer :=
  foldl (fun st update =>
           foldl (sendTo (MsgUpdate (upd_file update) (upd_timestamp update)))
                 st (upd_clients update))
        st updates.

Section Collaborators.
(** [crypto]'s SHA-256 digest, and the call of [esbuildTransform] with the
    loader of the file: the code, or the message of the error thrown. *)
Variable hash : string -> string.
Variable esbuildTransform : string -> string -> string + string.

(** [transformModule(file)], given the file system at the time of the
    read ([None]: the read fails with [readError]). *)
Definition transformModule (fs : string -> option string) (readError : string)
    (file : string) (st : HMRServer) : HMRServer * (string + string) :=
  match fs file with
  | None => (st, inr readError)
  | Some content =>
      let currentHash := hash content in
      let hit :=
        match moduleCache st !! file with
        | Some cached =>
            if decide (entry_hash cached = currentHash)
            then Some (entry_code cached) else None
        | None => None
        end in
      match hit with
      | Some code => (st, inl code)
      | None =>
          match esbuildTransform file content with
          | inr err => (st, inr err)
          | inl code =>
              (mkServer (wssClients st) (readyStates st) (moduleGraph st)
                        (<[file := mkEntry code currentHash]> (moduleCache st))
                        (clientModules st) (connectionModules st) (sent st),
               inl code)
          end
      end
  end.

(** [processUpdate(file)]; [None] only if the chain walk ran out of fuel. *)
Definition processUpdate (fs : string -> option string) (readError : string)
    (now : nat) (file : string) (st : HMRServer) : option HMRServer :=
  match transformModule fs readError file st with
  | (st1, inl _) =>
      match getUpdateChain (moduleGraph st1) file with
      | Some updateChain =>
          Some (notifyClients (calculateUpdates updateChain now st1) st1)
      | None => None
      end
  | (st1, inr err) => Some (notifyError file err now st1)
  end.
End Collaborators.

(** The open clients among [clients], each paired with [msg]. *)
Definition deliveries (st : HMRServer) (msg : ServerMessage) (clients : list nat)
  : list (nat * ServerMessage) :=
  map (fun c => (c, msg)) (filter (fun c => readyState st c = OPEN) clients).

(** Sample collaborators and states. *)
Definition sampleHash (content : string) : string := ("#" ++ content)%string.

Definition sampleTransform (file content : string) : string + string :=
  if decide (content = "syntax error") then inr "parse failed" else inl content.

Definition sampleFs (file : string) : option string :=
  if decide (file = "a.ts") then Some "export const a = 1"
  else if decide (file = "bad.ts") then Some "syntax error"
  else None.

(** Client 1 loaded [a.ts] and [bad.ts], client 2 loaded nothing, and
    [a.ts] is cached with the hash of its current content. *)
Definition sampleServer : HMRServer :=
  let st := handleAll newServer
              [Connection 1; Connection 2;
               ClientMessage 1 (Parsed "module-loaded" "a.ts");
               ClientMessage 1 (Parsed "module-loaded" "bad.ts")] in
  mkServer (wssClients st) (readyStates st) (moduleGraph st)
           {["a.ts" := mkEntry "export const a = 1" (sampleHash "export const a = 1")]}
           (clientModules st) (connectionModules st) (sent st).

End Server.

Module ServerSpec.
Import Server.

(** [st] after the sends [l]. *)
Definition withSent (st : HMRServer) (l : list (nat * ServerMessage)) : HMRServer :=
  mkServer (wssClients st) (readyStates st) (moduleGraph st) (moduleCache st)
           (clientModules st) (connectionModules st) (sent st ++ l).

(** The [update] messages [notifyClients] sends for a chain. *)
Definition updateDeliveries (st : HMRServer) (now : nat) (chain : list string)
  : list (nat * ServerMessage) :=
  concat (map (fun f => deliveries st (MsgUpdate f now)
                          (default [] (clientModules st !! f))) chain).

Definition allNonEmpty (cm : gmap string (list nat)) : Prop :=
  forall file clients, cm !! file = Some clients -> clients ≠ [].
End ServerSpec.

(** ** The update batcher ([update-batcher.ts])

    The batcher is asynchronous: between two [await]s its code runs without
    interruption.  Each such run is one step of a transition system, taken
    when a label is fired: a call of [enqueue], the settling of a handler's
    promise, and the three continuations (of [processBatch], of [worker], of
    [processQueue]).  Continuations may be delayed arbitrarily, so every
    interleaving of the event loop is a run.  Promises are numbers; the
    handle [enqueue] returns is the promise stored in [pendingPromises] (the
    [async] wrapper adopts its state).  The handler does not call the batcher
    back synchronously. *)

Module Batcher.

Inductive UpdatePriority := high | normal | low.

Global Instance UpdatePriority_eq_dec : EqDecision UpdatePriority.
Proof. solve_decision. Defined.

(** [UpdateJob]: [completion] is the promise that [resolve] and [reject]
    settle. *)
Record UpdateJob := mkJob {
  file : string;
  priority : UpdatePriority;
  timestamp : nat;
  completion : nat;
}.

Global Instance UpdateJob_eq_dec : EqDecision UpdateJob.
Proof. solve_decision. Defined.

(** The comparator given to the priority queue. *)
Definition compareJobs (a b : UpdateJob) : Z :=
  if decide (priority a = priority b) then
    (Z.of_nat (timestamp a) - Z.of_nat (timestamp b))%Z
  else if decide (priority a = high) then (-1)%Z
  else if decide (priority a = normal /\ priority b = low) then (-1)%Z
  else 1%Z.

Inductive HandlerStatus := Running | Fulfilled | Rejected.

(** Where the [processBatch] call of a batch stands: awaiting [Promise.all],
    returned, thrown, or dealt with by its worker. *)
Inductive BatchPhase :=
| AwaitingHandlers
| Returned
| Threw (err : string)
| Finished.

Record Batch := mkBatch {
  jobs : list UpdateJob;
  handlers : list HandlerStatus;
  failure : option string;
  phase : BatchPhase;
}.

(** What can be observed of a run. *)
Inductive LogEntry :=
| LogEnqueue (f : string) (handle : nat) (created : bool)
| LogHandlerStart (f : string)
| LogHandlerEnd (f : string) (error : option string)
| LogResolve (promise : nat)
| LogReject (promise : nat) (err : string).

Record BatcherState := mkBatcher {
  concurrency : nat;
  batchWindow : nat;
  queue : list UpdateJob;
  isProcessing : bool;
  pendingPromises : gmap string nat;
  nextPromise : nat;
  batches : list Batch;
  (** the workers of the running [processQueue]: the batch each one awaits,
      or [None] once it has returned *)
  workers : list (option nat);
  log : list LogEntry;
}.

(** [new UpdateBatcher(handler, options)]: an absent or zero option takes
    its default. *)
Definition newBatcher (optConcurrency optBatchWindow : option nat) : BatcherState :=
  let c := match optConcurrency with Some (S n) => S n | _ => 4 end in
  let w := match optBatchWindow with Some (S n) => S n | _ => 100 end in
  mkBatcher c w [] false ∅ 0 [] [] [].

Definition setQueue (q : list UpdateJob) (st : BatcherState) : BatcherState :=
  mkBatcher (concurrency st) (batchWindow st) q (isProcessing st)
            (pendingPromises st) (nextPromise st) (batches st) (workers st) (log st).

Definition setProcessing (b : bool) (ws : list (option nat)) (st : BatcherState)
  : BatcherState :=
  mkBatcher (concurrency st) (batchWindow st) (queue st) b
            (pendingPromises st) (nextPromise st) (batches st) ws (log st).

Definition setPending (p : gmap string nat) (st : BatcherState) : BatcherState :=
  mkBatcher (concurrency st) (batchWindow st) (queue st) (isProcessing st)
            p (nextPromise st) (batches st) (workers st) (log st).

Definition setBatches (bs : list Batch) (st : BatcherState) : BatcherState :=
  mkBatcher (concurrency st) (batchWindow st) (queue st) (isProcessing st)
            (pendingPromises st) (nextPromise st) bs (workers st) (log st).

Definition addLog (l : list LogEntry) (st : BatcherState) : BatcherState :=
  mkBatcher (concurrency st) (batchWindow st) (queue st) (isProcessing st)
            (pendingPromises st) (nextPromise st) (batches st) (workers st)
            (log st ++ l).

Section Queue.
(** The priority queue of the [typescript-collections] package is not part
    of the sources: [pick q] is the job that [queue.peek()] returns on the
    jobs [q] (kept in insertion order) together with the jobs left by
    [queue.dequeue()]. *)
Variable pick : list UpdateJob -> option (UpdateJob * list UpdateJob).

(** The test of [collectBatch] on the peeked job. *)
Definition joins (window now : nat) (batch : list UpdateJob) (job : UpdateJob) : bool :=
  match batch with
  | [] => true
  | first :: _ =>
      (Z.of_nat now - Z.of_nat (timestamp job) <? Z.of_nat window)%Z
      && bool_decide (priority first = priority job)
  end.

(** The loop of [collectBatch], [n] bounding the length of the batch. *)
Fixpoint collect (n window now : nat) (batch q : list UpdateJob)
  : list UpdateJob * list UpdateJob :=
  match n with
  | O => (batch, q)
  | S n' =>
      match pick q with
      | None => (batch, q)
      | Some (job, rest) =>
          if joins window now batch job
          then collect n' window now (batch ++ [job]) rest
          else (batch, q)
      end
  end.

Definition collectBatch (now : nat) (st : BatcherState)
  : list UpdateJob * list UpdateJob :=
  collect 10 (batchWindow st) now [] (queue st).

(** [processBatch(batch)] up to its [await]: the handler is called on every
    job of the batch, in order. *)
Definition startBatch (batch : list UpdateJob) (st : BatcherState) : BatcherState :=
  addLog (map (fun job => LogHandlerStart (file job)) batch)
    (setBatches (batches st ++ [mkBatch batch (map (fun _ => Running) batch)
                                        None AwaitingHandlers]) st).

(** [worker()] from the test of its loop to its next [await]: the batch it
    then awaits, or [None] when it returns.  From a queue that is not empty
    [collectBatch] takes at least the job the queue yields first, so the
    [continue] on an empty batch is never taken; the model lets the worker
    return there. *)
Definition workerSegment (now : nat) (st : BatcherState)
  : BatcherState * option nat :=
  match queue st with
  | [] => (st, None)
  | _ :: _ =>
      let '(batch, rest) := collectBatch now st in
      match batch with
      | [] => (st, None)
      | _ :: _ => (startBatch batch (setQueue rest st), Some (length (batches st)))
      end
  end.

(** The loop of [processQueue] that starts the workers. *)
Fixpoint spawnWorkers (n now : nat) (st : BatcherState) (ws : list (option nat))
  : BatcherState * list (option nat) :=
  match n with
  | O => (st, ws)
  | S n' =>
      let '(st1, w) := workerSegment now st in
      spawnWorkers n' now st1 (ws ++ [w])
  end.

(** [processQueue()] up to its [await]. *)
Definition processQueue (now : nat) (st : BatcherState) : BatcherState :=
  let st1 := setProcessing true [] st in
  let '(st2, ws) := spawnWorkers (concurrency st1) now st1 [] in
  setProcessing true ws st2.

(** [enqueue(file, priority)] called at time [now]: the new state and the
    handle returned. *)
Definition enqueue (f : string) (p : UpdatePriority) (now : nat) (st : BatcherState)
  : BatcherState * nat :=
  match pendingPromises st !! f with
  | Some promise => (addLog [LogEnqueue f promise false] st, promise)
  | None =>
      let promise := nextPromise st in
      let st1 :=
        mkBatcher (concurrency st) (batchWindow st)
                  (queue st ++ [mkJob f p now promise]) (isProcessing st)
                  (<[f := promise]> (pendingPromises st)) (S promise)
                  (batches st) (workers st)
                  (log st ++ [LogEnqueue f promise true]) in
      (if isProcessing st1 then st1 else processQueue now st1, promise)
  end.

(** The promise of handler [k] of batch [b] settles. *)
Definition settleHandler (b k : nat) (error : option string) (st : BatcherState)
  : option BatcherState :=
  match batches st !! b with
  | None => None
  | Some batch =>
      match handlers batch !! k, jobs batch !! k with
      | Some Running, Some job =>
          let status := match error with Some _ => Rejected | None => Fulfilled end in
          let fail := match failure batch with
                      | Some e => Some e
                      | None => error
                      end in
          let batch' := mkBatch (jobs batch) (<[k := status]> (handlers batch))
                                fail (phase batch) in
          Some (addLog [LogHandlerEnd (file job) error]
                  (setBatches (<[b := batch']> (batches st)) st))
      | _, _ => None
      end
  end.

Definition forgetFiles (js : list UpdateJob) (p : gmap string nat) : gmap string nat :=
  foldl (fun p job => delete (file job) p) p js.

(** [processBatch] after [await Promise.all(...)]: it is resumed when every
    handler is fulfilled, or as soon as one is rejected. *)
Definition continueBatch (b : nat) (st : BatcherState) : option BatcherState :=
  match batches st !! b with
  | None => None
  | Some batch =>
      match phase batch, failure batch with
      | AwaitingHandlers, Some err =>
          let batch' := mkBatch (jobs batch) (handlers batch) (failure batch) (Threw err) in
          Some (setPending (forgetFiles (jobs batch) (pendingPromises st))
                  (setBatches (<[b := batch']> (batches st)) st))
      | AwaitingHandlers, None =>
          if forallb (fun h => match h with Fulfilled => true | _ => false end)
                     (handlers batch) then
            let batch' := mkBatch (jobs batch) (handlers batch) (failure batch) Returned in
            Some (addLog (map (fun job => LogResolve (completion job)) (jobs batch))
                    (setPending (forgetFiles (jobs batch) (pendingPromises st))
                       (setBatches (<[b := batch']> (batches st)) st)))
          else None
      | _, _ => None
      end
  end.

(** [worker] after [await this.processBatch(batch)], to its next [await]. *)
Definition continueWorker (w now : nat) (st : BatcherState) : option BatcherState :=
  match workers st !! w with
  | Some (Some b) =>
      match batches st !! b with
      | None => None
      | Some batch =>
          let finish (st0 : BatcherState) :=
            let batch' := mkBatch (jobs batch) (handlers batch) (failure batch) Finished in
            let st1 := setBatches (<[b := batch']> (batches st0)) st0 in
            let '(st2, next) := workerSegment now st1 in
            setProcessing (isProcessing st2) (<[w := next]> (workers st2)) st2 in
          match phase batch with
          | Returned => Some (finish st)
          | Threw err =>
              Some (finish (addLog (map (fun job => LogReject (completion job) err)
                                        (jobs batch)) st))
          | _ => None
          end
      end
  | _ => None
  end.

(** [processQueue] after [await Promise.all(workers)]. *)
Definition continueProcessQueue (st : BatcherState) : option BatcherState :=
  if isProcessing st && forallb (fun w => match w with None => true | _ => false end)
                                (workers st)
  then Some (setProcessing false [] st)
  else None.

Inductive Label :=
| CallEnqueue (f : string) (p : UpdatePriority) (now : nat)
| HandlerSettles (b k : nat) (error : option string)
| BatchContinues (b : nat)
| WorkerContinues (w now : nat)
| ProcessQueueContinues.

Definition step (st : BatcherState) (l : Label) : option BatcherState :=
  match l with
  | CallEnqueue f p now => Some (enqueue f p now st).1
  | HandlerSettles b k error => settleHandler b k error st
  | BatchContinues b => continueBatch b st
  | WorkerContinues w now => continueWorker w now st
  | ProcessQueueContinues => continueProcessQueue st
  end.

Fixpoint run (st : BatcherState) (ls : list Label) : option BatcherState :=
  match ls with
  | [] => Some st
  | l :: ls' =>
      match step st l with
      | Some st' => run st' ls'
      | None => None
      end
  end.
End Queue.

(** *** Vocabulary of the statements *)

(** The queue discipline removes one job of the queue, and finds one
    whenever the queue is not empty. *)
Definition lawful (pick : list UpdateJob -> option (UpdateJob * list UpdateJob)) : Prop :=
  (forall q job rest, pick q = Some (job, rest) -> q ≡ₚ job :: rest) /\
  (forall q, pick q = None -> q = []).

(** The jobs whose completion is pending: queued, or in a batch whose
    [processBatch] still awaits the handlers. *)
Definition flight (b : Batch) : list UpdateJob :=
  match phase b with
  | AwaitingHandlers => jobs b
  | _ => []
  end.

Definition inFlight (bs : list Batch) : list UpdateJob :=
  concat (map flight bs).

Definition liveJobs (st : BatcherState) : list UpdateJob :=
  queue st ++ inFlight (batches st).

Definition isHandlerStart (f : string) (e : LogEntry) : bool :=
  match e with
  | LogHandlerStart f' => bool_decide (f' = f)
  | _ => false
  end.

Definition isCreation (f : string) (e : LogEntry) : bool :=
  match e with
  | LogEnqueue f' _ true => bool_decide (f' = f)
  | _ => false
  end.

Definition isJobFor (f : string) (job : UpdateJob) : bool :=
  bool_decide (file job = f).

(** The calls of the handler with argument [f]. *)
Definition handlerCalls (f : string) (l : list LogEntry) : nat :=
  length (List.filter (isHandlerStart f) l).

Definition queuedFor (f : string) (q : list UpdateJob) : nat :=
  length (List.filter (isJobFor f) q).

(** The calls of [enqueue(f)] that found no pending completion and created
    a job. *)
Definition jobsCreated (f : string) (l : list LogEntry) : nat :=
  length (List.filter (isCreation f) l).

(** The calls of [enqueue(f)] made when a handler for [f] had been called
    and every handler called for [f] had completed. *)
Fixpoint callsAfterHandler (f : string) (started ended : nat) (l : list LogEntry) : nat :=
  match l with
  | [] => 0
  | LogHandlerStart f' :: l' =>
      callsAfterHandler f (if decide (f' = f) then S started else started) ended l'
  | LogHandlerEnd f' _ :: l' =>
      callsAfterHandler f started (if decide (f' = f) then S ended else ended) l'
  | LogEnqueue f' _ _ :: l' =>
      (if decide (f' = f /\ 0 < started /\ started = ended) then 1 else 0)
      + callsAfterHandler f started ended l'
  | _ :: l' => callsAfterHandler f started ended l'
  end.

(** Nothing queued, no batch under way, [processQueue] returned. *)
Definition quiescent (st : BatcherState) : bool :=
  bool_decide (queue st = []) && negb (isProcessing st)
  && forallb (fun b => match phase b with
                       | Finished => true
                       | _ => false
                       end) (batches st).

(** The queue of the package as its documentation describes it: the job
    dequeued is a greatest one for the comparator (the first such job in
    insertion order). *)
Fixpoint greatest (best : UpdateJob) (q : list UpdateJob) : UpdateJob :=
  match q with
  | [] => best
  | job :: q' =>
      greatest (if (0 <? compareJobs job best)%Z then job else best) q'
  end.

Fixpoint removeFirst (job : UpdateJob) (q : list UpdateJob) : list UpdateJob :=
  match q with
  | [] => []
  | j :: q' =>
      if decide (j = job) then q' else j :: removeFirst job q'
  end.

Definition pickGreatest (q : list UpdateJob) : option (UpdateJob * list UpdateJob) :=
  match q with
  | [] => None
  | j :: q' => let best := greatest j q' in Some (best, removeFirst best q)
  end.

(** A run in which [f] and [g] share a batch: the handler of [f] completes,
    [enqueue(f)] is called again, and only then the handler of [g]
    completes. *)
Definition sharedBatchRun : list Label :=
  [CallEnqueue "x" normal 0;
   CallEnqueue "f" normal 1;
   CallEnqueue "g" normal 2;
   HandlerSettles 0 0 None; BatchContinues 0; WorkerContinues 0 3;
   HandlerSettles 1 0 None; HandlerSettles 1 1 None;
   BatchContinues 1; WorkerContinues 0 9; ProcessQueueContinues].

Definition sharedBatchRunWithCall : list Label :=
  [CallEnqueue "x" normal 0;
   CallEnqueue "f" normal 1;
   CallEnqueue "g" normal 2;
   HandlerSettles 0 0 None; BatchContinues 0; WorkerContinues 0 3;
   HandlerSettles 1 1 None;
   CallEnqueue "f" normal 5;
   HandlerSettles 1 0 None;
   BatchContinues 1; WorkerContinues 0 9; ProcessQueueContinues].


(** A run in which the handler of [g] fails while the handler of [f], in the
    same batch, is still running, and [enqueue(f)] is called after the
    failure has been handled by [processBatch]. *)
Definition failedBatchRun : list Label :=
  [CallEnqueue "x" normal 0;
   CallEnqueue "f" normal 1;
   CallEnqueue "g" normal 2;
   HandlerSettles 0 0 None; BatchContinues 0; WorkerContinues 0 3;
   HandlerSettles 1 0 (Some "boom"); BatchContinues 1;
   CallEnqueue "f" normal 5].

Definition sharedBatchFinal : option BatcherState :=
  run pickGreatest (newBatcher None None) sharedBatchRunWithCall.

End Batcher.

Module BatcherSpec.
Import Batcher.

(** What every step of the batcher maintains. *)
Record batcher_inv (st : BatcherState) : Prop := mkBatcherInv {
  inv_count : forall f,
    handlerCalls f (log st) + queuedFor f (queue st) = jobsCreated f (log st);
  inv_live_nodup : NoDup (map file (liveJobs st));
  inv_live_pending : forall job, job ∈ liveJobs st ->
    pendingPromises st !! file job = Some (completion job);
  inv_pending_live : forall f p, pendingPromises st !! f = Some p ->
    exists job, job ∈ liveJobs st /\ file job = f /\ completion job = p;
}.
End BatcherSpec.

Module BatcherMore.
Import Batcher.

(** The order the comparator encodes: high before normal before low, and
    among equal priorities the older job first. *)
Definition rank (p : UpdatePriority) : nat :=
  match p with
  | high => 0
  | normal => 1
  | low => 2
  end.

Definition before (a b : UpdateJob) : Prop :=
  rank (priority a) < rank (priority b) \/
  (priority a = priority b /\ timestamp a < timestamp b).

(** The condition under which [collectBatch] lets a job follow [first]. *)
Definition follows (window now : nat) (first job : UpdateJob) : Prop :=
  priority first = priority job /\
  (Z.of_nat now - Z.of_nat (timestamp job) < Z.of_nat window)%Z.

(** A batch whose worker has not come back from [processBatch]. *)
Definition unfinished (b : Batch) : bool :=
  match phase b with
  | Finished => false
  | _ => true
  end.

Definition unfinishedBatches (st : BatcherState) : list nat :=
  filter (fun b => unfinished <$> batches st !! b = Some true)
         (seq 0 (length (batches st))).

(** Every unfinished batch of [bs] is the batch some worker of [ws] awaits. *)
Definition awaited (bs : list Batch) (ws : list (option nat)) : Prop :=
  forall b batch, bs !! b = Some batch -> unfinished batch = true -> Some b ∈ ws.

(** Every unfinished batch is awaited by a worker of the running
    [processQueue], which has [concurrency] workers. *)
Record workers_inv (st : BatcherState) : Prop := mkWorkersInv {
  wi_idle : isProcessing st = false -> workers st = [];
  wi_len : length (workers st) <= concurrency st;
  wi_await : awaited (batches st) (workers st);
}.

(** What must be in the log [l] before the entry [e] may follow it: a
    completion is settled for a job that was created with it and whose
    handler was called, it is resolved after a handler for the file of the job
    completed, and rejected with the error of a handler that failed. *)
Definition justified (l : list LogEntry) (e : LogEntry) : Prop :=
  match e with
  | LogResolve p =>
      exists f, LogEnqueue f p true ∈ l /\ LogHandlerStart f ∈ l /\
                LogHandlerEnd f None ∈ l
  | LogReject p err =>
      exists f f', LogEnqueue f p true ∈ l /\ LogHandlerStart f ∈ l /\
                   LogHandlerEnd f' (Some err) ∈ l
  | _ => True
  end.

Definition settled_in_order (l : list LogEntry) : Prop :=
  forall l1 e l2, l = l1 ++ e :: l2 -> justified l1 e.

Record log_inv (st : BatcherState) : Prop := mkLogInv {
  li_order : settled_in_order (log st);
  li_queued : forall job, job ∈ queue st ->
                LogEnqueue (file job) (completion job) true ∈ log st;
  li_batched : forall b batch job, batches st !! b = Some batch -> job ∈ jobs batch ->
                 LogEnqueue (file job) (completion job) true ∈ log st /\
                 LogHandlerStart (file job) ∈ log st;
  li_fulfilled : forall b batch k job, batches st !! b = Some batch ->
                   handlers batch !! k = Some Fulfilled ->
                   jobs batch !! k = Some job ->
                   LogHandlerEnd (file job) None ∈ log st;
  li_failure : forall b batch err, batches st !! b = Some batch ->
                 (failure batch = Some err \/ phase batch = Threw err) ->
                 exists f, LogHandlerEnd f (Some err) ∈ log st;
  li_length : forall b batch, batches st !! b = Some batch ->
                length (handlers batch) = length (jobs batch);
}.

End BatcherMore.

(** ** The dependency proxy ([dependency-proxy.ts])

    The handler of [createProxy] is modelled over an abstract heap:
    [Reflect.get] and [Reflect.set] are collaborators, restricted to data
    properties (an accessor would run user code with the proxy as [this]).
    Every proxy made by the handler shares the handler, and with it the one
    set [accessedProperties]. *)

Module DependencyProxy.

(** A property key: a string or a symbol. *)
Inductive PropKey :=
| KString (s : string)
| KSymbol (n : nat).

Definition stringKey (k : PropKey) : option string :=
  match k with
  | KString s => Some s
  | KSymbol _ => None
  end.

Section Proxy.
Context {Heap Obj Value : Type}.

Variable reflectGet : Obj -> PropKey -> Heap -> Value.
Variable reflectSet : Obj -> PropKey -> Value -> Heap -> Heap * bool.
(** [typeof value === "object" && value !== null] *)
Variable asObject : Value -> option Obj.

Record Tracked := mkTracked {
  heap : Heap;
  accessedProperties : jset;
}.

(** What the [get] trap returns: the value itself, or a new proxy over the
    object it refers to, with the same handler. *)
Inductive Got :=
| Plain (value : Value)
| Wrapped (target : Obj).

(** [handler.get(target, prop, receiver)] *)
Definition handlerGet (target : Obj) (prop : PropKey) (st : Tracked)
  : Tracked * Got :=
  match prop with
  | KSymbol _ => (st, Plain (reflectGet target prop (heap st)))
  | KString s =>
      let st1 := mkTracked (heap st) (jset_add s (accessedProperties st)) in
      let value := reflectGet target prop (heap st1) in
      match asObject value with
      | Some o => (st1, Wrapped o)
      | None => (st1, Plain value)
      end
  end.

(** [handler.set(target, prop, value, receiver)] *)
Definition handlerSet (target : Obj) (prop : PropKey) (value : Value)
    (st : Tracked) : Tracked * bool :=
  match prop with
  | KSymbol _ =>
      let '(h, ok) := reflectSet target prop value (heap st) in
      (mkTracked h (accessedProperties st), ok)
  | KString s =>
      let st1 := mkTracked (heap st) (jset_add s (accessedProperties st)) in
      let '(h, ok) := reflectSet target prop value (heap st1) in
      (mkTracked h (accessedProperties st1), ok)
  end.

(** [createProxy(target)]: the tracker starts with an empty set. *)
Definition createProxy (h : Heap) : Tracked := mkTracked h [].

(** [tracker.getAccessedProperties()]: a copy of the set. *)
Definition getAccessedProperties (st : Tracked) : jset := accessedProperties st.

(** [tracker.reset()] *)
Definition reset (st : Tracked) : Tracked := mkTracked (heap st) [].

(** A function that works on proxies: it reads and writes properties of
    proxied objects and goes on according to what it gets. *)
Inductive Prog (T : Type) : Type :=
| Ret (result : T)
| Get (target : Obj) (prop : PropKey) (k : Got -> Prog T)
| Put (target : Obj) (prop : PropKey) (value : Value) (k : bool -> Prog T).
Arguments Ret {T} _.
Arguments Get {T} _ _ _.
Arguments Put {T} _ _ _ _.

(** Running it: the state, the result, and the keys it asked for. *)
Fixpoint runProg {T} (p : Prog T) (st : Tracked) : Tracked * T * list PropKey :=
  match p with
  | Ret r => (st, r, [])
  | Get target prop k =>
      let '(st1, got) := handlerGet target prop st in
      let '(st2, r, keys) := runProg (k got) st1 in
      (st2, r, prop :: keys)
  | Put target prop value k =>
      let '(st1, ok) := handlerSet target prop value st in
      let '(st2, r, keys) := runProg (k ok) st1 in
      (st2, r, prop :: keys)
  end.

(** [trackDependencies(fn, tracker)] *)
Definition trackDependencies {T} (fn : Prog T) (st : Tracked)
  : Tracked * T * list PropKey :=
  runProg fn (reset st).
End Proxy.

Arguments Ret {Obj Value T} _.
Arguments Get {Obj Value T} _ _ _.
Arguments Put {Obj Value T} _ _ _ _.

(** A sample heap: property [user] of object 0 refers to object 1. *)
Definition sampleGet (o : nat) (k : PropKey) (h : unit) : option nat :=
  match o, k with
  | 0, KString "user" => Some 1
  | _, _ => None
  end.

Definition sampleSet (o : nat) (k : PropKey) (v : option nat) (h : unit)
  : unit * bool := (tt, true).

(** Read [proxy.user.name], then a symbol, then write [proxy.user]. *)
Definition sampleProg : Prog (Obj := nat) (Value := option nat) bool :=
  Get 0 (KString "user") (fun got =>
    match got with
    | Wrapped o =>
        Get o (KString "name") (fun _ =>
          Get 0 (KSymbol 7) (fun _ =>
            Put 0 (KString "user") None (fun ok => Ret ok)))
    | Plain _ => Ret false
    end).

End DependencyProxy.

(** ** The message channel ([hmr-protocol.ts])

    A handler is identified by its name; [behaviour] gives what it does to
    the page and whether it throws.  Handlers do not subscribe or unsubscribe
    while a message is dispatched. *)

Module Channel.

Inductive HMRMessage :=
| MUpdate (id : string) (timestamp : nat)
| MFullReload (path : option string)
| MError (error : string)
| MPrune (paths : list string).

Inductive ChannelEvent :=
| EvHandler (name : string)
| EvInvalid
| EvSend (payload : HMRMessage).

Section Channel.
Context {World Value : Type}.
Variable behaviour : string -> HMRMessage -> World -> World * option Value.

Record HMRChannel := mkChannel {
  handlers : jset;
  socketOpen : bool;
}.



(** [send(payload)] *)
Definition send (payload : HMRMessage) (ch : HMRChannel)
    (trace : list ChannelEvent) : list ChannelEvent :=
  if socketOpen ch then trace ++ [EvSend payload] else trace.





End Channel.

End Channel.

(** ** The transform pipeline ([transform-pipeline.ts])

    Babel's parser, the analysis of the tree and the rewriting of the text
    are collaborators; the source map of a result is left out.  The cache
    key, which the source renders as file, version and flag joined by
    colons, is the triple. *)

Module Pipeline.

Record TransformResult := mkResult {
  res_code : string;
  res_deps : list string;
  res_exports : list string;
}.

Section Pipeline.
Context {Ast : Type}.
(** each may throw the error on the right *)
Variable parseToAST : string -> string -> Ast + string.
(** exports and deps *)
Variable analyzeModule : Ast -> string -> list string * list string.
Variable applyTransformations : string -> string -> Ast -> bool -> string + string.

Record TransformPipeline := mkPipeline {
  cache : gmap (string * nat * bool) TransformResult;
  astCache : gmap string Ast;
  version : nat;
}.

Definition newPipeline : TransformPipeline := mkPipeline ∅ ∅ 0.

(** [transform(file, code, isHmrEnabled)] *)
Definition transform (file code : string) (isHmrEnabled : bool)
    (st : TransformPipeline) : TransformPipeline * (TransformResult + string) :=
  let cacheKey := (file, version st, isHmrEnabled) in
  match cache st !! cacheKey with
  | Some r => (st, inl r)
  | None =>
      let parsed :=
        match astCache st !! file with
        | Some ast => inl (st, ast)
        | None =>
            match parseToAST file code with
            | inl ast =>
                inl (mkPipeline (cache st) (<[file := ast]> (astCache st)) (version st),
                     ast)
            | inr e => inr e
            end
        end in
      match parsed with
      | inr e => (st, inr e)
      | inl (st1, ast) =>
          let '(exports, deps) := analyzeModule ast file in
          match applyTransformations file code ast isHmrEnabled with
          | inr e => (st1, inr e)
          | inl transformed =>
              let result := mkResult transformed deps exports in
              (mkPipeline (<[cacheKey := result]> (cache st1)) (astCache st1)
                          (version st1),
               inl result)
          end
      end
  end.

(** A call of [transform]. *)
Record TransformCall := mkTransformCall {
  tc_file : string;
  tc_code : string;
  tc_hmr : bool;
}.

Definition runTransforms (st : TransformPipeline) (calls : list TransformCall)
  : TransformPipeline :=
  foldl (fun st c => (transform (tc_file c) (tc_code c) (tc_hmr c) st).1) st calls.
End Pipeline.

(** Sample collaborators: the tree is the code, its only dependency. *)
Definition sampleParse (file code : string) : string + string := inl code.
Definition sampleAnalyze (ast file : string) : list string * list string :=
  ([], [ast]).
Definition sampleApply (file code ast : string) (hmr : bool) : string + string :=
  inl code.

End Pipeline.

(** ** [ModuleGraph]: the memoised cycle report *)

(** [circularDependencyCache.get(cacheKey)]: the key is the decimal rendering
    of [version], kept here as the number itself. *)
Fixpoint cacheGet (key : nat) (cache : list (nat * list (list string)))
  : option (list (list string)) :=
  match cache with
  | [] => None
  | (k, v) :: cache' => if decide (key = k) then Some v else cacheGet key cache'
  end.

(** [circularDependencyCache.set(cacheKey, cycles)] *)
Fixpoint cacheSet (key : nat) (cycles : list (list string))
    (cache : list (nat * list (list string))) : list (nat * list (list string)) :=
  match cache with
  | [] => [(key, cycles)]
  | (k, v) :: cache' =>
      if decide (key = k) then (key, cycles) :: cache'
      else (k, v) :: cacheSet key cycles cache'
  end.

(** [getCircularDependencies()]: the graph after the call and the cycles
    returned; [None] only if the component walk ran out of fuel. *)
Definition getCircularDependencies (g : ModuleGraph)
  : option (ModuleGraph * list (list string)) :=
  match cacheGet (version g) (circularDependencyCache g) with
  | Some cycles => Some (g, cycles)
  | None =>
      match detectStronglyConnectedComponents g with
      | Some cycles =>
          Some (mkGraph (modules g) (dependencyGraph g) (reverseDependencyGraph g)
                        (cacheSet (version g) cycles (circularDependencyCache g))
                        (version g),
                cycles)
      | None => None
      end
  end.

(** The calls a user of the graph can make that change it. *)
Inductive GraphOp :=
| OpUpdate (c : UpdateCall)
| OpCircular.

Definition applyOp (g : ModuleGraph) (op : GraphOp) : ModuleGraph :=
  match op with
  | OpUpdate c => applyCall g c
  | OpCircular =>
      match getCircularDependencies g with
      | Some (g', _) => g'
      | None => g
      end
  end.

Definition runOps (g : ModuleGraph) (ops : list GraphOp) : ModuleGraph :=
  foldl applyOp g ops.

(** Every cached report is the report of the current graph. *)
Definition cacheFresh (g : ModuleGraph) : Prop :=
  forall cycles, cacheGet (version g) (circularDependencyCache g) = Some cycles ->
                 detectStronglyConnectedComponents g = Some cycles.

Module PipelineSpec.
Import Pipeline.

Section Spec.
Context {Ast : Type}.
Variable analyzeModule : Ast -> string -> list string * list string.

(** Every cached result reports the exports and dependencies of the tree
    cached for its file. *)
Definition results_from_trees (st : TransformPipeline (Ast := Ast)) : Prop :=
  forall f v h r, cache st !! (f, v, h) = Some r ->
    exists ast, astCache st !! f = Some ast /\
                res_exports r = (analyzeModule ast f).1 /\
                res_deps r = (analyzeModule ast f).2.
End Spec.
End PipelineSpec.

(** ** The server over its lifetime *)

Module ServerRun.
Import Server.

(** What happens to a server: a socket event, or a file change that the
    watcher hands to [processUpdate], with the file system, the message of a
    failing read and the clock at that moment. *)
Inductive ServerOp :=
| OpSocket (ev : SocketEvent)
| OpChange (fs : string -> option string) (readError : string) (now : nat)
           (file : string).

Section Run.
Variable hash : string -> string.
Variable esbuildTransform : string -> string -> string + string.

Definition applyServerOp (st : HMRServer) (op : ServerOp) : HMRServer :=
  match op with
  | OpSocket ev => handle st ev
  | OpChange fs readError now file =>
      match processUpdate hash esbuildTransform fs readError now file st with
      | Some st' => st'
      | None => st
      end
  end.

Definition runServer (st : HMRServer) (ops : list ServerOp) : HMRServer :=
  foldl applyServerOp st ops.
End Run.

(** The clients recorded for a file: [clientModules.get(file) || new Set()]. *)
Definition clientsOf (st : HMRServer) (file : string) : list nat :=
  default [] (clientModules st !! file).

(** The two indexes agree: a socket recorded for a file has the file in the
    set of its connection handler; and no set lists a socket twice. *)
Record indexed (st : HMRServer) : Prop := mkIndexed {
  ix_mine : forall f ws, ws ∈ clientsOf st f ->
              exists mine, connectionModules st !! ws = Some mine /\ f ∈ mine;
  ix_nodup : forall f, NoDup (clientsOf st f);
  ix_graph : moduleGraph st = emptyGraph;
}.

(** What a message sent while [file] is processed at time [now] may be. *)
Definition allowedSend (st : HMRServer) (file : string) (now : nat)
    (s : nat * ServerMessage) : Prop :=
  readyState st s.1 = OPEN /\
  match s.2 with
  | MsgUpdate f t => t = now /\ s.1 ∈ clientsOf st f
  | MsgError f _ t => t = now /\ f = file /\ s.1 ∈ wssClients st
  end.

End ServerRun.

(** ** Vocabulary of the statements about [ModuleGraph] *)

(** The node-level edge sets are created empty and never written. *)
Definition nodes_bare (g : ModuleGraph) : Prop :=
  forall i n, getModule g i = Some n -> imports n = [] /\ importers n = [].

(** Every import recorded in [dependencyGraph] has its reverse edge. *)
Definition forward_in_reverse (g : ModuleGraph) : Prop :=
  forall a b, b ∈ importsOf g a -> a ∈ getDependents g b.

(** Every key of [dependencyGraph] is a key of [modules]. *)
Definition forward_keys_known (g : ModuleGraph) : Prop :=
  forall a, a ∈ jmap_keys (dependencyGraph g) -> a ∈ jmap_keys (modules g).

Record graph_inv (g : ModuleGraph) : Prop := mkGraphInv {
  inv_bare : nodes_bare g;
  inv_reverse : forward_in_reverse g;
  inv_keys : forward_keys_known g;
  inv_nodup : NoDup (jmap_keys (dependencyGraph g));
}.


Definition pruneBefore : ModuleGraph :=
  runCalls emptyGraph [mkCall "b" "" true; mkCall "a" "import 'b'" true].

Definition pruneAfter : ModuleGraph := updateModule pruneBefore "a" "" true.

(** A module reaches another through reverse edges. *)
Definition reachesDependent (g : ModuleGraph) : string -> string -> Prop :=
  reach (edge (getDependents g)) ∅.

(** No module that [x] reaches through reverse edges lies on a cycle of
    reverse edges. *)
Definition noDependentCycle (g : ModuleGraph) (x : string) : Prop :=
  forall m d, reachesDependent g x m -> d ∈ getDependents g m ->
              ~ reachesDependent g d m.

(** *** Relating [chainVisit] to the generic walk *)

Definition chain_rel (st : ChainState) (d : DfsState) : Prop :=
  ch_visited st = dfs_visited d /\ ch_result st = dfs_post d.

(** [chainVisit] and [dfs] run in lock step: they fail together, and their
    results agree on the visited set and on the postorder list. *)
Definition chain_agree (st0 : ChainState) (r : option ChainState)
    (r' : option DfsState) : Prop :=
  match r, r' with
  | Some st', Some d' =>
      chain_rel st' d' /\ ch_recursionStack st' = ch_recursionStack st0 /\
      ch_recursionStack st' ⊆ ch_visited st'
  | None, None => True
  | _, _ => False
  end.

Definition chainUniverse (g : ModuleGraph) (x : string) : gset string :=
  {[x]} ∪ list_to_set (edgeNodes (reverseDependencyGraph g)).

(** The code [import x from] followed by the specifier [b] in double quotes. *)
Definition doubleQuoted : string :=
  "import x from " ++ String "034" ("b" ++ String "034" "").

(** [a] imported [b] and imports nothing any more. *)
Definition staleGraph : ModuleGraph :=
  runCalls emptyGraph [mkCall "a" "import 'b'" true; mkCall "a" "" true].


Definition lineGraph : ModuleGraph :=
  runCalls emptyGraph
    [mkCall "a" "" true; mkCall "b" "import 'a'" true; mkCall "c" "import 'b'" true].

(** *** Strongly connected components *)

(** A module reaches another through imports. *)
Definition reachesImport (g : ModuleGraph) : string -> string -> Prop :=
  reach (edge (importsOf g)) ∅.

Definition sameComponent (g : ModuleGraph) (x y : string) : Prop :=
  reachesImport g x y /\ reachesImport g y x.

Definition sccUniverse (g : ModuleGraph) : gset string :=
  list_to_set (jmap_keys (modules g) ++ edgeNodes (dependencyGraph g)).

Definition visitView (d : DfsState) : gset string * list string :=
  (dfs_visited d, dfs_post d).

Definition assignView (d : DfsState) : gset string * list string :=
  (dfs_visited d, dfs_pre d).

(** What the second pass has established when the nodes [rs] of the first
    pass's [order] remain to be popped. *)
Record collected (g : ModuleGraph) (order rs : list string)
    (visited : gset string) (components : list (list string)) : Prop := mkCollected {
  col_suffix : exists done_, order = reverse rs ++ done_;
  col_done : forall x, x ∈ order -> x ∉ rs -> x ∈ visited;
  col_closed : forall x y, x ∈ visited -> sameComponent g x y -> y ∈ visited;
  col_sound : forall c, c ∈ components ->
      NoDup c /\ 2 <= length c /\ (forall y, y ∈ c -> y ∈ visited) /\
      exists r, r ∈ c /\ forall y, y ∈ c <-> sameComponent g r y;
  col_complete : forall x y, x ∈ visited -> x ≠ y -> sameComponent g x y ->
      exists c, c ∈ components /\ x ∈ c;
  col_disjoint : forall i j c1 c2 x, components !! i = Some c1 ->
      components !! j = Some c2 -> i ≠ j -> x ∈ c1 -> x ∉ c2;
}.

Definition selfImport : ModuleGraph :=
  runCalls emptyGraph [mkCall "a" "import 'a'" true].

Definition twoCycles : ModuleGraph :=
  runCalls emptyGraph
    [mkCall "a" "import 'b'; import 'a'" true; mkCall "b" "import 'a'; import 'c'" true;
     mkCall "c" "import 'd'" true; mkCall "d" "import 'c'; import 'e'" true;
     mkCall "e" "import 'e'" true].

(** *** The cycles that [getUpdateChain] reports *)

(** Consecutive elements of the list are joined by edges. *)
Fixpoint is_walk (succ : string -> list string) (l : list string) : Prop :=
  match l with
  | a :: l' =>
      match l' with
      | b :: _ => b ∈ succ a /\ is_walk succ l'
      | [] => True
      end
  | [] => True
  end.

(** An entry of [cycles]: a walk along reverse edges that starts at the
    changed file and ends in a module it has already passed. *)
Definition reported_cycle (g : ModuleGraph) (x : string) (c : list string) : Prop :=
  head c = Some x /\ is_walk (getDependents g) c /\
  exists p j, c = p ++ [j] /\ j ∈ p.

(** Every dependent of a listed module is listed before it. *)
Definition dependents_first (g : ModuleGraph) (l : list string) : Prop :=
  forall k u v, l !! k = Some u -> v ∈ getDependents g u ->
                exists k', k' < k /\ l !! k' = Some v.

(** What holds when [visit(i, path)] is called in state [st]. *)
Record chain_pre (g : ModuleGraph) (x : string) (path : list string)
    (i : string) (st : ChainState) : Prop := mkChainPre {
  cp_stack : ch_recursionStack st = list_to_set path;
  cp_head : head (path ++ [i]) = Some x;
  cp_walk : is_walk (getDependents g) (path ++ [i]);
  cp_visited : ch_visited st = ch_recursionStack st ∪ list_to_set (ch_result st);
}.

(** What holds when calls of [visit] for the modules [ds] have turned [st]
    into [st']. *)
Record chain_post (g : ModuleGraph) (x : string) (ds : list string)
    (st st' : ChainState) : Prop := mkChainPost {
  cq_stack : ch_recursionStack st' = ch_recursionStack st;
  cq_visited : ch_visited st' = ch_recursionStack st' ∪ list_to_set (ch_result st');
  cq_result : exists new, ch_result st' = ch_result st ++ new;
  cq_cycles : exists extra, ch_cycles st' = ch_cycles st ++ extra /\
                            Forall (reported_cycle g x) extra;
  cq_quiet : ch_cycles st' = ch_cycles st -> dependents_first g (ch_result st) ->
             dependents_first g (ch_result st') /\
             forall d, d ∈ ds -> d ∈ ch_result st';
}.
(** ** Container lemmas *)

Section JsContainerFacts.
Context {V : Type}.
Implicit Types (m : jmap V) (k : string) (v : V).

Lemma jmap_get_set_eq k v m : jmap_get k (jmap_set k v m) = Some v.
Proof.
  induction m as [|[k' v'] m IH]; simpl.
  - by rewrite decide_True.
  - destruct (decide (k = k')) as [->|Hne]; simpl.
    + by rewrite decide_True.
    + by rewrite decide_False.
Qed.

Lemma jmap_get_set_ne k k' v m :
  k ≠ k' -> jmap_get k' (jmap_set k v m) = jmap_get k' m.
Proof.
  intros Hne. induction m as [|[k0 v0] m IH]; simpl.
  - by rewrite decide_False.
  - destruct (decide (k = k0)) as [->|Hne0]; simpl.
    + by rewrite !decide_False.
    + destruct (decide (k' = k0)); [done|apply IH].
Qed.

Lemma jmap_get_set k k' v m :
  jmap_get k' (jmap_set k v m) = if decide (k = k') then Some v else jmap_get k' m.
Proof.
  destruct (decide (k = k')) as [->|Hne].
  - apply jmap_get_set_eq.
  - by apply jmap_get_set_ne.
Qed.

Lemma jmap_get_delete_ne k k' m :
  k ≠ k' -> jmap_get k' (jmap_delete k m) = jmap_get k' m.
Proof.
  intros Hne. induction m as [|[k0 v0] m IH]; simpl; [done|].
  destruct (decide (k = k0)) as [->|Hne0]; simpl.
  - by rewrite decide_False.
  - destruct (decide (k' = k0)); [done|apply IH].
Qed.

Lemma jmap_get_Some_keys k v m : jmap_get k m = Some v -> k ∈ jmap_keys m.
Proof.
  induction m as [|[k0 v0] m IH]; simpl; [done|].
  destruct (decide (k = k0)) as [->|Hne]; [by left|].
  intros ?. right. by apply IH.
Qed.

Lemma jmap_keys_get k m : k ∈ jmap_keys m -> exists v, jmap_get k m = Some v.
Proof.
  induction m as [|[k0 v0] m IH]; simpl; [by intros ?%elem_of_nil|].
  intros Hk. destruct (decide (k = k0)) as [->|Hne]; [eauto|].
  apply elem_of_cons in Hk as [?|?]; [done|by apply IH].
Qed.

Lemma jmap_get_Some_in k v m : jmap_get k m = Some v -> (k, v) ∈ m.
Proof.
  induction m as [|[k0 v0] m IH]; simpl; [done|].
  destruct (decide (k = k0)) as [->|Hne].
  - intros [= ->]. by left.
  - intros ?. right. by apply IH.
Qed.

Lemma jmap_keys_set k v m :
  forall k', k' ∈ jmap_keys (jmap_set k v m) <-> k' = k \/ k' ∈ jmap_keys m.
Proof.
  intros k'. induction m as [|[k0 v0] m IH]; simpl.
  - rewrite list_elem_of_singleton. set_solver.
  - destruct (decide (k = k0)) as [->|Hne]; simpl.
    + set_solver.
    + rewrite !elem_of_cons, IH. tauto.
Qed.
End JsContainerFacts.

Lemma jset_add_elem x y s : y ∈ jset_add x s <-> y = x \/ y ∈ s.
Proof.
  unfold jset_add. destruct (decide (x ∈ s)).
  - split; [auto|]. by intros [->|?].
  - rewrite elem_of_app, list_elem_of_singleton. tauto.
Qed.

Lemma jset_of_array_elem_acc l : forall s y,
  y ∈ foldl (fun s x => jset_add x s) s l <-> y ∈ s \/ y ∈ l.
Proof.
  induction l as [|x l IH]; intros s y; simpl.
  - split; [auto|]. by intros [?| ?%elem_of_nil].
  - rewrite IH, jset_add_elem, elem_of_cons. tauto.
Qed.

Lemma jset_of_array_elem l y : y ∈ jset_of_array l <-> y ∈ l.
Proof.
  unfold jset_of_array. rewrite jset_of_array_elem_acc.
  split; [by intros [?%elem_of_nil|?]|auto].
Qed.

Lemma jset_delete_elem x y s : y ∈ jset_delete x s <-> y ∈ s /\ y ≠ x.
Proof. unfold jset_delete. rewrite list_elem_of_filter. tauto. Qed.

(** ** Facts about reachability *)

Section Reach.
Variable E : string -> string -> Prop.
Local Abbreviation reach := (reach E).

Lemma reach_start S x y : reach S x y -> x ∉ S.
Proof. by destruct 1. Qed.

Lemma reach_end S x y : reach S x y -> y ∉ S.
Proof. induction 1; auto. Qed.

Lemma reach_trans S x y z : reach S x y -> reach S y z -> reach S x z.
Proof. induction 1; intros; eauto using reach_step. Qed.

Lemma reach_snoc S x y z : reach S x y -> E y z -> z ∉ S -> reach S x z.
Proof.
  intros Hxy Hyz Hz. eapply reach_trans; [exact Hxy|].
  eapply reach_step; eauto using reach_end, reach_refl.
Qed.

Lemma reach_mono S S' x y : S ⊆ S' -> reach S' x y -> reach S x y.
Proof.
  intros Hsub. induction 1.
  - apply reach_refl. set_solver.
  - eapply reach_step; eauto; set_solver.
Qed.

(** A path either avoids [A] as well, or passes through a node of [A]. *)
Lemma reach_split S A x w :
  reach S x w ->
  reach (S ∪ A) x w \/ exists u, u ∈ A /\ reach S x u /\ reach S u w.
Proof.
  induction 1 as [x Hx | x y z Hx Hxy Hyz IH].
  - destruct (decide (x ∈ A)) as [HA|HA].
    + right. exists x. eauto using reach_refl.
    + left. apply reach_refl. set_solver.
  - destruct (decide (x ∈ A)) as [HA|HA].
    + right. exists x. split; [done|]. split; [by apply reach_refl|].
      eapply reach_step; eauto.
    + destruct IH as [IH | (u & Hu & Hyu & Huz)].
      * left. eapply reach_step; eauto. set_solver.
      * right. exists u. split; [done|]. split; [|done].
        eapply reach_step; eauto.
Qed.

(** A path from [v] ends at [v] or leaves [v] for good through an edge. *)
Lemma reach_leave S v x w :
  reach S x w ->
  reach (S ∪ {[v]}) x w \/ w = v \/ exists d, E v d /\ reach (S ∪ {[v]}) d w.
Proof.
  induction 1 as [x Hx | x y z Hx Hxy Hyz IH].
  - destruct (decide (x = v)) as [->|Hne]; [by right; left|].
    left. apply reach_refl. set_solver.
  - destruct IH as [IH | [IH | (d & Hd & IH)]].
    + destruct (decide (x = v)) as [->|Hne].
      * right; right. eauto.
      * left. eapply reach_step; eauto. set_solver.
    + by right; left.
    + right; right. eauto.
Qed.
End Reach.

Lemma reach_impl (E E' : string -> string -> Prop) S x y :
  (forall a b, E a b -> E' a b) -> reach E S x y -> reach E' S x y.
Proof.
  intros HE. induction 1; [by apply reach_refl|].
  eapply reach_step; eauto.
Qed.

Lemma reach_flip (E : string -> string -> Prop) S x y :
  reach (fun a b => E b a) S x y -> reach E S y x.
Proof.
  induction 1 as [x Hx | x y z Hx Hxy Hyz IH]; [by apply reach_refl|].
  eapply reach_snoc; eauto.
Qed.

(** ** Facts about the generic walk *)

Section DepthFirst.
Variable succ : string -> list string.
Local Abbreviation dfs := (dfs succ).
Local Abbreviation edge := (edge succ).
Local Abbreviation walked := (walked succ).
Local Abbreviation finishes_late := (finishes_late succ).

Lemma finishes_late_nil S : finishes_late S [].
Proof. intros x y i Hx. by apply elem_of_nil in Hx. Qed.

Lemma walked_nil st : walked [] st st [] [].
Proof.
  split.
  - set_solver.
  - by rewrite app_nil_r.
  - by rewrite app_nil_r.
  - done.
  - constructor.
  - intros w. split; [by intros ?%elem_of_nil|].
    by intros (d & ?%elem_of_nil & _).
  - apply finishes_late_nil.
  - done.
Qed.

Lemma walked_visited v st : v ∈ dfs_visited st -> walked [v] st st [] [].
Proof.
  intros Hv. split.
  - set_solver.
  - by rewrite app_nil_r.
  - by rewrite app_nil_r.
  - done.
  - constructor.
  - intros w. split; [by intros ?%elem_of_nil|].
    intros (d & Hd & Hr). apply list_elem_of_singleton in Hd as ->.
    by apply reach_start in Hr.
  - apply finishes_late_nil.
  - intros v' [= <-] Hn. done.
Qed.

Lemma walked_cons d ds st st1 st2 a1 b1 a2 b2 :
  walked [d] st st1 a1 b1 -> walked ds st1 st2 a2 b2 ->
  walked (d :: ds) st st2 (a1 ++ a2) (b1 ++ b2).
Proof.
  intros W1 W2.
  assert (Hin1 : forall w, w ∈ b1 <-> reach edge (dfs_visited st) d w).
  { intros w. rewrite (w_reach W1). split.
    - by intros (d' & ->%list_elem_of_singleton & ?).
    - intros ?. exists d. split; [apply list_elem_of_singleton|]; done. }
  assert (Hvis1 : dfs_visited st1 = dfs_visited st ∪ list_to_set b1).
  { rewrite (w_visited W1). set_solver. }
  assert (Hdisj : forall w, w ∈ b2 -> w ∉ b1).
  { intros w Hw Hw1. apply (w_reach W2) in Hw as (d' & _ & Hr).
    apply reach_end in Hr. rewrite Hvis1 in Hr. set_solver. }
  split.
  - rewrite (w_visited W2), (w_visited W1).
    rewrite list_to_set_app_L. set_solver.
  - rewrite (w_pre_eq W2), (w_pre_eq W1).
    by rewrite app_assoc.
  - rewrite (w_post_eq W2), (w_post_eq W1).
    by rewrite app_assoc.
  - rewrite (w_perm W1), (w_perm W2). done.
  - apply NoDup_app. split; [apply (w_nodup W1)|].
    split; [|apply (w_nodup W2)].
    intros w Hw1 Hw2. by apply (Hdisj w).
  - intros w. rewrite elem_of_app. split.
    + intros [Hw | Hw].
      * exists d. split; [left|by apply Hin1].
      * apply (w_reach W2) in Hw as (d' & Hd' & Hr).
        exists d'. split; [by right|].
        eapply reach_mono; [|exact Hr]. rewrite Hvis1. set_solver.
    + intros (d' & Hd' & Hr). apply elem_of_cons in Hd' as [-> | Hd'].
      * left. by apply Hin1.
      * destruct (reach_split edge _ (list_to_set b1) _ _ Hr)
          as [Hr' | (u & Hu & Hdu & Huw)].
        -- right. apply (w_reach W2). exists d'. split; [done|].
           by rewrite Hvis1.
        -- left. apply Hin1. apply elem_of_list_to_set in Hu.
           apply Hin1 in Hu. eapply reach_trans; eauto.
  - intros x y i Hx Hi Hr. apply elem_of_app in Hx as [Hx | Hx].
    + assert (Hy : y ∈ b1).
      { apply Hin1. apply Hin1 in Hx. eapply reach_trans; eauto. }
      apply list_elem_of_lookup in Hy as [i' Hi'].
      assert (i = i') as <-.
      { assert (Hii : (b1 ++ b2) !! i' = Some y) by by apply lookup_app_l_Some.
        eapply NoDup_lookup; [|exact Hi|exact Hii].
        apply NoDup_app. split; [apply (w_nodup W1)|].
        split; [|apply (w_nodup W2)].
        intros w Hw1 Hw2. by apply (Hdisj w). }
      destruct (w_late W1 x y i Hx Hi' Hr) as (x' & j & Hj & Hle & H1 & H2).
      exists x', j. split; [by apply lookup_app_l_Some|]. done.
    + apply lookup_app_Some in Hi as [Hi | [Hlen Hi]].
      * (* y in the first walk: x itself is recorded later *)
        apply list_elem_of_lookup in Hx as [j Hj].
        exists x, (length b1 + j). split.
        { rewrite lookup_app_r by lia. by replace (length b1 + j - length b1) with j by lia. }
        split; [apply lookup_lt_Some in Hi; lia|].
        assert (x ∉ dfs_visited st).
        { by apply reach_start in Hr. }
        split; by apply reach_refl.
      * destruct (reach_split edge _ (list_to_set b1) _ _ Hr)
          as [Hr' | (u & Hu & Hdu & Huw)].
        -- rewrite <- Hvis1 in Hr'.
           destruct (w_late W2 x y _ Hx Hi Hr')
             as (x' & j & Hj & Hle & H1 & H2).
           exists x', (length b1 + j). split.
           { rewrite lookup_app_r by lia.
             by replace (length b1 + j - length b1) with j by lia. }
           split; [lia|].
           split; (eapply reach_mono; [|eassumption]); rewrite Hvis1; set_solver.
        -- exfalso. apply elem_of_list_to_set in Hu. apply Hin1 in Hu.
           assert (Hy : y ∈ b1) by (apply Hin1; eapply reach_trans; eauto).
           apply (Hdisj y); [|done]. eapply list_elem_of_lookup_2; eauto.
  - intros v [= -> ->] Hn.
    assert (a2 = [] /\ b2 = []) as [-> ->].
    { assert (b2 = []).
      { destruct b2 as [|w b2]; [done|].
        assert (Hw : w ∈ w :: b2) by left.
        apply (w_reach W2) in Hw as (d' & ?%elem_of_nil & _). done. }
      split; [|done]. subst b2. apply Permutation_nil_r. apply (w_perm W2). }
    rewrite !app_nil_r. by apply (w_ends W1).
Qed.

Lemma walked_node v st st2 a b :
  v ∉ dfs_visited st ->
  walked (succ v)
         (mkDfs ({[v]} ∪ dfs_visited st) (dfs_pre st ++ [v]) (dfs_post st))
         st2 a b ->
  walked [v] st
         (mkDfs (dfs_visited st2) (dfs_pre st2) (dfs_post st2 ++ [v]))
         (v :: a) (b ++ [v]).
Proof.
  intros Hv W. pose proof (w_reach W) as Hin. simpl in Hin.
  assert (Hmono : forall x y,
    reach edge ({[v]} ∪ dfs_visited st) x y -> reach edge (dfs_visited st) x y).
  { intros x y. apply reach_mono. set_solver. }
  assert (Hvb : v ∉ b).
  { intros (d & _ & Hr)%Hin. apply reach_end in Hr. set_solver. }
  assert (Hfrom : forall w, w ∈ b -> reach edge (dfs_visited st) v w).
  { intros w (d & Hd & Hr)%Hin. eapply reach_step; eauto. }
  split; simpl.
  - rewrite (w_visited W). simpl. rewrite list_to_set_app_L. set_solver.
  - rewrite (w_pre_eq W). simpl. by rewrite <- app_assoc.
  - rewrite (w_post_eq W). simpl. by rewrite <- app_assoc.
  - rewrite (w_perm W). apply Permutation_cons_append.
  - apply NoDup_app. split; [apply (w_nodup W)|].
    split; [|apply NoDup_singleton].
    intros w Hw ->%list_elem_of_singleton. done.
  - intros w. rewrite elem_of_app, list_elem_of_singleton. split.
    + intros [Hw | ->].
      * exists v. split; [apply list_elem_of_singleton; done|]. by apply Hfrom.
      * exists v. split; [apply list_elem_of_singleton; done|]. by apply reach_refl.
    + intros (d & ->%list_elem_of_singleton & Hr).
      destruct (reach_leave edge _ v _ _ Hr) as [Hr' | [-> | (d & Hd & Hr')]].
      * apply reach_start in Hr'. set_solver.
      * by right.
      * left. apply Hin. exists d. split; [done|].
        eapply reach_mono; [|exact Hr']. set_solver.
  - intros x y i Hx Hi Hr.
    destruct (reach_split edge _ {[v]} _ _ Hr) as [Hr' | (u & Hu & Hxu & Huy)].
    + (* the path avoids v: both ends were recorded by the inner walk *)
      assert (Hxb : x ∈ b).
      { apply elem_of_app in Hx as [?| ->%list_elem_of_singleton]; [done|].
        apply reach_start in Hr'. set_solver. }
      assert (Hyb : b !! i = Some y).
      { apply lookup_app_Some in Hi as [? | [Hlen Hi]]; [done|].
        apply list_lookup_singleton_Some in Hi as [_ <-].
        apply reach_end in Hr'. set_solver. }
      assert (Hr2 : reach edge ({[v]} ∪ dfs_visited st) x y).
      { eapply reach_mono; [|exact Hr']. set_solver. }
      destruct (w_late W x y i Hxb Hyb Hr2) as (x' & j & Hj & Hle & H1 & H2).
      exists x', j. split; [by apply lookup_app_l_Some|]. auto.
    + (* the path passes through v, which is recorded last *)
      apply elem_of_singleton in Hu as ->.
      exists v, (length b). split.
      { rewrite lookup_app_r by lia. by rewrite Nat.sub_diag. }
      split.
      { apply lookup_lt_Some in Hi. rewrite length_app in Hi. simpl in Hi. lia. }
      split; [done|].
      apply elem_of_app in Hx as [Hx | ->%list_elem_of_singleton].
      * by apply Hfrom.
      * by apply reach_refl.
  - intros v' [= <-] _. eauto.
Qed.

(** *** Enough fuel

    [U] is a finite set of nodes closed under [succ]; a walk inside [U]
    needs one unit of fuel per node of [U] not yet visited. *)
Section Fuel.
Variable U : gset string.
Hypothesis U_closed : forall u d, u ∈ U -> d ∈ succ u -> d ∈ U.

Lemma forEach_walks fuel :
  (forall v st, v ∈ U -> size (U ∖ dfs_visited st) < fuel ->
     exists st' a b, dfs fuel v st = Some st' /\ walked [v] st st' a b) ->
  forall ds st, (forall d, d ∈ ds -> d ∈ U) ->
     size (U ∖ dfs_visited st) < fuel ->
     exists st' a b, forEachM (dfs fuel) ds st = Some st' /\ walked ds st st' a b.
Proof.
  intros Hnode. induction ds as [|d ds IH]; intros st Hds Hsize.
  - exists st, [], []. split; [done|apply walked_nil].
  - destruct (Hnode d st) as (st1 & a1 & b1 & Hrun1 & W1);
      [apply Hds; left|done|].
    destruct (IH st1) as (st2 & a2 & b2 & Hrun2 & W2).
    { intros ? ?. apply Hds. by right. }
    { eapply Nat.le_lt_trans; [|exact Hsize]. apply subseteq_size.
      rewrite (w_visited W1). set_solver. }
    exists st2, (a1 ++ a2), (b1 ++ b2). split.
    + simpl. by rewrite Hrun1.
    + eapply walked_cons; eauto.
Qed.

Lemma dfs_walks fuel :
  forall v st, v ∈ U -> size (U ∖ dfs_visited st) < fuel ->
    exists st' a b, dfs fuel v st = Some st' /\ walked [v] st st' a b.
Proof.
  induction fuel as [|fuel IH]; intros v st Hv Hsize; [lia|].
  simpl. destruct (decide (v ∈ dfs_visited st)) as [Hvis|Hvis].
  - exists st, [], []. split; [done|by apply walked_visited].
  - destruct (forEach_walks fuel IH (succ v)
                (mkDfs ({[v]} ∪ dfs_visited st) (dfs_pre st ++ [v]) (dfs_post st)))
      as (st2 & a & b & Hrun & W).
    { intros d Hd. eapply U_closed; eauto. }
    { simpl.
      assert (size (U ∖ ({[v]} ∪ dfs_visited st)) < size (U ∖ dfs_visited st)); [|lia].
      apply subset_size. set_solver. }
    rewrite Hrun. eexists _, _, _. split; [done|].
    by apply walked_node.
Qed.
End Fuel.

End DepthFirst.


(** ** [parseImports] on the forms of import it is written for *)

Example parseImports_forms :
  parseImports "a"
    "import x from './b'; import {y, z} from 'c'; import*as q from 'ok'; import 'd'; importx from 'f'; import x from'g'; import x 'h'"
  = ["./b"; "c"; "d"].
Proof. reflexivity. Qed.

Example parseImports_double_quotes : parseImports "a" doubleQuoted = ["b"].
Proof. reflexivity. Qed.

Example parseImports_needs_closing_quote :
  parseImports "a" "import 'b; import x from   'c'" = ["b; import x from   "].
Proof. reflexivity. Qed.

(** ** [ModuleGraph]: what [updateModule] maintains *)


Lemma updateDependencies_modules g i new old :
  modules (updateDependencies g i new old) = modules g.
Proof. done. Qed.

Lemma updateModule_getModule_ne g i code hmr x :
  x ≠ i -> getModule (updateModule g i code hmr) x = getModule g x.
Proof.
  intros Hne. unfold updateModule, getModule. simpl.
  by rewrite jmap_get_set_ne.
Qed.

Lemma updateModule_getModule_eq g i code hmr :
  exists n, getModule (updateModule g i code hmr) i = Some n /\
    imports n = match getModule g i with Some n0 => imports n0 | None => [] end /\
    importers n = match getModule g i with Some n0 => importers n0 | None => [] end.
Proof.
  unfold updateModule, getModule at 1. simpl. rewrite jmap_get_set_eq.
  eexists. split; [done|].
  destruct (getModule g i) as [n0|]; simpl;
    destruct hmr; simpl; try destruct (proxy _); simpl; done.
Qed.

Lemma updateModule_bare g i code hmr :
  nodes_bare g -> nodes_bare (updateModule g i code hmr).
Proof.
  intros Hb x n Hx. destruct (decide (x = i)) as [->|Hne].
  - destruct (updateModule_getModule_eq g i code hmr) as (n' & Hn' & Hi & Hr).
    rewrite Hx in Hn'. injection Hn' as <-. rewrite Hi, Hr.
    destruct (getModule g i) as [n0|] eqn:H0; [|done].
    by apply (Hb i).
  - rewrite updateModule_getModule_ne in Hx by done. by apply (Hb x).
Qed.

Lemma emptyGraph_bare : nodes_bare emptyGraph.
Proof. intros i n H. discriminate H. Qed.

Lemma runCalls_snoc g cs c : runCalls g (cs ++ [c]) = applyCall (runCalls g cs) c.
Proof. unfold runCalls. by rewrite foldl_app. Qed.

(** Induction over the graphs that calls of [updateModule] produce from the
    empty graph. *)
Lemma reachable_ind (P : ModuleGraph -> Prop) :
  P emptyGraph ->
  (forall g i code hmr, P g -> P (updateModule g i code hmr)) ->
  forall cs, P (runCalls emptyGraph cs).
Proof.
  intros H0 Hstep cs. induction cs as [|c cs IH] using rev_ind; [done|].
  rewrite runCalls_snoc. destruct c as [i code hmr]. by apply Hstep.
Qed.

Lemma runCalls_bare cs : nodes_bare (runCalls emptyGraph cs).
Proof.
  apply reachable_ind; [apply emptyGraph_bare|].
  intros. by apply updateModule_bare.
Qed.




(** *** Edges *)

Lemma edgesOf_set m k s k' :
  edgesOf (jmap_set k s m) k' = if decide (k = k') then s else edgesOf m k'.
Proof. unfold edgesOf. rewrite jmap_get_set. by destruct (decide (k = k')). Qed.

Lemma edgesOf_addDependent i r dep k x :
  x ∈ edgesOf (addDependent i r dep) k <-> x ∈ edgesOf r k \/ (k = dep /\ x = i).
Proof.
  unfold addDependent, jmap_has.
  destruct (jmap_get dep r) as [s|] eqn:Hget.
  - rewrite Hget, edgesOf_set. destruct (decide (dep = k)) as [<-|Hne].
    + rewrite jset_add_elem. unfold edgesOf. rewrite Hget. naive_solver.
    + naive_solver.
  - rewrite jmap_get_set_eq, edgesOf_set. destruct (decide (dep = k)) as [<-|Hne].
    + rewrite jset_add_elem. unfold edgesOf. rewrite Hget.
      split; [intros [->|?%elem_of_nil]; [auto|done]|]. naive_solver.
    + rewrite edgesOf_set, decide_False by done. naive_solver.
Qed.

Lemma edgesOf_addDependents i deps : forall r k x,
  x ∈ edgesOf (foldl (addDependent i) r deps) k <->
  x ∈ edgesOf r k \/ (k ∈ deps /\ x = i).
Proof.
  induction deps as [|d deps IH]; intros r k x; simpl.
  - split; [auto|]. by intros [?|[?%elem_of_nil _]].
  - rewrite IH, edgesOf_addDependent, elem_of_cons. naive_solver.
Qed.

Lemma addDependent_keys_nodup i r dep :
  NoDup (jmap_keys r) -> NoDup (jmap_keys (addDependent i r dep)).
Proof.
  assert (Hset : forall (m : jmap jset) k v,
            NoDup (jmap_keys m) -> NoDup (jmap_keys (jmap_set k v m))).
  { intros m k v. induction m as [|[k0 v0] m IH]; simpl.
    - intros _. apply NoDup_singleton.
    - rewrite NoDup_cons. intros [Hk0 Hm].
      destruct (decide (k = k0)) as [->|Hne]; simpl.
      + by apply NoDup_cons.
      + apply NoDup_cons. split; [|by apply IH].
        rewrite (jmap_keys_set k v m k0). naive_solver. }
  intros Hr. unfold addDependent, jmap_has.
  destruct (jmap_get dep r) as [s|] eqn:Hget.
  - rewrite Hget. by apply Hset.
  - rewrite jmap_get_set_eq. by do 2 apply Hset.
Qed.

Lemma jmap_set_keys_nodup {V} (m : jmap V) k v :
  NoDup (jmap_keys m) -> NoDup (jmap_keys (jmap_set k v m)).
Proof.
  induction m as [|[k0 v0] m IH]; simpl.
  - intros _. apply NoDup_singleton.
  - rewrite NoDup_cons. intros [Hk0 Hm].
    destruct (decide (k = k0)) as [->|Hne]; simpl.
    + by apply NoDup_cons.
    + apply NoDup_cons. split; [|by apply IH].
      rewrite (jmap_keys_set k v m k0). naive_solver.
Qed.

(** In a graph whose nodes are bare, [updateModule] finds nothing removed:
    it replaces the forward edges of [i] and only adds reverse edges. *)
Lemma updateModule_edges g i code hmr :
  nodes_bare g ->
  let g' := updateModule g i code hmr in
  let new := jset_of_array (parseImports i code) in
  dependencyGraph g' = jmap_set i new (dependencyGraph g) /\
  reverseDependencyGraph g' =
    foldl (addDependent i) (reverseDependencyGraph g) new /\
  jmap_keys (modules g') = jmap_keys (jmap_set i (freshNode i) (modules g)).
Proof.
  intros Hb g' new. subst g' new.
  assert (Hold :
    updateDependencies g i (parseImports i code) [] =
    mkGraph (modules g) (jmap_set i (jset_of_array (parseImports i code)) (dependencyGraph g))
      (foldl (addDependent i) (reverseDependencyGraph g) (jset_of_array (parseImports i code)))
      (circularDependencyCache g) (version g)).
  { unfold updateDependencies. simpl. f_equal. f_equal. f_equal.
    induction (parseImports i code) as [|x l IH]; [done|].
    rewrite filter_cons_True by by intros ?%elem_of_nil. by rewrite IH. }
  assert (Hkeys : forall (n1 n2 : ModuleNode) (m : jmap ModuleNode),
    jmap_keys (jmap_set i n1 m) = jmap_keys (jmap_set i n2 m)).
  { intros n1 n2 m. induction m as [|[k0 v0] m IH]; simpl; [done|].
    destruct (decide (i = k0)); simpl; [done|by rewrite IH]. }
  unfold updateModule. cbv zeta.
  destruct (getModule g i) as [n|] eqn:Hn.
  - destruct (Hb i n Hn) as [Hi _].
    destruct hmr; [destruct (proxy n)|]; cbn [imports]; rewrite Hi, Hold;
      cbn [modules dependencyGraph reverseDependencyGraph];
      (split; [done|]; split; [done|]; apply Hkeys).
  - destruct hmr; cbn [imports proxy freshNode]; rewrite Hold;
      cbn [modules dependencyGraph reverseDependencyGraph];
      (split; [done|]; split; [done|]; apply Hkeys).
Qed.


Lemma emptyGraph_inv : graph_inv emptyGraph.
Proof.
  split.
  - apply emptyGraph_bare.
  - intros a b H. by apply elem_of_nil in H.
  - intros a H. by apply elem_of_nil in H.
  - constructor.
Qed.

Lemma updateModule_inv g i code hmr :
  graph_inv g -> graph_inv (updateModule g i code hmr).
Proof.
  intros [Hb Hr Hk Hn].
  destruct (updateModule_edges g i code hmr Hb) as (Hfw & Hrv & Hmod).
  split.
  - by apply updateModule_bare.
  - intros a b. unfold importsOf, getDependents. rewrite Hfw, Hrv.
    rewrite edgesOf_set, edgesOf_addDependents.
    destruct (decide (i = a)) as [->|Hne]; [auto|].
    intros ?. left. by apply Hr.
  - intros a. rewrite Hfw, Hmod, !jmap_keys_set. naive_solver.
  - rewrite Hfw. by apply jmap_set_keys_nodup.
Qed.

Lemma runCalls_inv cs : graph_inv (runCalls emptyGraph cs).
Proof.
  apply reachable_ind; [apply emptyGraph_inv|].
  intros. by apply updateModule_inv.
Qed.

(** The reverse edge of an import that was removed stays: [updateModule]
    passes the node-level [imports], which is empty, as the old imports. *)
Example stale_reverse_edge :
  importsOf staleGraph "a" = [] /\ getDependents staleGraph "b" = ["a"].
Proof. vm_compute. done. Qed.

(** X1. After any sequence of [updateModule] calls, every import recorded in
    [dependencyGraph] has its reverse edge in [reverseDependencyGraph], and
    every key of [dependencyGraph] has a module node. *)
Theorem forward_edges_have_reverse (cs : list UpdateCall) (a b : string) :
  (b ∈ importsOf (runCalls emptyGraph cs) a ->
   a ∈ getDependents (runCalls emptyGraph cs) b) /\
  (a ∈ jmap_keys (dependencyGraph (runCalls emptyGraph cs)) ->
   is_Some (getModule (runCalls emptyGraph cs) a)).
Proof.
  destruct (runCalls_inv cs) as [_ Hr Hk _]. split.
  - apply Hr.
  - intros Ha. destruct (jmap_keys_get a _ (Hk a Ha)) as [n Hn]. by exists n.
Qed.

(** *** C5: module nodes are never dropped *)

(** C5 (amended). No [updateModule] call drops a module node: the call leaves
    the node of every other id as it was, absent ones included, and the
    updated id has a node afterwards.  In particular the target of a removed
    import edge keeps its node. *)
Theorem updateModule_keeps_nodes (g : ModuleGraph) (i code : string)
    (hmr : bool) (x : string) :
  (x ≠ i -> getModule (updateModule g i code hmr) x = getModule g x) /\
  is_Some (getModule (updateModule g i code hmr) i).
Proof.
  split.
  - apply updateModule_getModule_ne.
  - destruct (updateModule_getModule_eq g i code hmr) as (n & Hn & _). eauto.
Qed.


(** C5 (counterexample).  [a] imports [b], then [a] is updated to import
    nothing: the edge is gone from [dependencyGraph], the node-level
    [importers] of [b] is empty, and [getModule('b')] still returns the node.
    The same holds when [updateDependencies] is given the old import set
    [{b}], so that the reverse entry of [b] becomes empty and is deleted. *)
Lemma removed_import_keeps_target :
  importsOf pruneBefore "a" = ["b"] /\
  importsOf pruneAfter "a" = [] /\
  (importers <$> getModule pruneAfter "b") = Some [] /\
  is_Some (getModule pruneAfter "b") /\
  getDependents (updateDependencies pruneBefore "a" [] ["b"]) "b" = [] /\
  jmap_has "b" (reverseDependencyGraph (updateDependencies pruneBefore "a" [] ["b"])) = false /\
  is_Some (getModule (updateDependencies pruneBefore "a" [] ["b"]) "b").
Proof. vm_compute. repeat split; eauto. Qed.

(** *** [getUpdateChain] is a depth-first walk over the reverse edges *)


Lemma chainVisit_dfs g fuel :
  forall i path st d,
    chain_rel st d -> ch_recursionStack st ⊆ ch_visited st ->
    chain_agree st (chainVisit g fuel i path st)
                   (dfs (getDependents g) fuel i d).
Proof.
  induction fuel as [|fuel IH]; intros i path st d [Hv Hp] Hstack; [done|].
  assert (Hloop : forall ds st d,
    chain_rel st d -> ch_recursionStack st ⊆ ch_visited st ->
    chain_agree st
      (forEachM (fun depId => chainVisit g fuel depId (path ++ [i])) ds st)
      (forEachM (dfs (getDependents g) fuel) ds d)).
  { clear -IH. induction ds as [|x ds IHds]; intros st d Hrel Hstack; simpl.
    - done.
    - specialize (IH x (path ++ [i]) st d Hrel Hstack).
      unfold chain_agree in IH.
      destruct (chainVisit g fuel x (path ++ [i]) st) as [st1|],
               (dfs (getDependents g) fuel x d) as [d1|]; try done.
      destruct IH as (Hrel1 & Heq1 & Hsub1).
      specialize (IHds st1 d1 Hrel1 Hsub1). unfold chain_agree in *.
      destruct (forEachM _ ds st1) as [st2|], (forEachM _ ds d1) as [d2|]; try done.
      destruct IHds as (? & ? & ?). split; [done|]. split; [congruence|done]. }
  simpl. destruct (decide (i ∈ ch_recursionStack st)) as [Hin|Hnin].
  - rewrite decide_True by (rewrite <- Hv; set_solver). simpl. done.
  - rewrite <- Hv. destruct (decide (i ∈ ch_visited st)) as [Hvis|Hvis]; [done|].
    specialize (Hloop (getDependents g i)
      (mkChain ({[i]} ∪ ch_visited st) ({[i]} ∪ ch_recursionStack st)
               (ch_result st) (ch_cycles st))
      (mkDfs ({[i]} ∪ ch_visited st) (dfs_pre d ++ [i]) (dfs_post d))).
    unfold chain_agree in Hloop. simpl in Hloop.
    destruct (forEachM _ _ (mkChain _ _ _ _)) as [st2|],
             (forEachM _ _ (mkDfs _ _ _)) as [d2|];
      try (by apply Hloop; [split|set_solver]).
    destruct Hloop as ([Hv2 Hp2] & Hs2 & Hsub2); [by split|set_solver|].
    simpl. split; [split; simpl; congruence|]. split; [|set_solver].
    rewrite Hs2. apply leibniz_equiv. set_solver.
Qed.


Lemma edgesOf_edgeNodes (m : jmap jset) a b : b ∈ edgesOf m a -> b ∈ edgeNodes m.
Proof.
  unfold edgesOf, edgeNodes. destruct (jmap_get a m) as [s|] eqn:Hget;
    [|by intros ?%elem_of_nil].
  intros Hb. apply elem_of_app. right. apply list_elem_of_In, in_concat.
  exists s. split; [|by apply list_elem_of_In].
  apply in_map_iff. exists (a, s). split; [done|].
  by apply list_elem_of_In, jmap_get_Some_in.
Qed.

Lemma edgesOf_key (m : jmap jset) a b : b ∈ edgesOf m a -> a ∈ jmap_keys m.
Proof.
  unfold edgesOf. destruct (jmap_get a m) as [s|] eqn:Hget;
    [|by intros ?%elem_of_nil].
  intros _. by eapply jmap_get_Some_keys.
Qed.

Lemma size_list_to_set_le (l : list string) :
  size (list_to_set l : gset string) <= length l.
Proof.
  induction l as [|x l IH].
  - by rewrite list_to_set_nil, size_empty.
  - rewrite list_to_set_cons. simpl.
    etrans; [apply Nat.eq_le_incl, size_union_alt|]. rewrite size_singleton.
    assert (size ((list_to_set l : gset string) ∖ {[x]}) <= size (list_to_set l : gset string)).
    { apply subseteq_size. set_solver. }
    lia.
Qed.

Lemma chainUniverse_closed g x u d :
  u ∈ chainUniverse g x -> d ∈ getDependents g u -> d ∈ chainUniverse g x.
Proof.
  intros _ Hd. unfold chainUniverse. apply elem_of_union. right.
  apply elem_of_list_to_set. by eapply edgesOf_edgeNodes.
Qed.

Lemma chainUniverse_size g x : size (chainUniverse g x) < chainFuel g.
Proof.
  unfold chainUniverse, chainFuel.
  rewrite size_union_alt, size_singleton.
  pose proof (size_list_to_set_le (edgeNodes (reverseDependencyGraph g))).
  assert (size ((list_to_set (edgeNodes (reverseDependencyGraph g)) : gset string) ∖ {[x]})
          <= size (list_to_set (edgeNodes (reverseDependencyGraph g)) : gset string)).
  { apply subseteq_size. set_solver. }
  lia.
Qed.


(** What [getUpdateChain] returns, for any graph. *)
Lemma getUpdateChain_walk g x :
  exists post,
    getUpdateChain g x = Some (reverse (post ++ [x])) /\
    NoDup (post ++ [x]) /\
    (forall y, y ∈ post ++ [x] <-> reachesDependent g x y) /\
    finishes_late (getDependents g) ∅ (post ++ [x]).
Proof.
  destruct (dfs_walks (getDependents g) (chainUniverse g x)
              (chainUniverse_closed g x) (chainFuel g) x (mkDfs ∅ [] []))
    as (d' & a & b & Hrun & W).
  { unfold chainUniverse. set_solver. }
  { simpl. eapply Nat.le_lt_trans; [|apply (chainUniverse_size g x)].
    apply subseteq_size. set_solver. }
  pose proof (chainVisit_dfs g (chainFuel g) x [] (mkChain ∅ ∅ [] []) (mkDfs ∅ [] [])) as Hag.
  rewrite Hrun in Hag. unfold chain_agree in Hag.
  destruct (w_ends W x eq_refl) as [_ [post Hpost]]; [set_solver|]. subst b.
  exists post. unfold getUpdateChain, getUpdateChainWithCycles.
  destruct (chainVisit g (chainFuel g) x [] (mkChain ∅ ∅ [] [])) as [st'|];
    [|by destruct Hag].
  destruct Hag as ([_ Hres] & _); [by split|done|].
  simpl. rewrite Hres, (w_post_eq W). simpl. split; [done|].
  split; [apply (w_nodup W)|]. split.
  - intros y. rewrite (w_reach W). simpl. unfold reachesDependent. split.
    + by intros (d & ->%list_elem_of_singleton & ?).
    + intros ?. exists x. split; [by apply list_elem_of_singleton|done].
  - apply (w_late W).
Qed.

(** *** C2: the update chain *)




Example update_chain_line :
  getUpdateChainWithCycles lineGraph "a" = Some (["a"; "b"; "c"], []).
Proof. vm_compute. done. Qed.




(** ** [detectStronglyConnectedComponents] *)

(** *** Both passes are instances of the generic walk *)

Lemma sccVisit_dfs g fuel : forall i d,
  sccVisit g fuel i (visitView d) = visitView <$> dfs (importsOf g) fuel i d.
Proof.
  induction fuel as [|fuel IH]; intros i d; [done|].
  assert (Hloop : forall ds d,
    forEachM (sccVisit g fuel) ds (visitView d) =
    visitView <$> forEachM (dfs (importsOf g) fuel) ds d).
  { clear -IH. induction ds as [|x ds IHds]; intros d; simpl; [done|].
    rewrite IH. destruct (dfs (importsOf g) fuel x d) as [d1|]; simpl; [|done].
    apply IHds. }
  simpl. destruct (decide (i ∈ dfs_visited d)); [done|].
  specialize (Hloop (importsOf g i)
    (mkDfs ({[i]} ∪ dfs_visited d) (dfs_pre d ++ [i]) (dfs_post d))).
  unfold visitView at 1 in Hloop. simpl in Hloop.
  destruct (forEachM (dfs (importsOf g) fuel) _ _) as [d2|];
    simpl in Hloop; rewrite Hloop; reflexivity.
Qed.

Lemma sccAssign_dfs t fuel : forall i d,
  sccAssign t fuel i (assignView d) = assignView <$> dfs (edgesOf t) fuel i d.
Proof.
  induction fuel as [|fuel IH]; intros i d; [done|].
  assert (Hloop : forall ds d,
    forEachM (sccAssign t fuel) ds (assignView d) =
    assignView <$> forEachM (dfs (edgesOf t) fuel) ds d).
  { clear -IH. induction ds as [|x ds IHds]; intros d; simpl; [done|].
    rewrite IH. destruct (dfs (edgesOf t) fuel x d) as [d1|]; simpl; [|done].
    apply IHds. }
  simpl. destruct (decide (i ∈ dfs_visited d)); [done|].
  specialize (Hloop (edgesOf t i)
    (mkDfs ({[i]} ∪ dfs_visited d) (dfs_pre d ++ [i]) (dfs_post d))).
  unfold assignView at 1 in Hloop. simpl in Hloop.
  destruct (forEachM (dfs (edgesOf t) fuel) _ _) as [d2|];
    simpl in Hloop; rewrite Hloop; reflexivity.
Qed.

Lemma forEach_sccVisit_dfs g fuel ds d :
  forEachM (sccVisit g fuel) ds (visitView d) =
  visitView <$> forEachM (dfs (importsOf g) fuel) ds d.
Proof.
  revert d. induction ds as [|x ds IH]; intros d; simpl; [done|].
  rewrite sccVisit_dfs. destruct (dfs (importsOf g) fuel x d) as [d1|]; simpl; [|done].
  apply IH.
Qed.

(** *** The transposed graph *)

Lemma transpose_step_edges i deps : forall (t : jmap jset) k x,
  x ∈ edgesOf (foldl (fun t depId => addDependent i t depId) t deps) k <->
  x ∈ edgesOf t k \/ (k ∈ deps /\ x = i).
Proof. apply edgesOf_addDependents. Qed.

Lemma transpose_edges_acc (dg : jmap jset) : forall (t : jmap jset) k x,
  x ∈ edgesOf
        (foldl (fun t '(i, deps) =>
                  foldl (fun t depId => addDependent i t depId) t deps) t dg) k <->
  x ∈ edgesOf t k \/ exists deps, (x, deps) ∈ dg /\ k ∈ deps.
Proof.
  induction dg as [|[i deps] dg IH]; intros t k x; simpl.
  - split; [auto|]. by intros [?|(deps & ?%elem_of_nil & _)].
  - rewrite IH, transpose_step_edges. split.
    + intros [[?|[? ->]]|(deps' & ? & ?)]; [by left| |].
      * right. exists deps. split; [left|]; done.
      * right. exists deps'. split; [by right|done].
    + intros [?|(deps' & Hin & ?)]; [by left; left|].
      apply elem_of_cons in Hin as [[= -> ->]|Hin]; [by left; right|].
      right. eauto.
Qed.

Lemma jmap_in_get {V} (m : jmap V) k v :
  NoDup (jmap_keys m) -> (k, v) ∈ m -> jmap_get k m = Some v.
Proof.
  induction m as [|[k0 v0] m IH]; simpl; [by intros _ ?%elem_of_nil|].
  rewrite NoDup_cons. intros [Hk0 Hnd] Hin.
  apply elem_of_cons in Hin as [[= -> ->]|Hin].
  - by rewrite decide_True.
  - destruct (decide (k = k0)) as [->|Hne]; [|by apply IH].
    exfalso. apply Hk0. unfold jmap_keys. apply list_elem_of_fmap.
    exists (k0, v). done.
Qed.

Lemma transposeGraph_edges (dg : jmap jset) k x :
  NoDup (jmap_keys dg) ->
  x ∈ edgesOf (transposeGraph dg) k <-> k ∈ edgesOf dg x.
Proof.
  intros Hnd. unfold transposeGraph. rewrite transpose_edges_acc. split.
  - intros [?%elem_of_nil|(deps & Hin & Hk)]; [done|].
    unfold edgesOf. by rewrite (jmap_in_get dg x deps Hnd Hin).
  - unfold edgesOf at 1. destruct (jmap_get x dg) as [deps|] eqn:Hget;
      [|by intros ?%elem_of_nil].
    intros Hk. right. exists deps. split; [by apply jmap_get_Some_in|done].
Qed.

(** *** Components *)

Lemma sameComponent_refl g x : sameComponent g x x.
Proof. split; apply reach_refl; set_solver. Qed.

Lemma sameComponent_sym g x y : sameComponent g x y -> sameComponent g y x.
Proof. intros [??]. by split. Qed.

Lemma sameComponent_trans g x y z :
  sameComponent g x y -> sameComponent g y z -> sameComponent g x z.
Proof. intros [??] [??]. split; eapply reach_trans; eauto. Qed.

(** A path between two nodes of a component stays inside the component, so
    it avoids every set that is disjoint from the component. *)
Lemma component_path_avoids g (S : gset string) r w :
  (forall n, sameComponent g r n -> n ∉ S) ->
  reachesImport g w r -> reachesImport g r w ->
  reach (edge (importsOf g)) S w r.
Proof.
  intros Havoid Hwr. induction Hwr as [x Hx | x y z Hx Hxy Hyz IH]; intros Hback.
  - apply reach_refl. apply Havoid. apply sameComponent_refl.
  - eapply reach_step; [|exact Hxy|].
    + apply Havoid. split; [done|]. eapply reach_step; eauto.
    + apply IH; [done|]. eapply reach_snoc; eauto.
Qed.

Lemma nodup_two (l : list string) x y :
  NoDup l -> x ∈ l -> y ∈ l -> x ≠ y -> 2 <= length l.
Proof.
  destruct l as [|a [|b l]]; simpl; [by intros _ ?%elem_of_nil| |lia].
  intros _ ->%list_elem_of_singleton ->%list_elem_of_singleton. done.
Qed.

Lemma reach_target g S x y :
  reach (edge (importsOf g)) S x y -> y = x \/ y ∈ edgeNodes (dependencyGraph g).
Proof.
  induction 1 as [x _|x y z _ Hxy Hyz IH]; [by left|]. right.
  destruct IH as [->|?]; [|done]. by eapply edgesOf_edgeNodes.
Qed.

Section Kosaraju.
Variable g : ModuleGraph.
Hypothesis Hinv : graph_inv g.

Local Abbreviation E := (edge (importsOf g)).
Local Abbreviation t := (transposeGraph (dependencyGraph g)).

Lemma transposed_edge a b : edge (edgesOf t) a b <-> E b a.
Proof.
  unfold edge, importsOf. apply transposeGraph_edges. apply (inv_nodup _ Hinv).
Qed.

Lemma reach_transposed S a b :
  reach (edge (edgesOf t)) S a b <-> reach E S b a.
Proof.
  split; intros H.
  - apply reach_flip. eapply reach_impl; [|exact H].
    intros x y. apply transposed_edge.
  - apply (reach_flip (edge (edgesOf t))). eapply reach_impl; [|exact H].
    intros x y. apply transposed_edge.
Qed.

Lemma sccUniverse_imports u d :
  u ∈ sccUniverse g -> d ∈ importsOf g u -> d ∈ sccUniverse g.
Proof.
  intros _ Hd. unfold sccUniverse. apply elem_of_list_to_set, elem_of_app.
  right. by eapply edgesOf_edgeNodes.
Qed.

Lemma sccUniverse_transposed u d :
  u ∈ sccUniverse g -> d ∈ edgesOf t u -> d ∈ sccUniverse g.
Proof.
  intros _ Hd. apply transposed_edge in Hd.
  unfold sccUniverse. apply elem_of_list_to_set, elem_of_app. right.
  unfold edgeNodes. apply elem_of_app. left. by eapply edgesOf_key.
Qed.

Lemma sccUniverse_size (S : gset string) :
  size (sccUniverse g ∖ S) < sccFuel g.
Proof.
  unfold sccFuel.
  assert (size (sccUniverse g ∖ S) <= size (sccUniverse g))
    by (apply subseteq_size; set_solver).
  pose proof (size_list_to_set_le
    (jmap_keys (modules g) ++ edgeNodes (dependencyGraph g))) as Hle.
  rewrite length_app in Hle. unfold sccUniverse. unfold sccUniverse in H. lia.
Qed.

(** The first pass. *)
Lemma first_pass :
  exists visited order,
    forEachM (sccVisit g (sccFuel g)) (jmap_keys (modules g)) (∅, []) =
      Some (visited, order) /\
    NoDup order /\
    (forall w, w ∈ order <->
       exists k, k ∈ jmap_keys (modules g) /\ reachesImport g k w) /\
    finishes_late (importsOf g) ∅ order.
Proof.
  destruct (forEach_walks (importsOf g) (sccUniverse g) sccUniverse_imports (sccFuel g)
              (dfs_walks (importsOf g) (sccUniverse g) sccUniverse_imports (sccFuel g))
              (jmap_keys (modules g)) (mkDfs ∅ [] []))
    as (d' & a & b & Hrun & W).
  { intros d Hd. unfold sccUniverse. apply elem_of_list_to_set, elem_of_app. by left. }
  { apply sccUniverse_size. }
  exists (dfs_visited d'), (dfs_post d').
  pose proof (forEach_sccVisit_dfs g (sccFuel g) (jmap_keys (modules g)) (mkDfs ∅ [] []))
    as Heq.
  rewrite Hrun in Heq. split; [exact Heq|].
  rewrite (w_post_eq W). simpl.
  split; [apply (w_nodup W)|]. split; [apply (w_reach W)|apply (w_late W)].
Qed.

Section SecondPass.
Variable order : list string.
Hypothesis order_nodup : NoDup order.
Hypothesis order_reach : forall w, w ∈ order <->
  exists k, k ∈ jmap_keys (modules g) /\ reachesImport g k w.
Hypothesis order_late : finishes_late (importsOf g) ∅ order.

Lemma order_source a b : E a b -> a ∈ order.
Proof.
  intros Hab. apply order_reach. exists a. split.
  - apply (inv_keys _ Hinv). by eapply edgesOf_key.
  - apply reach_refl. set_solver.
Qed.

Lemma order_closed x y : x ∈ order -> reachesImport g x y -> y ∈ order.
Proof.
  intros (k & Hk & Hkx)%order_reach Hxy. apply order_reach.
  exists k. split; [done|]. eapply reach_trans; eauto.
Qed.

Lemma order_reaches x y : reachesImport g x y -> x = y \/ x ∈ order.
Proof.
  intros H. inversion H; subst; [by left|]. right. by eapply order_source.
Qed.

(** One iteration of the [while] loop. *)
Lemma collect_step r rs visited components :
  collected g order (r :: rs) visited components ->
  exists visited' components',
    sccCollect t (sccFuel g) r (visited, components) =
      Some (visited', components') /\
    collected g order rs visited' components'.
Proof.
  intros [[done_ Hsuf] Hdone Hclosed Hsound Hcomplete Hdisj].
  assert (Hsuf' : order = reverse rs ++ r :: done_).
  { rewrite Hsuf, reverse_cons, <- app_assoc. done. }
  assert (Hr : r ∈ order).
  { rewrite Hsuf'. apply elem_of_app. right. left. }
  unfold sccCollect. destruct (decide (r ∈ visited)) as [Hvis|Hvis].
  { exists visited, components. split; [done|]. split; try done.
    - eauto.
    - intros x Hx Hxrs. destruct (decide (x = r)) as [->|Hne]; [done|].
      apply Hdone; [done|]. intros [?|?]%elem_of_cons; done. }
  destruct (dfs_walks (edgesOf t) (sccUniverse g) sccUniverse_transposed
              (sccFuel g) r (mkDfs visited [] []))
    as (d' & a & b & Hrun & W).
  { pose proof (order_reach r) as [Hk _]. destruct (Hk Hr) as (k & Hkm & Hkr).
    clear Hk. unfold sccUniverse. apply elem_of_list_to_set, elem_of_app.
    destruct (reach_target _ _ _ _ Hkr) as [->|?]; [by left|by right]. }
  { apply sccUniverse_size. }
  pose proof (sccAssign_dfs t (sccFuel g) r (mkDfs visited [] [])) as Heq.
  rewrite Hrun in Heq.
  change (assignView (mkDfs visited [] [])) with (visited, @nil string) in Heq.
  rewrite Heq. unfold assignView. cbn [fmap option_fmap option_map].
  rewrite (w_pre_eq W). cbn [dfs_pre app].
  (* the component found is the component of r *)
  assert (Hcomp : forall w, w ∈ b <-> sameComponent g r w).
  { intros w. rewrite (w_reach W). simpl. split.
    - intros (d & ->%list_elem_of_singleton & Hrw).
      apply reach_transposed in Hrw.
      assert (Hwr : reachesImport g w r).
      { eapply reach_mono; [|exact Hrw]. set_solver. }
      assert (Hw : w ∈ order).
      { destruct (order_reaches _ _ Hwr) as [->|?]; done. }
      assert (Hri : order !! length (reverse rs) = Some r).
      { rewrite Hsuf'. by rewrite list_lookup_middle. }
      destruct (order_late w r _ Hw Hri Hwr) as (x' & j & Hj & Hle & Hwx' & Hx'w).
      assert (Hx' : x' ∉ visited).
      { intros Hx'. apply reach_start in Hrw. apply Hrw.
        eapply Hclosed; [exact Hx'|]. by split. }
      destruct (decide (j = length (reverse rs))) as [->|Hne].
      + rewrite Hri in Hj. injection Hj as <-. by split.
      + exfalso. apply Hx'. apply Hdone.
        { eapply list_elem_of_lookup_2; eauto. }
        intros Hin. apply elem_of_cons in Hin as [->|Hin].
        * apply Hne. eapply NoDup_lookup; eauto.
        * apply elem_of_reverse, list_elem_of_lookup in Hin as [j' Hj'].
          assert (order !! j' = Some x').
          { rewrite Hsuf'. by apply lookup_app_l_Some. }
          assert (j = j') as -> by (eapply NoDup_lookup; eauto).
          apply lookup_lt_Some in Hj'. lia.
    - intros [Hrw Hwr]. exists r. split; [by apply list_elem_of_singleton|].
      apply reach_transposed. apply component_path_avoids; [|done|done].
      intros n Hn Hnv. apply Hvis. eapply Hclosed; [exact Hnv|].
      by apply sameComponent_sym. }
  assert (Hab : forall w, w ∈ a <-> w ∈ b).
  { intros w. by rewrite (w_perm W). }
  assert (Hnew : forall w, w ∈ b -> w ∉ visited).
  { intros w (d & _ & Hrw)%(w_reach W). by apply reach_end in Hrw. }
  assert (Hvis' : forall w, w ∈ dfs_visited d' <-> w ∈ b \/ w ∈ visited).
  { intros w. rewrite (w_visited W). simpl. set_solver. }
  assert (Hcol : forall components',
    (components' = components ++ [a] /\ 1 < length a) \/
    (components' = components /\ length a <= 1) ->
    collected g order rs (dfs_visited d') components').
  { intros components' Hcase. split.
    - eauto.
    - intros x Hx Hxrs. apply Hvis'. destruct (decide (x = r)) as [->|Hne].
      + left. apply Hcomp, sameComponent_refl.
      + right. apply Hdone; [done|]. intros [?|?]%elem_of_cons; done.
    - intros x y Hx Hxy. apply Hvis'. apply Hvis' in Hx as [Hx|Hx].
      + left. apply Hcomp. eapply sameComponent_trans; [|exact Hxy].
        by apply Hcomp.
      + right. eapply Hclosed; eauto.
    - intros c Hc.
      assert (Hold : c ∈ components ->
        NoDup c /\ 2 <= length c /\ (forall y, y ∈ c -> y ∈ dfs_visited d') /\
        exists r, r ∈ c /\ forall y, y ∈ c <-> sameComponent g r y).
      { intros Hin. destruct (Hsound c Hin) as (? & ? & Hsub & ?).
        repeat split; try done. intros y Hy. apply Hvis'. right. by apply Hsub. }
      destruct Hcase as [[-> Hlen]|[-> _]]; [|by apply Hold].
      apply elem_of_app in Hc as [Hc| ->%list_elem_of_singleton]; [by apply Hold|].
      split; [rewrite (w_perm W); apply (w_nodup W)|]. split; [lia|].
      split; [intros y Hy; apply Hvis'; left; by apply Hab|].
      exists r. split; [apply Hab, Hcomp, sameComponent_refl|].
      intros y. by rewrite Hab.
    - intros x y Hx Hne Hxy. apply Hvis' in Hx as [Hx|Hx].
      + assert (Hy : y ∈ b).
        { apply Hcomp. eapply sameComponent_trans; [|exact Hxy]. by apply Hcomp. }
        assert (2 <= length a).
        { eapply (nodup_two a x y); [|by apply Hab|by apply Hab|done].
          rewrite (w_perm W). apply (w_nodup W). }
        destruct Hcase as [[-> _]|[_ ?]]; [|lia].
        exists a. split; [|by apply Hab]. apply elem_of_app. right.
        by apply list_elem_of_singleton.
      + destruct (Hcomplete x y Hx Hne Hxy) as (c & Hc & Hxc).
        exists c. split; [|done].
        destruct Hcase as [[-> _]|[-> _]]; [|done]. apply elem_of_app. by left.
    - destruct Hcase as [[-> _]|[-> _]]; [|done].
      assert (Hsep : forall c x, c ∈ components -> x ∈ c -> x ∉ a).
      { intros c x Hc Hx Hxa. apply (Hnew x); [by apply Hab|].
        destruct (Hsound c Hc) as (_ & _ & Hsub & _). by apply Hsub. }
      intros i j c1 c2 x Hi Hj Hne Hx1 Hx2.
      apply lookup_app_Some in Hi as [Hi|[Hilen Hi]];
        apply lookup_app_Some in Hj as [Hj|[Hjlen Hj]].
      + by apply (Hdisj i j c1 c2 x).
      + apply list_lookup_singleton_Some in Hj as [_ <-].
        apply (Hsep c1 x); [eapply list_elem_of_lookup_2; eauto|done|done].
      + apply list_lookup_singleton_Some in Hi as [_ <-].
        apply (Hsep c2 x); [eapply list_elem_of_lookup_2; eauto|done|done].
      + apply list_lookup_singleton_Some in Hi as [Hi _].
        apply list_lookup_singleton_Some in Hj as [Hj _]. lia. }
  destruct (1 <? length a) eqn:Hlen.
  - apply Nat.ltb_lt in Hlen. eexists _, _. split; [done|].
    apply Hcol. left. done.
  - apply Nat.ltb_ge in Hlen. eexists _, _. split; [done|].
    apply Hcol. right. done.
Qed.

Lemma collect_all rs : forall visited components,
  collected g order rs visited components ->
  exists visited' components',
    forEachM (sccCollect t (sccFuel g)) rs (visited, components) =
      Some (visited', components') /\
    collected g order [] visited' components'.
Proof.
  induction rs as [|r rs IH]; intros visited components Hcol; cbn [forEachM].
  - eauto.
  - destruct (collect_step r rs visited components Hcol)
      as (v1 & c1 & Hrun & Hcol1).
    rewrite Hrun. by apply IH.
Qed.

Lemma collect_start : collected g order (reverse order) ∅ [].
Proof.
  split.
  - exists []. by rewrite reverse_involutive, app_nil_r.
  - intros x Hx Hn. exfalso. apply Hn. by apply elem_of_reverse.
  - intros x y Hx. set_solver.
  - intros c Hc. by apply elem_of_nil in Hc.
  - intros x y Hx. set_solver.
  - intros i j c1 c2 x Hi. done.
Qed.
End SecondPass.
End Kosaraju.

(** C9 (amended). For every graph produced by [updateModule] calls,
    [detectStronglyConnectedComponents] returns exactly the strongly connected
    components of the import graph that have at least two modules, each once:
    every returned list is duplicate-free, has length at least 2 and holds
    exactly the modules mutually reachable with one of its members; every
    module that is mutually reachable with a different module is in a
    returned list; two returned lists share no module.  A singleton component
    is never returned, whether or not it has a self-edge, so for a graph in
    which no two distinct modules reach each other the result is empty. *)
Theorem scc_components (cs : list UpdateCall) :
  exists comps,
    detectStronglyConnectedComponents (runCalls emptyGraph cs) = Some comps /\
    (forall c, c ∈ comps ->
       NoDup c /\ 2 <= length c /\
       exists r, r ∈ c /\
         forall y, y ∈ c <-> sameComponent (runCalls emptyGraph cs) r y) /\
    (forall x y, x ≠ y -> sameComponent (runCalls emptyGraph cs) x y ->
       exists c, c ∈ comps /\ x ∈ c) /\
    (forall i j c1 c2 x, comps !! i = Some c1 -> comps !! j = Some c2 ->
       i ≠ j -> x ∈ c1 -> x ∉ c2) /\
    ((forall x y, sameComponent (runCalls emptyGraph cs) x y -> x = y) ->
     comps = []).
Proof.
  set (g := runCalls emptyGraph cs).
  pose proof (runCalls_inv cs : graph_inv g) as Hinv.
  destruct (first_pass g Hinv) as (visited & order & Hrun1 & Hnd & Hreach & Hlate).
  destruct (collect_all g Hinv order Hnd Hreach Hlate (reverse order) ∅ []
              (collect_start g Hinv order Hnd Hreach Hlate))
    as (visited' & comps & Hrun2 & [_ Hdone _ Hsound Hcomplete Hdisj]).
  exists comps. split.
  { unfold detectStronglyConnectedComponents. rewrite Hrun1.
    cbn [fst snd]. by rewrite Hrun2. }
  assert (Hsound' : forall c, c ∈ comps ->
    NoDup c /\ 2 <= length c /\
    exists r, r ∈ c /\ forall y, y ∈ c <-> sameComponent g r y).
  { intros c Hc. destruct (Hsound c Hc) as (? & ? & _ & ?). done. }
  split; [exact Hsound'|]. split; [|split; [exact Hdisj|]].
  - intros x y Hne Hxy. apply (Hcomplete x y); [|done|done].
    apply Hdone; [|by intros ?%elem_of_nil].
    destruct Hxy as [Hxy _].
    destruct (order_reaches g Hinv order Hnd Hreach Hlate x y Hxy); done.
  - intros Hacyc. destruct comps as [|c comps]; [done|]. exfalso.
    destruct (Hsound' c) as (Hndc & Hlen & r & Hr & Hc); [left|].
    destruct c as [|x [|y c]]; simpl in Hlen; [lia|lia|].
    assert (x = y) as ->.
    { apply Hacyc. eapply sameComponent_trans.
      - apply sameComponent_sym, Hc. left.
      - apply Hc. right. left. }
    apply NoDup_cons in Hndc as [Hx _]. apply Hx. left.
Qed.

Lemma two_cycles_a_b : sameComponent twoCycles "a" "b".
Proof.
  assert (Ha : importsOf twoCycles "a" = ["b"; "a"]) by (vm_compute; reflexivity).
  assert (Hb : importsOf twoCycles "b" = ["a"; "c"]) by (vm_compute; reflexivity).
  split.
  - eapply reach_step; [apply not_elem_of_empty| |apply reach_refl, not_elem_of_empty].
    unfold edge. rewrite Ha. left.
  - eapply reach_step; [apply not_elem_of_empty| |apply reach_refl, not_elem_of_empty].
    unfold edge. rewrite Hb. left.
Qed.

Lemma scc_components_witness :
  exists comps,
    detectStronglyConnectedComponents twoCycles = Some comps /\
    (forall c, c ∈ comps -> NoDup c /\ 2 <= length c) /\
    (exists c, c ∈ comps /\ "a" ∈ c).
Proof.
  destruct (scc_components
              [mkCall "a" "import 'b'; import 'a'" true;
               mkCall "b" "import 'a'; import 'c'" true;
               mkCall "c" "import 'd'" true; mkCall "d" "import 'c'; import 'e'" true;
               mkCall "e" "import 'e'" true])
    as (comps & Hrun & Hsound & Hcomplete & _).
  exists comps. split; [exact Hrun|]. clear Hrun. split.
  - intros c Hc. destruct (Hsound c Hc) as (Hnd & Hlen & _). exact (conj Hnd Hlen).
  - apply (Hcomplete "a" "b"); [intros H; discriminate H|]. exact two_cycles_a_b.
Defined.

(** C9 (counterexample).  A module that imports itself is a singleton
    component with a self-edge, and it is not returned. *)
Lemma self_import_not_reported :
  importsOf selfImport "a" = ["a"] /\
  detectStronglyConnectedComponents selfImport = Some [].
Proof. vm_compute. done. Qed.

Example scc_two_cycles :
  detectStronglyConnectedComponents twoCycles = Some [["a"; "b"]; ["c"; "d"]].
Proof. vm_compute. done. Qed.

(** * More about [ModuleGraph] *)

(** ** [parseImports]: what a captured specifier looks like *)

Lemma span_forallb (p : ascii -> bool) (l : list ascii) :
  forallb p (fst (ImportRegex.span p l)) = true.
Proof.
  induction l as [|c l IH]; simpl; [done|].
  destruct (p c) eqn:Hc; [|done].
  destruct (ImportRegex.span p l) as [a b]. simpl in *. by rewrite Hc, IH.
Qed.

Lemma match_here_capture l cap len :
  ImportRegex.match_here l = Some (cap, len) ->
  cap <> [] /\ forallb (fun c => negb (ImportRegex.is_quote c)) cap = true.
Proof.
  unfold ImportRegex.match_here.
  destruct (ImportRegex.strip_prefix _ l) as [r0|]; [|done].
  destruct (ImportRegex.span ImportRegex.is_clause r0) as [sp r1].
  destruct (ImportRegex.clause_ok sp); [|done].
  destruct r1 as [|q r2]; [done|].
  destruct (ImportRegex.is_quote q); [|done].
  pose proof (span_forallb (fun c => negb (ImportRegex.is_quote c)) r2) as Hall.
  destruct (ImportRegex.span _ r2) as [cap' r3]. simpl in Hall.
  destruct cap' as [|c cap']; [done|]. destruct r3 as [|c3 r3]; [done|].
  intros [= <- _]. done.
Qed.

Lemma scan_captures (P : string -> Prop) :
  (forall l cap len, ImportRegex.match_here l = Some (cap, len) ->
                     P (string_of_list_ascii cap)) ->
  forall l skip, Forall P (ImportRegex.scan skip l).
Proof.
  intros HP l. induction l as [|c l IH]; intros skip; simpl; [constructor|].
  destruct skip as [|k]; [|apply IH].
  destruct (ImportRegex.match_here (c :: l)) as [[cap len]|] eqn:Hm; [|apply IH].
  constructor; [by eapply HP|apply IH].
Qed.

(** X2. Every specifier that [parseImports] returns is non-empty and
    contains no quote character, whatever the code is. *)
Theorem parseImports_specifiers (i code : string) :
  Forall (fun s => s <> "" /\
                   forallb (fun c => negb (ImportRegex.is_quote c))
                           (list_ascii_of_string s) = true)
         (parseImports i code).
Proof.
  unfold parseImports. apply scan_captures. intros l cap len Hm.
  destruct (match_here_capture l cap len Hm) as [Hne Hq].
  rewrite list_ascii_of_string_of_list_ascii. split; [|done].
  intros Hs. apply Hne.
  by rewrite <- (list_ascii_of_string_of_list_ascii cap), Hs.
Qed.

(** ** [updateDependencies] with a set of old imports *)

Lemma jmap_get_delete_eq {V} (m : jmap V) k :
  NoDup (jmap_keys m) -> jmap_get k (jmap_delete k m) = None.
Proof.
  induction m as [|[k0 v0] m IH]; simpl; [done|].
  rewrite NoDup_cons. intros [Hk0 Hm].
  destruct (decide (k = k0)) as [->|Hne]; simpl.
  - destruct (jmap_get k0 m) eqn:Hget; [|done].
    by apply jmap_get_Some_keys in Hget.
  - rewrite decide_False by done. by apply IH.
Qed.

Lemma jmap_delete_keys {V} (m : jmap V) k k' :
  k' ∈ jmap_keys (jmap_delete k m) -> k' ∈ jmap_keys m.
Proof.
  induction m as [|[k0 v0] m IH]; simpl; [done|].
  destruct (decide (k = k0)) as [->|Hne]; simpl.
  - by right.
  - rewrite !elem_of_cons. intros [?|?]; [by left|right; by apply IH].
Qed.

Lemma jmap_delete_keys_nodup {V} (m : jmap V) k :
  NoDup (jmap_keys m) -> NoDup (jmap_keys (jmap_delete k m)).
Proof.
  induction m as [|[k0 v0] m IH]; simpl; [done|].
  rewrite NoDup_cons. intros [Hk0 Hm].
  destruct (decide (k = k0)) as [->|Hne]; simpl; [done|].
  apply NoDup_cons. split; [|by apply IH].
  intros Hin. by apply Hk0, (jmap_delete_keys m k).
Qed.

Lemma removeDependent_keys_nodup i r dep :
  NoDup (jmap_keys r) -> NoDup (jmap_keys (removeDependent i r dep)).
Proof.
  intros Hr. unfold removeDependent.
  destruct (jmap_get dep r) as [s|]; [|done].
  destruct (length (jset_delete i s) =? 0).
  - by apply jmap_delete_keys_nodup.
  - by apply jmap_set_keys_nodup.
Qed.

Lemma edgesOf_removeDependent i r dep k x :
  NoDup (jmap_keys r) ->
  x ∈ edgesOf (removeDependent i r dep) k <->
  x ∈ edgesOf r k /\ ~ (k = dep /\ x = i).
Proof.
  intros Hr. unfold removeDependent.
  destruct (jmap_get dep r) as [s|] eqn:Hget.
  - destruct (length (jset_delete i s) =? 0) eqn:Hlen.
    + apply Nat.eqb_eq, nil_length_inv in Hlen.
      destruct (decide (k = dep)) as [->|Hne].
      * unfold edgesOf. rewrite jmap_get_delete_eq, Hget by done.
        split; [by intros ?%elem_of_nil|]. intros [Hx Hn].
        assert (x ∈ jset_delete i s) as Hin.
        { apply jset_delete_elem. split; [done|]. intros ->. by apply Hn. }
        rewrite Hlen in Hin. by apply elem_of_nil in Hin.
      * unfold edgesOf. rewrite jmap_get_delete_ne by done. naive_solver.
    + rewrite edgesOf_set. destruct (decide (dep = k)) as [<-|Hne].
      * rewrite jset_delete_elem. unfold edgesOf. rewrite Hget. naive_solver.
      * naive_solver.
  - split; [|tauto]. intros Hx. split; [done|]. intros [-> ->].
    unfold edgesOf in Hx. rewrite Hget in Hx. by apply elem_of_nil in Hx.
Qed.

Lemma addDependents_keys_nodup i deps : forall r,
  NoDup (jmap_keys r) -> NoDup (jmap_keys (foldl (addDependent i) r deps)).
Proof.
  induction deps as [|d deps IH]; intros r Hr; simpl; [done|].
  by apply IH, addDependent_keys_nodup.
Qed.

Lemma removeDependents_keys_nodup i deps : forall r,
  NoDup (jmap_keys r) -> NoDup (jmap_keys (foldl (removeDependent i) r deps)).
Proof.
  induction deps as [|d deps IH]; intros r Hr; simpl; [done|].
  by apply IH, removeDependent_keys_nodup.
Qed.

Lemma edgesOf_removeDependents i deps : forall r k x,
  NoDup (jmap_keys r) ->
  x ∈ edgesOf (foldl (removeDependent i) r deps) k <->
  x ∈ edgesOf r k /\ ~ (k ∈ deps /\ x = i).
Proof.
  induction deps as [|d deps IH]; intros r k x Hr; simpl.
  - split; [|tauto]. intros ?. split; [done|]. by intros [?%elem_of_nil _].
  - rewrite IH by by apply removeDependent_keys_nodup.
    rewrite edgesOf_removeDependent by done. rewrite elem_of_cons. naive_solver.
Qed.

(** A key whose set of dependents has become empty is deleted. *)
Lemma removeDependent_no_empty i (r : jmap jset) dep :
  NoDup (jmap_keys r) -> jmap_get dep (removeDependent i r dep) <> Some [].
Proof.
  intros Hr. unfold removeDependent.
  destruct (jmap_get dep r) as [s|] eqn:Hget; [|by rewrite Hget].
  destruct (length (jset_delete i s) =? 0) eqn:Hlen.
  - by rewrite jmap_get_delete_eq.
  - rewrite jmap_get_set_eq. intros [= Hs]. by rewrite Hs in Hlen.
Qed.

Lemma removeDependent_keeps_no_empty i (r : jmap jset) dep k :
  NoDup (jmap_keys r) -> jmap_get k r <> Some [] ->
  jmap_get k (removeDependent i r dep) <> Some [].
Proof.
  intros Hr Hk. destruct (decide (dep = k)) as [->|Hne].
  - by apply removeDependent_no_empty.
  - unfold removeDependent. destruct (jmap_get dep r) as [s|]; [|exact Hk].
    destruct (length (jset_delete i s) =? 0).
    + by rewrite jmap_get_delete_ne.
    + by rewrite jmap_get_set_ne.
Qed.

Lemma removeDependents_keep_no_empty i deps k : forall r : jmap jset,
  NoDup (jmap_keys r) -> jmap_get k r <> Some [] ->
  jmap_get k (foldl (removeDependent i) r deps) <> Some [].
Proof.
  induction deps as [|d deps IH]; intros r Hr Hk; simpl; [done|].
  apply IH; [by apply removeDependent_keys_nodup|].
  by apply removeDependent_keeps_no_empty.
Qed.

Lemma removeDependents_no_empty i deps k : forall r : jmap jset,
  NoDup (jmap_keys r) -> k ∈ deps ->
  jmap_get k (foldl (removeDependent i) r deps) <> Some [].
Proof.
  induction deps as [|d deps IH]; intros r Hr Hk; simpl.
  - by apply elem_of_nil in Hk.
  - destruct (decide (k = d)) as [->|Hne].
    + apply removeDependents_keep_no_empty; [by apply removeDependent_keys_nodup|].
      by apply removeDependent_no_empty.
    + apply IH; [by apply removeDependent_keys_nodup|].
      apply elem_of_cons in Hk as [?|?]; done.
Qed.

(** X3. [updateDependencies(moduleId, newImports, oldImports)] replaces the
    forward edges of the module by the new imports, records the module as a
    dependent of every import that is new, removes it from the dependents of
    every import that is gone, deletes the entry of such an import when no
    dependent is left, and changes nothing else. *)
Theorem updateDependencies_diff (g : ModuleGraph) (m : string)
    (new : list string) (old : jset) :
  NoDup (jmap_keys (reverseDependencyGraph g)) ->
  (forall k x,
     x ∈ getDependents (updateDependencies g m new old) k <->
     (x ∈ getDependents g k /\ ~ (x = m /\ k ∈ old /\ k ∉ new)) \/
     (x = m /\ k ∈ new /\ k ∉ old)) /\
  (forall k, k ∈ old -> k ∉ new ->
     getDependents (updateDependencies g m new old) k = [] ->
     jmap_has k (reverseDependencyGraph (updateDependencies g m new old)) = false) /\
  (forall y, y ∈ importsOf (updateDependencies g m new old) m <-> y ∈ new) /\
  (forall k, k <> m ->
     importsOf (updateDependencies g m new old) k = importsOf g k) /\
  modules (updateDependencies g m new old) = modules g.
Proof.
  intros Hr.
  assert (Hadd : NoDup (jmap_keys (foldl (addDependent m) (reverseDependencyGraph g)
                   (jset_of_array (filter (fun x => x ∉ old) new))))).
  { by apply addDependents_keys_nodup. }
  split; [|split; [|split; [|split]]].
  - intros k x. unfold getDependents, updateDependencies.
    cbn [reverseDependencyGraph].
    rewrite edgesOf_removeDependents by done.
    rewrite edgesOf_addDependents, !jset_of_array_elem, !list_elem_of_filter.
    destruct (decide (k ∈ new)); destruct (decide (k ∈ old)); naive_solver.
  - intros k Hold Hnew. unfold getDependents, updateDependencies, jmap_has, edgesOf.
    cbn [reverseDependencyGraph].
    pose proof (removeDependents_no_empty m
      (jset_of_array (filter (fun x => x ∉ new) old)) k _ Hadd) as Hne.
    destruct (jmap_get k _) as [s|]; [|done].
    intros ->. exfalso. apply Hne; [|done].
    apply jset_of_array_elem, list_elem_of_filter. done.
  - intros y. unfold importsOf, updateDependencies. cbn [dependencyGraph].
    rewrite edgesOf_set, decide_True by done. apply jset_of_array_elem.
  - intros k Hk. unfold importsOf, updateDependencies. cbn [dependencyGraph].
    by rewrite edgesOf_set, decide_False.
  - done.
Qed.

Lemma updateDependencies_diff_witness :
  "a" ∈ getDependents (updateDependencies pruneBefore "a" ["c"] ["b"]) "c" <->
  ("a" ∈ getDependents pruneBefore "c" /\
   ~ ("a" = "a" /\ "c" ∈ ["b"] /\ "c" ∉ ["c"])) \/
  ("a" = "a" /\ "c" ∈ ["c"] /\ "c" ∉ ["b"]).
Proof.
  apply (updateDependencies_diff pruneBefore "a" ["c"] ["b"]).
  vm_compute. apply NoDup_singleton.
Defined.

(** ** Reverse edges only grow *)

(** X4. [updateModule] never removes a reverse edge: a module that was once
    recorded as a dependent of another stays one, whatever is updated
    afterwards. *)
Theorem dependents_never_removed (cs cs' : list UpdateCall) (a b : string) :
  a ∈ getDependents (runCalls emptyGraph cs) b ->
  a ∈ getDependents (runCalls emptyGraph (cs ++ cs')) b.
Proof.
  intros Hab. induction cs' as [|c cs' IH] using rev_ind.
  - by rewrite app_nil_r.
  - rewrite app_assoc, runCalls_snoc. destruct c as [i code hmr].
    unfold applyCall. cbn [call_id call_code call_hmr].
    destruct (updateModule_edges (runCalls emptyGraph (cs ++ cs')) i code hmr
                (runCalls_bare _)) as (_ & Hrv & _).
    unfold getDependents. rewrite Hrv, edgesOf_addDependents. by left.
Qed.

Lemma dependents_never_removed_witness :
  "a" ∈ getDependents
          (runCalls emptyGraph ([mkCall "a" "import 'b'" true] ++ [mkCall "a" "" true]))
          "b".
Proof.
  apply (dependents_never_removed [mkCall "a" "import 'b'" true]
           [mkCall "a" "" true] "a" "b").
  vm_compute. left.
Defined.

(** ** [getUpdateChain] of a module that nothing else depends on *)

(** X5. The update chain is the changed file alone exactly when no other
    module is recorded as its dependent; in particular for an id the graph
    has never seen. *)
Theorem update_chain_singleton (g : ModuleGraph) (x : string) :
  getUpdateChain g x = Some [x] <-> (forall d, d ∈ getDependents g x -> d = x).
Proof.
  destruct (getUpdateChain_walk g x) as (post & Hrun & Hnd & Hreach & _).
  rewrite Hrun. split.
  - intros [= Hrev] d Hd.
    assert (d ∈ post ++ [x]) as Hin.
    { apply Hreach. eapply reach_step; [set_solver|exact Hd|].
      apply reach_refl. set_solver. }
    apply elem_of_reverse in Hin. rewrite Hrev in Hin.
    by apply list_elem_of_singleton in Hin.
  - intros Hself. f_equal.
    assert (Hall : forall y, y ∈ post ++ [x] -> y = x).
    { intros y Hy. apply Hreach in Hy. unfold reachesDependent in Hy.
      remember x as x0 eqn:Hx0 in Hy at 1.
      induction Hy as [|a b c _ Hedge _ IH]; [done|]. subst a.
      apply IH. by apply Hself. }
    destruct post as [|p post]; [done|]. exfalso.
    assert (p = x) as -> by (apply Hall; left).
    simpl in Hnd. apply NoDup_cons in Hnd as [Hnot _]. apply Hnot.
    apply elem_of_app. right. left.
Qed.

(** ** The cycle report is memoised per version and never stale *)

Lemma detect_total g :
  graph_inv g -> exists comps, detectStronglyConnectedComponents g = Some comps.
Proof.
  intros Hinv.
  destruct (first_pass g Hinv) as (visited & order & Hrun1 & Hnd & Hreach & Hlate).
  destruct (collect_all g Hinv order Hnd Hreach Hlate (reverse order) ∅ []
              (collect_start g Hinv order Hnd Hreach Hlate))
    as (visited' & comps & Hrun2 & _).
  exists comps. unfold detectStronglyConnectedComponents. rewrite Hrun1.
  cbn [fst snd]. by rewrite Hrun2.
Qed.

Lemma cacheGet_set key cycles cache :
  cacheGet key (cacheSet key cycles cache) = Some cycles.
Proof.
  induction cache as [|[k v] cache IH]; simpl.
  - by rewrite decide_True.
  - destruct (decide (key = k)) as [->|Hne]; simpl.
    + by rewrite decide_True.
    + by rewrite decide_False.
Qed.

Lemma graph_inv_cache g cache :
  graph_inv g ->
  graph_inv (mkGraph (modules g) (dependencyGraph g) (reverseDependencyGraph g)
                     cache (version g)).
Proof. intros [Hb Hr Hk Hn]. by split. Qed.

Lemma forEachM_ext {A St} (body body' : A -> St -> option St) l :
  (forall a st, body a st = body' a st) ->
  forall st, forEachM body l st = forEachM body' l st.
Proof.
  intros Hext. induction l as [|a l IH]; intros st; simpl; [done|].
  rewrite Hext. destruct (body' a st); [apply IH|done].
Qed.

Lemma sccVisit_ext g g' :
  dependencyGraph g = dependencyGraph g' ->
  forall fuel i st, sccVisit g fuel i st = sccVisit g' fuel i st.
Proof.
  intros Hdg fuel. induction fuel as [|fuel IH]; intros i [visited order]; simpl;
    [done|].
  destruct (decide (i ∈ visited)); [done|].
  unfold importsOf. rewrite Hdg. by rewrite (forEachM_ext _ _ _ IH).
Qed.

Lemma detect_cache g cache :
  detectStronglyConnectedComponents
    (mkGraph (modules g) (dependencyGraph g) (reverseDependencyGraph g)
             cache (version g)) =
  detectStronglyConnectedComponents g.
Proof.
  unfold detectStronglyConnectedComponents.
  change (sccFuel (mkGraph _ _ _ cache _)) with (sccFuel g).
  cbn [modules dependencyGraph].
  by rewrite (forEachM_ext _ _ _
       (sccVisit_ext (mkGraph (modules g) (dependencyGraph g)
                              (reverseDependencyGraph g) cache (version g))
                     g eq_refl (sccFuel g))).
Qed.

Lemma applyOp_inv g op :
  graph_inv g /\ cacheFresh g -> graph_inv (applyOp g op) /\ cacheFresh (applyOp g op).
Proof.
  intros [Hinv Hfresh]. destruct op as [[i code hmr]|]; simpl.
  - split; [by apply updateModule_inv|].
    unfold applyCall, cacheFresh, updateModule. cbn [circularDependencyCache cacheGet].
    intros cycles H. discriminate H.
  - unfold getCircularDependencies.
    destruct (cacheGet (version g) (circularDependencyCache g)) as [c|] eqn:Hget;
      [done|].
    destruct (detect_total g Hinv) as [comps Hrun]. rewrite Hrun.
    split; [by apply graph_inv_cache|].
    unfold cacheFresh. cbn [version circularDependencyCache].
    rewrite cacheGet_set. intros cycles [= <-]. by rewrite detect_cache.
Qed.

Lemma runOps_inv ops :
  graph_inv (runOps emptyGraph ops) /\ cacheFresh (runOps emptyGraph ops).
Proof.
  induction ops as [|op ops IH] using rev_ind.
  - split; [apply emptyGraph_inv|]. intros cycles H. discriminate H.
  - unfold runOps. rewrite foldl_app. simpl. by apply applyOp_inv.
Qed.

(** X6. After any sequence of [updateModule] and [getCircularDependencies]
    calls, [getCircularDependencies] returns the components of the current
    graph, never a report cached for an earlier one; it changes nothing but
    the cache, and a second call returns the same report from the cache. *)
Theorem circular_report_never_stale (ops : list GraphOp) :
  exists g' cycles,
    getCircularDependencies (runOps emptyGraph ops) = Some (g', cycles) /\
    detectStronglyConnectedComponents (runOps emptyGraph ops) = Some cycles /\
    getCircularDependencies g' = Some (g', cycles) /\
    modules g' = modules (runOps emptyGraph ops) /\
    dependencyGraph g' = dependencyGraph (runOps emptyGraph ops) /\
    reverseDependencyGraph g' = reverseDependencyGraph (runOps emptyGraph ops) /\
    version g' = version (runOps emptyGraph ops).
Proof.
  destruct (runOps_inv ops) as [Hinv Hfresh].
  set (g := runOps emptyGraph ops) in *.
  unfold getCircularDependencies at 1.
  destruct (cacheGet (version g) (circularDependencyCache g)) as [c|] eqn:Hget.
  - exists g, c. split; [done|]. split; [by apply Hfresh|].
    unfold getCircularDependencies. by rewrite Hget.
  - destruct (detect_total g Hinv) as [comps Hrun]. rewrite Hrun.
    eexists _, comps. split; [done|]. split; [done|].
    unfold getCircularDependencies. cbn [version circularDependencyCache].
    by rewrite cacheGet_set.
Qed.

(** ** The cycles reported by [getUpdateChain] *)

Lemma is_walk_suffix succ l1 : forall l2, is_walk succ (l1 ++ l2) -> is_walk succ l2.
Proof.
  induction l1 as [|a l1 IH]; intros l2; simpl; [done|].
  destruct (l1 ++ l2) as [|b l] eqn:Heq.
  - apply app_eq_nil in Heq as [_ ->]. done.
  - intros [_ Hw]. apply IH. by rewrite Heq.
Qed.

Lemma is_walk_snoc succ l a b :
  is_walk succ (l ++ [a]) -> b ∈ succ a -> is_walk succ ((l ++ [a]) ++ [b]).
Proof.
  induction l as [|c l IH]; simpl; [done|].
  intros Hw Hb. destruct (l ++ [a]) as [|c' l'] eqn:Heq.
  - by destruct l.
  - simpl. destruct Hw as [Hc Hw]. split; [done|]. by apply IH.
Qed.

Lemma is_walk_reach succ l : forall a k b,
  is_walk succ (a :: l) -> (a :: l) !! k = Some b -> reach (edge succ) ∅ a b.
Proof.
  induction l as [|c l IH]; intros a k b Hw Hk.
  - destruct k as [|k]; [|done]. injection Hk as <-.
    apply reach_refl. set_solver.
  - destruct k as [|k].
    + injection Hk as <-. apply reach_refl. set_solver.
    + destruct Hw as [Hc Hw]. eapply reach_step; [set_solver|exact Hc|].
      by eapply IH.
Qed.

Lemma dependents_first_snoc g l i :
  dependents_first g l -> (forall d, d ∈ getDependents g i -> d ∈ l) ->
  dependents_first g (l ++ [i]).
Proof.
  intros Hl Hi k u v Hk Hv.
  destruct (decide (k < length l)) as [Hlt|Hge].
  - rewrite lookup_app_l in Hk by done.
    destruct (Hl k u v Hk Hv) as (k' & Hlt' & Hk').
    exists k'. split; [done|]. rewrite lookup_app_l by lia. done.
  - rewrite lookup_app_r in Hk by lia.
    destruct (k - length l) as [|n] eqn:Hn; [|done]. injection Hk as <-.
    destruct (list_elem_of_lookup_1 _ _ (Hi v Hv)) as [k' Hk'].
    pose proof (lookup_lt_Some _ _ _ Hk').
    exists k'. split; [lia|]. by rewrite lookup_app_l.
Qed.

(** Along a path of reverse edges the positions in such a list go down. *)
Lemma dependents_first_reach g l a b :
  dependents_first g l -> reachesDependent g a b ->
  forall ka, l !! ka = Some a -> exists kb, l !! kb = Some b /\ kb <= ka.
Proof.
  intros Hl Hab. induction Hab as [a _|a y b _ Hedge _ IH]; intros ka Hka.
  - by exists ka.
  - destruct (Hl ka a y Hka Hedge) as (ky & Hlt & Hky).
    destruct (IH ky Hky) as (kb & Hkb & Hle). exists kb. split; [done|lia].
Qed.

Lemma chainVisit_cycles g x fuel : forall i path st st',
  chainVisit g fuel i path st = Some st' ->
  chain_pre g x path i st -> chain_post g x [i] st st'.
Proof.
  induction fuel as [|fuel IH]; intros i path st st' Hrun Hpre; [done|].
  assert (Hloop : forall ds path' st1 st2,
    forEachM (fun depId => chainVisit g fuel depId path') ds st1 = Some st2 ->
    (forall d, d ∈ ds -> head (path' ++ [d]) = Some x /\
                         is_walk (getDependents g) (path' ++ [d])) ->
    ch_recursionStack st1 = list_to_set path' ->
    ch_visited st1 = ch_recursionStack st1 ∪ list_to_set (ch_result st1) ->
    chain_post g x ds st1 st2).
  { clear i path st st' Hrun Hpre.
    induction ds as [|d ds IHds]; intros path' st1 st2 Hrun Hds Hstack Hvis.
    - injection Hrun as <-. split; [done|done|by exists []; rewrite app_nil_r| |].
      + exists []. by rewrite app_nil_r.
      + intros _ Hord. split; [done|]. by intros d ?%elem_of_nil.
    - simpl in Hrun.
      destruct (chainVisit g fuel d path' st1) as [stm|] eqn:Hd; [|done].
      destruct (Hds d) as [Hhead Hwalk]; [left|].
      destruct (IH d path' st1 stm Hd) as [Qs Qv [new Qr] (extra & Qc & Qf) Qq].
      { by split. }
      destruct (IHds path' stm st2 Hrun) as [Rs Rv [new' Rr] (extra' & Rc & Rf) Rq].
      { intros d' Hd'. apply Hds. by right. }
      { by rewrite Qs. }
      { done. }
      split.
      + by rewrite Rs.
      + done.
      + exists (new ++ new'). by rewrite Rr, Qr, app_assoc.
      + exists (extra ++ extra'). split; [by rewrite Rc, Qc, app_assoc|].
        by apply Forall_app.
      + intros Hsame Hord.
        assert (extra = [] /\ extra' = []) as [-> ->].
        { rewrite Rc, Qc, <- app_assoc in Hsame.
          apply (f_equal length) in Hsame. rewrite !length_app in Hsame.
          split; apply nil_length_inv; lia. }
        rewrite app_nil_r in Qc, Rc.
        destruct (Qq Qc Hord) as [Hord1 Hin1].
        destruct (Rq Rc Hord1) as [Hord2 Hin2].
        split; [done|]. intros d' [->|Hd']%elem_of_cons; [|by apply Hin2].
        rewrite Rr. apply elem_of_app. left. apply Hin1. left. }
  destruct Hpre as [Hstack Hhead Hwalk Hvis].
  simpl in Hrun.
  destruct (decide (i ∈ ch_recursionStack st)) as [Hon|Hoff].
  - injection Hrun as <-. split; cbn [ch_recursionStack ch_visited ch_result ch_cycles].
    + done.
    + done.
    + exists []. by rewrite app_nil_r.
    + exists [path ++ [i]]. split; [done|]. apply Forall_singleton.
      split; [done|]. split; [done|]. exists path, i. split; [done|].
      rewrite Hstack in Hon. by apply elem_of_list_to_set in Hon.
    + intros Hsame. apply (f_equal length) in Hsame.
      rewrite length_app in Hsame. simpl in Hsame. lia.
  - destruct (decide (i ∈ ch_visited st)) as [Hseen|Hnew].
    + injection Hrun as <-. split.
      * done.
      * done.
      * exists []. by rewrite app_nil_r.
      * exists []. by rewrite app_nil_r.
      * intros _ Hord. split; [done|]. intros d ->%list_elem_of_singleton.
        rewrite Hvis in Hseen. apply elem_of_union in Hseen as [?|Hres]; [done|].
        by apply elem_of_list_to_set in Hres.
    + destruct (forEachM _ (getDependents g i) _) as [st2|] eqn:Hfor; [|done].
      injection Hrun as <-.
      destruct (Hloop _ _ _ _ Hfor) as [Rs Rv [new Rr] (extra & Rc & Rf) Rq];
        cbn [ch_recursionStack ch_visited ch_result ch_cycles] in *.
      { intros d Hd. split.
        - destruct path; done.
        - by apply is_walk_snoc. }
      { rewrite Hstack, list_to_set_app_L. simpl. set_solver. }
      { rewrite Hvis. set_solver. }
      split; cbn [ch_recursionStack ch_visited ch_result ch_cycles].
      * rewrite Rs. set_solver.
      * rewrite Rv, Rs, list_to_set_app_L. simpl. set_solver.
      * exists (new ++ [i]). by rewrite Rr, app_assoc.
      * by exists extra.
      * intros Hsame Hord. destruct (Rq Hsame Hord) as [Hord2 Hin2].
        split.
        -- by apply dependents_first_snoc.
        -- intros d ->%list_elem_of_singleton. apply elem_of_app. right. left.
Qed.

(** X7. [getUpdateChain] finds a cycle exactly when the changed file reaches
    a module that lies on a cycle of reverse edges, and every cycle it
    reports is a walk along reverse edges from the changed file that ends in
    a module it has passed before. *)
Theorem update_chain_cycle_report (g : ModuleGraph) (x : string) :
  exists chain cycles,
    getUpdateChainWithCycles g x = Some (chain, cycles) /\
    (cycles = [] <-> noDependentCycle g x) /\
    Forall (reported_cycle g x) cycles.
Proof.
  destruct (getUpdateChain_walk g x) as (post & Hrun & Hnd & Hreach & _).
  unfold getUpdateChain, getUpdateChainWithCycles in *.
  destruct (chainVisit g (chainFuel g) x [] (mkChain ∅ ∅ [] [])) as [st|] eqn:Hvisit;
    [|done].
  simpl in Hrun. injection Hrun as Hres. apply (inj reverse) in Hres.
  destruct (chainVisit_cycles g x _ _ _ _ _ Hvisit)
    as [_ _ _ (extra & Hc & Hf) Hq].
  { split; [done|done|done|]. simpl. set_solver. }
  simpl in Hc. subst extra. simpl in Hq.
  eexists _, _. split; [done|]. split; [|done]. split.
  - intros Hnone. destruct (Hq Hnone) as [Hord _].
    { by intros k u v ?. }
    rewrite Hres in Hord. intros m d Hm Hd Hdm.
    apply Hreach in Hm. destruct (list_elem_of_lookup_1 _ _ Hm) as [km Hkm].
    destruct (Hord km m d Hkm Hd) as (kd & Hlt & Hkd).
    destruct (dependents_first_reach g _ d m Hord Hdm kd Hkd) as (km' & Hkm' & Hle).
    pose proof (NoDup_lookup _ _ _ _ Hnd Hkm Hkm'). lia.
  - intros Hacyc. destruct (ch_cycles st) as [|c cs]; [done|]. exfalso.
    apply Forall_cons in Hf as [(Hhead & Hwalk & p & j & -> & Hj) _].
    apply list_elem_of_split in Hj as (p1 & p2 & ->).
    assert (exists q m, j :: p2 = q ++ [m]) as (q & m & Hq2).
    { destruct p2 as [|b p2 _] using rev_ind.
      - by exists [], j.
      - by exists (j :: p2), b. }
    assert (Hall : (p1 ++ j :: p2) ++ [j] = (p1 ++ q) ++ [m; j]).
    { rewrite Hq2, <- !app_assoc. done. }
    apply (Hacyc m j).
    + destruct ((p1 ++ j :: p2) ++ [j]) as [|a rest] eqn:Hc; [done|].
      injection Hhead as ->.
      apply (is_walk_reach _ rest x (length (p1 ++ q)) m Hwalk).
      rewrite Hall. by rewrite lookup_app_r, Nat.sub_diag.
    + rewrite Hall in Hwalk. apply is_walk_suffix in Hwalk. by destruct Hwalk.
    + rewrite <- app_assoc in Hwalk. apply is_walk_suffix in Hwalk.
      apply (is_walk_reach _ (p2 ++ [j]) j (length q) m Hwalk).
      change (j :: p2 ++ [j]) with ((j :: p2) ++ [j]). rewrite Hq2, <- app_assoc.
      by rewrite lookup_app_r, Nat.sub_diag.
Qed.

(** ** The client runtime *)

Module ClientRuntimeFacts.
Import ClientRuntime.

Section Facts.
Context {World Value : Type}.
Implicit Types (env : Env World) (m : ModuleRecord World Value).

Lemma forEachCallback_clean {A} (ev : string -> Event) (arg : A)
    (cbs : list (Callback World Value A)) env w' :
  runsClean arg cbs (world env) w' ->
  forEachCallback ev arg cbs env =
    (mkEnv w' (trace env ++ map (fun cb => ev (cb_name cb)) cbs), None).
Proof.
  revert env. induction cbs as [|cb cbs IH]; intros env Hrun;
    inversion Hrun as [|? ? ? w1 ? Hcb Hrest]; subst; simpl.
  - rewrite app_nil_r. by destruct env.
  - rewrite Hcb. rewrite (IH (mkEnv w1 (trace env ++ [ev (cb_name cb)]))) by done.
    simpl. by rewrite <- app_assoc.
Qed.

Lemma forEachCallback_throw {A} (ev : string -> Event) (arg : A)
    (cbs1 cbs2 : list (Callback World Value A)) cb env w1 w2 e :
  runsClean arg cbs1 (world env) w1 ->
  cb_body cb arg w1 = (w2, Some e) ->
  forEachCallback ev arg (cbs1 ++ cb :: cbs2) env =
    (mkEnv w2 (trace env ++ map (fun cb => ev (cb_name cb)) (cbs1 ++ [cb])), Some e).
Proof.
  revert env. induction cbs1 as [|c cbs1 IH]; intros env Hrun Hcb;
    inversion Hrun as [|? ? ? w0 ? Hc Hrest]; subst; simpl.
  - by rewrite Hcb.
  - rewrite Hc. rewrite (IH (mkEnv w0 (trace env ++ [ev (cb_name c)]))) by done.
    simpl. by rewrite <- app_assoc.
Qed.


(** [hot.dispose(cb)] registers [cb] after the callbacks already there. *)
Lemma dispose_registers_last m (cb : Callback World Value unit) :
  disposeCallbacks (dispose cb m) = disposeCallbacks m ++ [cb].
Proof. done. Qed.

(** [hot.accept()] sets [isAccepted] and nothing else. *)
Lemma accept_no_argument m :
  isAccepted (hot (accept None m)) = true /\
  acceptCallbacks (accept None m) = acceptCallbacks m /\
  disposeCallbacks (accept None m) = disposeCallbacks m /\
  isDeclined (hot (accept None m)) = isDeclined (hot m).
Proof. done. Qed.

(** [hot.accept(cb)] appends the callback to the record's accept-callback
    list and leaves [isAccepted] as it was, so on a record that was not
    accepted the flag stays false. *)
Lemma accept_callback_leaves_flag m (cb : Callback World Value Value) :
  acceptCallbacks (accept (Some cb) m) = acceptCallbacks m ++ [cb] /\
  isAccepted (hot (accept (Some cb) m)) = isAccepted (hot m).
Proof. done. Qed.

(** [ClientModuleSystem.accept] sets the flag with or without a callback. *)
Lemma moduleSystemAccept_sets_flag url callback
    (mods mods' : gmap string (HotModuleState World Value)) :
  moduleSystemAccept url callback mods = Some mods' ->
  isAccepted <$> mods' !! url = Some true.
Proof.
  unfold moduleSystemAccept. destruct (mods !! url) as [h|]; [|done].
  intros [= <-]. rewrite lookup_insert_eq. by destruct callback.
Qed.

Variable importModule : string -> World -> World * (Value + Value).

End Facts.

(** C4 (failing input).  On a fresh record, [hot.accept(cb)] with a
    callback registers the callback and leaves [isAccepted] false, where
    the claim has it set to true; [hot.accept()] sets it, and so does
    [ClientModuleSystem.accept] with the same callback. *)
Theorem accept_callback_fresh_record :
  acceptCallbacks (accept (Some (listen "cb")) (freshRecord "")) = [listen "cb"] /\
  isAccepted (hot (accept (Some (listen "cb")) (freshRecord ""))) = false /\
  isAccepted (hot (accept None (freshRecord (World := nat) ""))) = true /\
  (isAccepted <$>
     (moduleSystemAccept "m.js" (Some (listen "cb"))
        {["m.js" := mkHot "" [] [] false false]} ≫= (.!! "m.js"))) = Some true.
Proof. vm_compute. done. Qed.



Example calm_update_trace :
  (applyUpdate sampleImport "m.js" calmState (mkEnv 0 [])).1.2 =
    mkEnv 3 [EvDispose "d1"; EvDispose "d2"; EvImport "m.js"; EvAccept "a1"].
Proof. vm_compute. done. Qed.
End ClientRuntimeFacts.

(** * More about the client runtime *)

Module ClientRuntimeMore.
Import ClientRuntime ClientRuntimeSpec ClientRuntimeFacts.

Section Facts.
Context {World Value : Type}.
Implicit Types (env : Env World) (m : ModuleRecord World Value)
               (st : HMRState World Value).
Variable importModule : string -> World -> World * (Value + Value).




(** X13. When no dispose callback throws and the import succeeds, the accept
    callbacks run after the import, in registration order, each with the new
    module, which becomes the exports of the record.  If one of them
    throws, the error is caught and logged, the callbacks after it do not
    run, and the exports are replaced all the same. *)
Theorem accept_callbacks_after_import file st env m w1 w2 newModule :
  modules st !! file = Some m ->
  runsClean tt (disposeCallbacks m) (world env) w1 ->
  importModule file w1 = (w2, inl newModule) ->
  (forall w3, runsClean newModule (acceptCallbacks m) w2 w3 ->
     (applyUpdate importModule file st env).1.2 =
       mkEnv w3 (trace env
                 ++ map (fun cb => EvDispose (cb_name cb)) (disposeCallbacks m)
                 ++ EvImport file
                 :: map (fun cb => EvAccept (cb_name cb)) (acceptCallbacks m))) /\
  (forall as1 a as2 w3 w4 e,
     acceptCallbacks m = as1 ++ a :: as2 ->
     runsClean newModule as1 w2 w3 ->
     cb_body a newModule w3 = (w4, Some e) ->
     (applyUpdate importModule file st env).1.2 =
       mkEnv w4 (trace env
                 ++ map (fun cb => EvDispose (cb_name cb)) (disposeCallbacks m)
                 ++ EvImport file
                 :: map (fun cb => EvAccept (cb_name cb)) (as1 ++ [a])
                 ++ [EvConsoleError file])) /\
  (applyUpdate importModule file st env).2 = None /\
  exports <$> modules (applyUpdate importModule file st env).1.1 !! file
    = Some newModule.
Proof.
  intros Hm Hclean Himport. unfold applyUpdate. rewrite Hm.
  rewrite (forEachCallback_clean EvDispose tt _ env w1 Hclean). cbn [world trace].
  rewrite Himport.
  split; [|split].
  - intros w3 Hacc.
    rewrite (forEachCallback_clean EvAccept newModule _ (mkEnv w2 _) w3 Hacc). simpl.
    by rewrite <- !app_assoc.
  - intros as1 a as2 w3 w4 e Has Hacc Ha. rewrite Has.
    rewrite (forEachCallback_throw EvAccept newModule as1 as2 a (mkEnv w2 _) w3 w4 e Hacc Ha).
    simpl. unfold emit. simpl. by rewrite <- !app_assoc.
  - destruct (forEachCallback EvAccept newModule (acceptCallbacks m) _)
      as [env3 [e|]]; simpl; by rewrite lookup_insert_eq.
Qed.

(** X14. The flags [isAccepted] and [isDeclined] have no influence on an
    update: whatever they are, in particular after [hot.decline()], the
    same callbacks run, the module is imported, and the outcome is the same. *)
Theorem flags_do_not_stop_updates file st env m accepted declined :
  modules st !! file = Some m ->
  (applyUpdate importModule file
     (mkState (<[file := withFlags accepted declined m]> (modules st))
              (pendingUpdates st) (isApplyingUpdates st)) env).1.2 =
  (applyUpdate importModule file st env).1.2 /\
  (applyUpdate importModule file
     (mkState (<[file := withFlags accepted declined m]> (modules st))
              (pendingUpdates st) (isApplyingUpdates st)) env).2 =
  (applyUpdate importModule file st env).2 /\
  decline m = withFlags (isAccepted (hot m)) true m.
Proof.
  intros Hm. unfold applyUpdate. cbn [modules]. rewrite lookup_insert_eq, Hm.
  cbn [withFlags disposeCallbacks acceptCallbacks].
  destruct (forEachCallback EvDispose tt (disposeCallbacks m) env) as [env1 [e|]];
    [done|].
  destruct (importModule file (world env1)) as [w2 [newModule|err]]; [|done].
  destruct (forEachCallback EvAccept newModule (acceptCallbacks m) _) as [env3 [e|]];
    done.
Qed.
End Facts.

Lemma accept_callbacks_after_import_witness :
  (applyUpdate sampleImport "m.js" calmState (mkEnv 0 [])).1.2 =
    mkEnv 3 [EvDispose "d1"; EvDispose "d2"; EvImport "m.js"; EvAccept "a1"].
Proof.
  apply (proj1 (accept_callbacks_after_import sampleImport "m.js" calmState
                  (mkEnv 0 []) calmRecord 2 2 "new m.js" eq_refl
                  (clean_cons tt (tick "d1") [tick "d2"] 0 1 2 eq_refl
                     (clean_cons tt (tick "d2") [] 1 2 2 eq_refl (clean_nil tt 2)))
                  eq_refl) 3).
  exact (clean_cons "new m.js" (listen "a1") [] 2 3 3 eq_refl (clean_nil _ 3)).
Defined.

Lemma flags_do_not_stop_updates_witness :
  (applyUpdate sampleImport "m.js"
     (mkState (<["m.js" := withFlags false true calmRecord]> (modules calmState))
              (pendingUpdates calmState) (isApplyingUpdates calmState))
     (mkEnv 0 [])).1.2 =
  (applyUpdate sampleImport "m.js" calmState (mkEnv 0 [])).1.2.
Proof.
  apply (proj1 (flags_do_not_stop_updates sampleImport "m.js" calmState (mkEnv 0 [])
                  calmRecord false true eq_refl)).
Defined.

End ClientRuntimeMore.

(** ** The server *)

Module ServerFacts.
Import Server ServerSpec.

(** *** C10: no empty client set *)

Lemma socketAdd_nonempty ws s : socketAdd ws s ≠ [].
Proof.
  unfold socketAdd. destruct (decide (ws ∈ s)) as [Hin|Hin].
  - intros ->. by apply elem_of_nil in Hin.
  - by destruct s.
Qed.

Lemma onMessage_nonempty ws data st :
  allNonEmpty (clientModules st) -> allNonEmpty (clientModules (onMessage ws data st)).
Proof.
  intros Hall. unfold onMessage.
  destruct (connectionModules st !! ws) as [mine|]; [|done].
  destruct data as [|type file]; [done|].
  destruct (decide (type = "module-loaded")); [|done]. simpl.
  intros f clients.
  destruct (clientModules st !! file) as [cs|] eqn:Hfile.
  - rewrite Hfile. destruct (decide (file = f)) as [->|Hne].
    + rewrite lookup_insert_eq. intros [= <-]. apply socketAdd_nonempty.
    + rewrite lookup_insert_ne by done. apply Hall.
  - rewrite lookup_insert_eq. destruct (decide (file = f)) as [->|Hne].
    + rewrite lookup_insert_eq. intros [= <-]. apply socketAdd_nonempty.
    + rewrite !lookup_insert_ne by done. apply Hall.
Qed.

Lemma forgetClient_nonempty ws cm file :
  allNonEmpty cm -> allNonEmpty (forgetClient ws cm file).
Proof.
  intros Hall. unfold forgetClient.
  destruct (cm !! file) as [clients|] eqn:Hfile; [|done].
  destruct (length (socketDelete ws clients) =? 0) eqn:Hlen.
  - intros f cs. destruct (decide (file = f)) as [->|Hne].
    + by rewrite lookup_delete_eq.
    + rewrite lookup_delete_ne by done. apply Hall.
  - apply Nat.eqb_neq in Hlen. intros f cs.
    destruct (decide (file = f)) as [->|Hne].
    + rewrite lookup_insert_eq. intros [= <-] Hnil. by rewrite Hnil in Hlen.
    + rewrite lookup_insert_ne by done. apply Hall.
Qed.

(** A key whose client set becomes empty is removed. *)
Lemma forgetClient_last ws cm file :
  cm !! file = Some [ws] -> forgetClient ws cm file !! file = None.
Proof.
  intros H. unfold forgetClient, socketDelete. rewrite H.
  rewrite filter_cons_False, filter_nil by (intros ?; done). simpl.
  apply lookup_delete_eq.
Qed.

Lemma onClose_nonempty ws st :
  allNonEmpty (clientModules st) -> allNonEmpty (clientModules (onClose ws st)).
Proof.
  intros Hall. unfold onClose.
  destruct (connectionModules st !! ws) as [mine|]; [|done]. simpl.
  revert Hall. generalize (clientModules st).
  induction mine as [|f mine IH]; intros cm Hall; simpl; [done|].
  apply IH. by apply forgetClient_nonempty.
Qed.

Lemma handle_nonempty st ev :
  allNonEmpty (clientModules st) -> allNonEmpty (clientModules (handle st ev)).
Proof.
  destruct ev as [ws|ws data|ws]; simpl.
  - unfold onConnection. by destruct (connectionModules st !! ws).
  - apply onMessage_nonempty.
  - apply onClose_nonempty.
Qed.

(** C10. After any sequence of connection, client-message and close events
    handled by the server, every file key of [clientModules] maps to a
    non-empty set of sockets. *)
Theorem client_sets_nonempty (evs : list SocketEvent) (file : string)
    (clients : list nat) :
  clientModules (handleAll newServer evs) !! file = Some clients ->
  clients ≠ [].
Proof.
  revert file clients. change (allNonEmpty (clientModules (handleAll newServer evs))).
  induction evs as [|ev evs IH] using rev_ind.
  - intros file clients H. cbn in H. by rewrite lookup_empty in H.
  - unfold handleAll. rewrite foldl_app. simpl. by apply handle_nonempty.
Qed.

Lemma client_sets_nonempty_witness :
  clientModules
    (handleAll newServer
       [Connection 1; Connection 2;
        ClientMessage 1 (Parsed "module-loaded" "a.ts");
        ClientMessage 2 (Parsed "module-loaded" "a.ts");
        ClientMessage 2 (Parsed "module-loaded" "b.ts");
        Close 2]) !! "a.ts" = Some [1] /\ [1] ≠ [].
Proof.
  split; [reflexivity|].
  apply (client_sets_nonempty
           [Connection 1; Connection 2;
            ClientMessage 1 (Parsed "module-loaded" "a.ts");
            ClientMessage 2 (Parsed "module-loaded" "a.ts");
            ClientMessage 2 (Parsed "module-loaded" "b.ts");
            Close 2] "a.ts" [1]).
  reflexivity.
Defined.

Example closed_client_key_removed :
  clientModules
    (handleAll newServer
       [Connection 1; Connection 2;
        ClientMessage 1 (Parsed "module-loaded" "a.ts");
        ClientMessage 2 (Parsed "module-loaded" "a.ts");
        ClientMessage 2 (Parsed "module-loaded" "b.ts");
        Close 2]) !! "b.ts" = None.
Proof. reflexivity. Qed.

(** *** Sends *)

Lemma withSent_nil st : withSent st [] = st.
Proof. destruct st. unfold withSent. simpl. by rewrite app_nil_r. Qed.

Lemma withSent_app st l1 l2 : withSent (withSent st l1) l2 = withSent st (l1 ++ l2).
Proof. unfold withSent. simpl. by rewrite app_assoc. Qed.

Lemma sendTo_all msg clients : forall st l,
  foldl (sendTo msg) (withSent st l) clients =
  withSent st (l ++ deliveries st msg clients).
Proof.
  induction clients as [|c clients IH]; intros st l; simpl.
  - unfold deliveries. simpl. by rewrite app_nil_r.
  - unfold sendTo at 2. unfold deliveries.
    change (readyState (withSent st l) c) with (readyState st c).
    destruct (decide (readyState st c = OPEN)) as [Hopen|Hopen].
    + rewrite filter_cons_True by done. simpl.
      change (mkServer _ _ _ _ _ _ _) with (withSent (withSent st l) [(c, msg)]).
      rewrite withSent_app, IH. unfold deliveries. by rewrite <- app_assoc.
    + rewrite filter_cons_False by done. apply IH.
Qed.

Lemma notifyError_sent file err now st :
  notifyError file err now st =
  withSent st (deliveries st (MsgError file err now) (wssClients st)).
Proof.
  unfold notifyError. rewrite <- (withSent_nil st) at 1.
  by rewrite sendTo_all.
Qed.

Lemma notifyClients_sent chain now : forall st l,
  notifyClients (calculateUpdates chain now st) (withSent st l) =
  withSent st (l ++ updateDeliveries st now chain).
Proof.
  unfold notifyClients, updateDeliveries.
  induction chain as [|f chain IH]; intros st l; simpl.
  - by rewrite app_nil_r.
  - rewrite sendTo_all. unfold calculateUpdates in IH. rewrite IH.
    by rewrite <- app_assoc.
Qed.

Lemma elem_of_deliveries st msg clients c m :
  (c, m) ∈ deliveries st msg clients <->
  m = msg /\ c ∈ clients /\ readyState st c = OPEN.
Proof.
  unfold deliveries. rewrite list_elem_of_fmap. split.
  - intros (c' & [= -> ->] & Hin). apply list_elem_of_filter in Hin. tauto.
  - intros (-> & Hin & Hopen). exists c. split; [done|].
    by apply list_elem_of_filter.
Qed.

Section Updates.
Variable hash : string -> string.
Variable esbuildTransform : string -> string -> string + string.
Variable fs : string -> option string.
Variable readError : string.

(** C3 (amended). When the content of the changed file hashes to the hash
    cached for it, processing the change leaves the module graph and the
    module cache as they were and sends no [error] message; it still
    sends an [update] message for every module of the update chain,
    which contains the file, to each client that loaded that module and
    whose socket is open. *)
Theorem unchanged_hash_still_notifies (now : nat) (file : string)
    (st : HMRServer) (content : string) (cached : CacheEntry) :
  fs file = Some content ->
  moduleCache st !! file = Some cached ->
  entry_hash cached = hash content ->
  exists chain st',
    getUpdateChain (moduleGraph st) file = Some chain /\
    file ∈ chain /\
    processUpdate hash esbuildTransform fs readError now file st = Some st' /\
    moduleGraph st' = moduleGraph st /\
    moduleCache st' = moduleCache st /\
    clientModules st' = clientModules st /\
    sent st' = sent st ++ updateDeliveries st now chain.
Proof.
  intros Hfs Hcache Hhash.
  destruct (getUpdateChain_walk (moduleGraph st) file)
    as (post & Hchain & _ & _ & _).
  exists (reverse (post ++ [file])), (withSent st (updateDeliveries st now
                                               (reverse (post ++ [file])))).
  split; [done|]. split.
  { rewrite reverse_snoc. left. }
  split; [|done].
  unfold processUpdate, transformModule. rewrite Hfs, Hcache.
  rewrite decide_True by done. rewrite Hchain.
  rewrite <- (withSent_nil st) at 2. by rewrite notifyClients_sent.
Qed.

(** C8 (amended). When the transform of the file fails, the server sends
    one [error] message to every connected client whose socket is open,
    whether or not that client reported loading the file, and to no
    other client; no [update] message is sent and the graph and the cache
    are left as they were. *)
Theorem transform_error_broadcast (now : nat) (file : string)
    (st : HMRServer) (content err : string) :
  fs file = Some content ->
  (forall cached, moduleCache st !! file = Some cached ->
                  entry_hash cached ≠ hash content) ->
  esbuildTransform file content = inr err ->
  exists st',
    processUpdate hash esbuildTransform fs readError now file st = Some st' /\
    sent st' = sent st ++ deliveries st (MsgError file err now) (wssClients st) /\
    moduleGraph st' = moduleGraph st /\
    moduleCache st' = moduleCache st /\
    (forall c m, (c, m) ∈ deliveries st (MsgError file err now) (wssClients st) <->
       m = MsgError file err now /\ c ∈ wssClients st /\ readyState st c = OPEN).
Proof.
  intros Hfs Hmiss Herr.
  exists (withSent st (deliveries st (MsgError file err now) (wssClients st))).
  split; [|split; [done|split; [done|split; [done|]]]].
  - unfold processUpdate, transformModule. rewrite Hfs.
    destruct (moduleCache st !! file) as [cached|] eqn:Hc.
    + rewrite decide_False by by apply Hmiss.
      rewrite Herr. by rewrite notifyError_sent.
    + rewrite Herr. by rewrite notifyError_sent.
  - intros c m. apply elem_of_deliveries.
Qed.
End Updates.

Lemma unchanged_hash_still_notifies_witness :
  sampleFs "a.ts" = Some "export const a = 1" /\
  exists chain st',
    getUpdateChain (moduleGraph sampleServer) "a.ts" = Some chain /\
    "a.ts" ∈ chain /\
    processUpdate sampleHash sampleTransform sampleFs "ENOENT" 7 "a.ts" sampleServer
      = Some st' /\
    moduleGraph st' = moduleGraph sampleServer /\
    moduleCache st' = moduleCache sampleServer /\
    clientModules st' = clientModules sampleServer /\
    sent st' = sent sampleServer ++ updateDeliveries sampleServer 7 chain.
Proof.
  split; [reflexivity|].
  apply (unchanged_hash_still_notifies sampleHash sampleTransform sampleFs "ENOENT"
           7 "a.ts" sampleServer "export const a = 1"
           (mkEntry "export const a = 1" (sampleHash "export const a = 1")));
    reflexivity.
Defined.

(** C3 (counterexample).  The content of [a.ts] hashes to the cached hash,
    client 1 loaded [a.ts] and its socket is open: processing the change
    sends it an [update] message. *)
Lemma unchanged_hash_sends_update :
  (entry_hash <$> moduleCache sampleServer !! "a.ts") =
    (sampleHash <$> sampleFs "a.ts") /\
  (sent <$> processUpdate sampleHash sampleTransform sampleFs "ENOENT" 7 "a.ts"
              sampleServer) = Some [(1, MsgUpdate "a.ts" 7)].
Proof. vm_compute. done. Qed.

Lemma transform_error_broadcast_witness :
  sampleFs "bad.ts" = Some "syntax error" /\
  exists st',
    processUpdate sampleHash sampleTransform sampleFs "ENOENT" 7 "bad.ts" sampleServer
      = Some st' /\
    sent st' = sent sampleServer ++
               deliveries sampleServer (MsgError "bad.ts" "parse failed" 7)
                          (wssClients sampleServer) /\
    moduleGraph st' = moduleGraph sampleServer /\
    moduleCache st' = moduleCache sampleServer /\
    (forall c m,
       (c, m) ∈ deliveries sampleServer (MsgError "bad.ts" "parse failed" 7)
                  (wssClients sampleServer) <->
       m = MsgError "bad.ts" "parse failed" 7 /\ c ∈ wssClients sampleServer /\
       readyState sampleServer c = OPEN).
Proof.
  split; [reflexivity|].
  apply (transform_error_broadcast sampleHash sampleTransform sampleFs "ENOENT"
           7 "bad.ts" sampleServer "syntax error" "parse failed").
  - reflexivity.
  - intros cached H. vm_compute in H. discriminate H.
  - reflexivity.
Defined.

(** C8 (counterexample).  The transform of [bad.ts] fails; only client 1
    loaded it, and the [error] message goes to client 2 as well. *)
Lemma transform_error_reaches_other_client :
  clientModules sampleServer !! "bad.ts" = Some [1] /\
  (sent <$> processUpdate sampleHash sampleTransform sampleFs "ENOENT" 7 "bad.ts"
              sampleServer)
    = Some [(1, MsgError "bad.ts" "parse failed" 7);
            (2, MsgError "bad.ts" "parse failed" 7)].
Proof. vm_compute. done. Qed.
End ServerFacts.

(** * More about the server *)

Module ServerRunFacts.
Import Server ServerSpec ServerRun ServerFacts.

Lemma elem_of_concat {A} (x : A) (ls : list (list A)) :
  x ∈ concat ls <-> exists l, x ∈ l /\ l ∈ ls.
Proof.
  induction ls as [|l ls IH]; simpl.
  - split; [by intros ?%elem_of_nil|]. by intros (l & _ & ?%elem_of_nil).
  - rewrite elem_of_app, IH. split.
    + intros [Hx|(l' & Hx & Hl)]; [exists l; split; [done|left]|].
      exists l'. split; [done|by right].
    + intros (l' & Hx & [->|Hl]%elem_of_cons); [by left|]. right. by exists l'.
Qed.

(** ** A module nothing depends on *)

Lemma chain_of_leaf g x :
  getDependents g x = [] -> getUpdateChainWithCycles g x = Some ([x], []).
Proof.
  intros Hx. unfold getUpdateChainWithCycles, chainFuel. simpl.
  rewrite !decide_False by set_solver. rewrite Hx. done.
Qed.

(** ** [transformModule] touches the cache only *)

Section Frame.
Variable hash : string -> string.
Variable esbuildTransform : string -> string -> string + string.

Lemma transformModule_frame fs readError file st :
  let st1 := (transformModule hash esbuildTransform fs readError file st).1 in
  wssClients st1 = wssClients st /\ readyStates st1 = readyStates st /\
  moduleGraph st1 = moduleGraph st /\ clientModules st1 = clientModules st /\
  connectionModules st1 = connectionModules st /\ sent st1 = sent st.
Proof.
  unfold transformModule. destruct (fs file) as [content|]; [|done].
  destruct (match moduleCache st !! file with Some _ => _ | None => _ end); [done|].
  destruct (esbuildTransform file content); done.
Qed.

Lemma deliveries_frame st st1 msg clients :
  readyStates st1 = readyStates st ->
  deliveries st1 msg clients = deliveries st msg clients.
Proof.
  intros Hrs. unfold deliveries, readyState. by rewrite Hrs.
Qed.

(** What [processUpdate] does, in one equation. *)
Lemma processUpdate_sent fs readError now file st :
  exists chain,
    getUpdateChain (moduleGraph st) file = Some chain /\
    processUpdate hash esbuildTransform fs readError now file st =
    Some (withSent (transformModule hash esbuildTransform fs readError file st).1
            match (transformModule hash esbuildTransform fs readError file st).2 with
            | inl _ => updateDeliveries st now chain
            | inr err => deliveries st (MsgError file err now) (wssClients st)
            end).
Proof.
  destruct (getUpdateChain_walk (moduleGraph st) file) as (post & Hchain & _).
  exists (reverse (post ++ [file])). split; [done|].
  pose proof (transformModule_frame fs readError file st) as Hframe.
  unfold processUpdate.
  destruct (transformModule hash esbuildTransform fs readError file st)
    as [st1 [code|err]]; simpl in *;
    destruct Hframe as (Hws & Hrs & Hg & Hcm & _ & _).
  - rewrite Hg, Hchain. rewrite <- (withSent_nil st1) at 2.
    rewrite notifyClients_sent. simpl. do 2 f_equal.
    unfold updateDeliveries. f_equal. apply map_ext. intros f.
    rewrite Hcm. by apply deliveries_frame.
  - rewrite notifyError_sent, Hws. do 2 f_equal. by apply deliveries_frame.
Qed.
End Frame.

(** ** Sets of clients *)

Lemma clientsOf_forgetClient ws cm file f c :
  c ∈ default [] (forgetClient ws cm file !! f) <->
  c ∈ default [] (cm !! f) /\ ~ (c = ws /\ f = file).
Proof.
  unfold forgetClient. destruct (cm !! file) as [clients|] eqn:Hget.
  - destruct (length (socketDelete ws clients) =? 0) eqn:Hlen.
    + apply Nat.eqb_eq, nil_length_inv in Hlen.
      destruct (decide (file = f)) as [<-|Hne].
      * rewrite lookup_delete_eq, Hget. simpl.
        split; [by intros ?%elem_of_nil|]. intros [Hc Hn].
        assert (c ∈ socketDelete ws clients) as Hin.
        { apply list_elem_of_filter. split; [|done]. intros ->. by apply Hn. }
        rewrite Hlen in Hin. by apply elem_of_nil in Hin.
      * rewrite lookup_delete_ne by done. naive_solver.
    + destruct (decide (file = f)) as [<-|Hne].
      * rewrite lookup_insert_eq, Hget. simpl. unfold socketDelete.
        rewrite list_elem_of_filter. naive_solver.
      * rewrite lookup_insert_ne by done. naive_solver.
  - split; [|tauto]. intros Hc. split; [done|]. intros [-> ->].
    rewrite Hget in Hc. by apply elem_of_nil in Hc.
Qed.

Lemma clientsOf_forgetClients ws mine : forall cm f c,
  c ∈ default [] (foldl (forgetClient ws) cm mine !! f) <->
  c ∈ default [] (cm !! f) /\ ~ (c = ws /\ f ∈ mine).
Proof.
  induction mine as [|file mine IH]; intros cm f c; simpl.
  - split; [|tauto]. intros ?. split; [done|]. by intros [_ ?%elem_of_nil].
  - rewrite IH, clientsOf_forgetClient, elem_of_cons. naive_solver.
Qed.

Lemma forgetClient_nodup ws cm file f :
  NoDup (default [] (cm !! f)) -> NoDup (default [] (forgetClient ws cm file !! f)).
Proof.
  intros Hnd. unfold forgetClient. destruct (cm !! file) as [clients|] eqn:Hget;
    [|done].
  destruct (length (socketDelete ws clients) =? 0).
  - destruct (decide (file = f)) as [<-|Hne].
    + rewrite lookup_delete_eq. apply NoDup_nil_2.
    + by rewrite lookup_delete_ne.
  - destruct (decide (file = f)) as [<-|Hne].
    + rewrite lookup_insert_eq. simpl. rewrite Hget in Hnd.
      by apply NoDup_filter.
    + by rewrite lookup_insert_ne.
Qed.

Lemma forgetClients_nodup ws mine f : forall cm,
  NoDup (default [] (cm !! f)) ->
  NoDup (default [] (foldl (forgetClient ws) cm mine !! f)).
Proof.
  induction mine as [|file mine IH]; intros cm Hnd; simpl; [done|].
  by apply IH, forgetClient_nodup.
Qed.

Lemma socketAdd_elem ws s c : c ∈ socketAdd ws s <-> c = ws \/ c ∈ s.
Proof.
  unfold socketAdd. destruct (decide (ws ∈ s)).
  - split; [auto|]. by intros [->|?].
  - rewrite elem_of_app, list_elem_of_singleton. tauto.
Qed.

Lemma socketAdd_nodup ws s : NoDup s -> NoDup (socketAdd ws s).
Proof.
  intros Hs. unfold socketAdd. destruct (decide (ws ∈ s)); [done|].
  apply NoDup_app. split; [done|]. split; [|apply NoDup_singleton].
  intros c Hc ->%list_elem_of_singleton. done.
Qed.

(** The clients of [f] after a ['module-loaded'] message of a connected
    socket. *)
Lemma clientsOf_onMessage ws type file st mine f :
  connectionModules st !! ws = Some mine -> type = "module-loaded" ->
  clientsOf (onMessage ws (Parsed type file) st) f =
  if decide (file = f) then socketAdd ws (clientsOf st f) else clientsOf st f.
Proof.
  intros Hmine ->. unfold onMessage, clientsOf. rewrite Hmine.
  rewrite decide_True by done. cbn [clientModules].
  destruct (clientModules st !! file) as [clients|] eqn:Hget.
  - rewrite Hget. destruct (decide (file = f)) as [<-|Hne].
    + by rewrite lookup_insert_eq, Hget.
    + by rewrite lookup_insert_ne.
  - rewrite lookup_insert_eq. destruct (decide (file = f)) as [<-|Hne].
    + by rewrite lookup_insert_eq, Hget.
    + by rewrite !lookup_insert_ne.
Qed.

Lemma handle_indexed st ev : indexed st -> indexed (handle st ev).
Proof.
  intros [Hmine Hnd Hg]. destruct ev as [ws|ws data|ws]; simpl.
  - unfold onConnection. destruct (connectionModules st !! ws) eqn:Hws; [done|].
    split; [|done|done]. intros f c Hc. cbn [connectionModules].
    destruct (Hmine f c Hc) as (mine & Hget & Hf).
    exists mine. split; [|done]. rewrite lookup_insert_ne; [done|].
    intros ->. by rewrite Hws in Hget.
  - destruct (connectionModules st !! ws) as [mine|] eqn:Hws;
      [|unfold onMessage; by rewrite Hws].
    destruct data as [|type file]; [unfold onMessage; by rewrite Hws|].
    destruct (decide (type = "module-loaded")) as [Htype|Htype];
      [|unfold onMessage; by rewrite Hws, decide_False].
    split.
    + intros f c. rewrite (clientsOf_onMessage ws type file st mine f Hws Htype).
      unfold onMessage. rewrite Hws.
      destruct (decide (type = "module-loaded")); [|done]. cbn [connectionModules].
      intros Hc. destruct (decide (c = ws)) as [->|Hne].
      * rewrite lookup_insert_eq. destruct (decide (file = f)) as [<-|Hnf].
        -- exists (jset_add file mine). split; [done|]. apply jset_add_elem. by left.
        -- destruct (Hmine f ws Hc) as (mine' & Hget & Hf).
           rewrite Hws in Hget. injection Hget as <-.
           exists (jset_add file mine). split; [done|]. apply jset_add_elem. by right.
      * rewrite lookup_insert_ne by done. apply Hmine.
        destruct (decide (file = f)); [|done].
        apply socketAdd_elem in Hc as [?|?]; done.
    + intros f. rewrite (clientsOf_onMessage ws type file st mine f Hws Htype).
      destruct (decide (file = f)); [|done]. by apply socketAdd_nodup.
    + unfold onMessage. by rewrite Hws, decide_True.
  - unfold onClose. destruct (connectionModules st !! ws) as [mine|] eqn:Hws; [|done].
    split; [| |done].
    + intros f c. unfold clientsOf. cbn [clientModules connectionModules].
      rewrite clientsOf_forgetClients. intros [Hc _]. by apply Hmine.
    + intros f. unfold clientsOf. cbn [clientModules].
      by apply forgetClients_nodup, Hnd.
Qed.

Section Lifetime.
Variable hash : string -> string.
Variable esbuildTransform : string -> string -> string + string.

Lemma applyServerOp_indexed st op :
  indexed st -> indexed (applyServerOp hash esbuildTransform st op).
Proof.
  intros Hst. destruct op as [ev|fs readError now file]; simpl.
  - by apply handle_indexed.
  - destruct (processUpdate_sent hash esbuildTransform fs readError now file st)
      as (chain & _ & ->).
    pose proof (transformModule_frame hash esbuildTransform fs readError file st)
      as (_ & _ & Hg & Hcm & Hconn & _).
    destruct Hst as [Hmine Hnd Hgraph]. split.
    + intros f c. unfold clientsOf, withSent. cbn [clientModules connectionModules].
      rewrite Hcm, Hconn. apply Hmine.
    + intros f. unfold clientsOf, withSent. cbn [clientModules]. rewrite Hcm.
      apply Hnd.
    + unfold withSent. cbn [moduleGraph]. by rewrite Hg.
Qed.

Lemma runServer_indexed ops :
  indexed (runServer hash esbuildTransform newServer ops).
Proof.
  induction ops as [|op ops IH] using rev_ind.
  - split; [|intros f; apply NoDup_nil_2|done].
    intros f ws Hws. unfold clientsOf in Hws. simpl in Hws.
    rewrite lookup_empty in Hws. by apply elem_of_nil in Hws.
  - unfold runServer. rewrite foldl_app. simpl. by apply applyServerOp_indexed.
Qed.

(** X8. A server never adds a module to its graph.  So whatever sockets
    connect, report modules and close, and whatever files change, the update
    chain of a changed file is that file alone: when its transform succeeds,
    one [update] message for the file goes to each open client that reported
    loading this very file, and to nobody else. *)
Theorem server_notifies_changed_file_only (ops : list ServerOp)
    (fs : string -> option string) (readError : string) (now : nat)
    (file : string) :
  moduleGraph (runServer hash esbuildTransform newServer ops) = emptyGraph /\
  NoDup (clientsOf (runServer hash esbuildTransform newServer ops) file) /\
  forall code,
    (transformModule hash esbuildTransform fs readError file
       (runServer hash esbuildTransform newServer ops)).2 = inl code ->
    (sent <$> processUpdate hash esbuildTransform fs readError now file
                (runServer hash esbuildTransform newServer ops)) =
    Some (sent (runServer hash esbuildTransform newServer ops) ++
          deliveries (runServer hash esbuildTransform newServer ops)
                     (MsgUpdate file now)
                     (clientsOf (runServer hash esbuildTransform newServer ops) file)).
Proof.
  destruct (runServer_indexed ops) as [_ Hnd Hg].
  set (st := runServer hash esbuildTransform newServer ops) in *.
  split; [done|]. split; [apply Hnd|]. intros code Hcode.
  destruct (processUpdate_sent hash esbuildTransform fs readError now file st)
    as (chain & Hchain & ->).
  rewrite Hcode. rewrite Hg in Hchain.
  unfold getUpdateChain in Hchain. rewrite (chain_of_leaf emptyGraph file) in Hchain
    by done.
  injection Hchain as <-.
  pose proof (transformModule_frame hash esbuildTransform fs readError file st)
    as (_ & _ & _ & _ & _ & Hsent).
  simpl. rewrite Hsent. unfold updateDeliveries. simpl. by rewrite app_nil_r.
Qed.

(** X9. When a socket closes, it is removed from the set of clients of every
    file, and the sets of clients are otherwise as they were. *)
Theorem closed_client_forgotten (ops : list ServerOp) (ws : nat) (f : string) :
  (ws ∉ clientsOf (onClose ws (runServer hash esbuildTransform newServer ops)) f) /\
  forall c, c <> ws ->
    (c ∈ clientsOf (onClose ws (runServer hash esbuildTransform newServer ops)) f <->
     c ∈ clientsOf (runServer hash esbuildTransform newServer ops) f).
Proof.
  destruct (runServer_indexed ops) as [Hmine _ _].
  set (st := runServer hash esbuildTransform newServer ops) in *.
  unfold onClose. destruct (connectionModules st !! ws) as [mine|] eqn:Hws.
  - unfold clientsOf at 1 2. cbn [clientModules]. split.
    + rewrite clientsOf_forgetClients. intros [Hc Hn]. apply Hn. split; [done|].
      destruct (Hmine f ws Hc) as (mine' & Hget & Hf).
      pose proof (eq_trans (eq_sym Hws) Hget) as [= ->]. done.
    + intros c Hne. rewrite clientsOf_forgetClients. unfold clientsOf. naive_solver.
  - split; [|done]. intros Hc. destruct (Hmine f ws Hc) as (mine' & Hget & _).
    pose proof (eq_trans (eq_sym Hws) Hget) as Hno. discriminate Hno.
Qed.

(** X10. Every message that processing a change sends goes to a socket that
    is open; an [update] message goes to a client recorded for the module it
    names, an [error] message names the changed file and goes to a
    connected socket; and one change never produces messages of both
    kinds. *)
Theorem sends_are_allowed (fs : string -> option string) (readError : string)
    (now : nat) (file : string) (st : HMRServer) :
  exists st' l,
    processUpdate hash esbuildTransform fs readError now file st = Some st' /\
    sent st' = sent st ++ l /\
    Forall (allowedSend st file now) l /\
    ((forall s, s ∈ l -> exists f t, s.2 = MsgUpdate f t) \/
     (forall s, s ∈ l -> exists f e t, s.2 = MsgError f e t)).
Proof.
  destruct (processUpdate_sent hash esbuildTransform fs readError now file st)
    as (chain & _ & ->).
  pose proof (transformModule_frame hash esbuildTransform fs readError file st)
    as (_ & _ & _ & _ & _ & Hsent).
  eexists _, _. split; [done|]. split; [simpl; by rewrite Hsent|].
  destruct (transformModule hash esbuildTransform fs readError file st).2
    as [code|err].
  - split.
    + apply Forall_forall. intros [c m] Hin. unfold updateDeliveries in Hin.
      apply elem_of_concat in Hin as (l & Hin & Hl).
      apply list_elem_of_fmap in Hl as (f & -> & _).
      apply elem_of_deliveries in Hin as (-> & Hc & Hopen). by split.
    + left. intros [c m] Hin. unfold updateDeliveries in Hin.
      apply elem_of_concat in Hin as (l & Hin & Hl).
      apply list_elem_of_fmap in Hl as (f & -> & _).
      apply elem_of_deliveries in Hin as (-> & _). by eexists _, _.
  - split.
    + apply Forall_forall. intros [c m] Hin.
      apply elem_of_deliveries in Hin as (-> & Hc & Hopen). by split.
    + right. intros [c m] Hin.
      apply elem_of_deliveries in Hin as (-> & _). by eexists _, _, _.
Qed.

(** X11. Once [transformModule] has returned code for a file, it returns the
    same code without consulting the transformer, and leaves the server as
    it is, for as long as the content read hashes to the same value. *)
Theorem transform_cache_round_trip
    (transform' : string -> string -> string + string)
    (fs fs' : string -> option string) (readError readError' : string)
    (file content content' code : string) (st st1 : HMRServer) :
  transformModule hash esbuildTransform fs readError file st = (st1, inl code) ->
  fs file = Some content -> fs' file = Some content' ->
  hash content' = hash content ->
  transformModule hash transform' fs' readError' file st1 = (st1, inl code).
Proof.
  intros Hrun Hfs Hfs' Hhash. unfold transformModule in *.
  rewrite Hfs in Hrun. rewrite Hfs', Hhash.
  destruct (moduleCache st !! file) as [cached|] eqn:Hc.
  - destruct (decide (entry_hash cached = hash content)) as [Heq|Hne].
    + injection Hrun as <- <-. by rewrite Hc, decide_True.
    + destruct (esbuildTransform file content) as [code'|err]; [|done].
      injection Hrun as <- <-. cbn [moduleCache].
      rewrite lookup_insert_eq. cbn [entry_hash entry_code]. by rewrite decide_True.
  - destruct (esbuildTransform file content) as [code'|err]; [|done].
    injection Hrun as <- <-. cbn [moduleCache].
    rewrite lookup_insert_eq. cbn [entry_hash entry_code]. by rewrite decide_True.
Qed.
End Lifetime.

Lemma transform_cache_round_trip_witness :
  exists st1,
    transformModule sampleHash sampleTransform sampleFs "ENOENT" "a.ts" newServer =
      (st1, inl "export const a = 1") /\
    transformModule sampleHash (fun _ _ => inr "not called") sampleFs "ENOENT" "a.ts"
                    st1 = (st1, inl "export const a = 1").
Proof.
  eexists. split; [reflexivity|].
  apply (transform_cache_round_trip sampleHash sampleTransform
           (fun _ _ => inr "not called") sampleFs sampleFs "ENOENT" "ENOENT"
           "a.ts" "export const a = 1" "export const a = 1" "export const a = 1"
           newServer); reflexivity.
Defined.

End ServerRunFacts.

(** ** The update batcher *)

Module BatcherFacts.
Import Batcher BatcherSpec.

Lemma filter_length_perm {A} (p : A -> bool) (l l' : list A) :
  l ≡ₚ l' -> length (List.filter p l) = length (List.filter p l').
Proof.
  induction 1 as [|x l l' _ IH|x y l|l l' l'' _ IH1 _ IH2]; simpl.
  - done.
  - destruct (p x); simpl; by rewrite IH.
  - destruct (p x), (p y); done.
  - by rewrite IH1.
Qed.

Lemma filter_length_app {A} (p : A -> bool) (l l' : list A) :
  length (List.filter p (l ++ l')) =
  length (List.filter p l) + length (List.filter p l').
Proof. by rewrite List.filter_app, length_app. Qed.

Lemma handlerCalls_starts f (batch : list UpdateJob) :
  handlerCalls f (map (fun job => LogHandlerStart (file job)) batch) = queuedFor f batch.
Proof.
  unfold handlerCalls, queuedFor. induction batch as [|j batch IH]; simpl; [done|].
  unfold isJobFor. destruct (bool_decide (file j = f)); simpl; by rewrite IH.
Qed.

Lemma jobsCreated_starts f (batch : list UpdateJob) :
  jobsCreated f (map (fun job => LogHandlerStart (file job)) batch) = 0.
Proof. unfold jobsCreated. by induction batch. Qed.

Lemma inFlight_app bs bs' : inFlight (bs ++ bs') = inFlight bs ++ inFlight bs'.
Proof. unfold inFlight. by rewrite map_app, concat_app. Qed.

Lemma inFlight_insert (bs : list Batch) (b : nat) (batch batch' : Batch) :
  bs !! b = Some batch ->
  exists l1 l2,
    bs = l1 ++ batch :: l2 /\ <[b := batch']> bs = l1 ++ batch' :: l2.
Proof.
  intros Hb. exists (take b bs), (drop (S b) bs). split.
  - by rewrite take_drop_middle.
  - apply insert_take_drop. by eapply lookup_lt_Some.
Qed.

Section Lawful.
Variable pick : list UpdateJob -> option (UpdateJob * list UpdateJob).
Hypothesis pick_lawful : lawful pick.

Lemma collect_perm n window now : forall batch q batch' q',
  collect pick n window now batch q = (batch', q') ->
  batch ++ q ≡ₚ batch' ++ q'.
Proof.
  induction n as [|n IH]; intros batch q batch' q'; simpl.
  - by intros [= <- <-].
  - destruct (pick q) as [[job rest]|] eqn:Hpick; [|by intros [= <- <-]].
    destruct (joins window now batch job); [|by intros [= <- <-]].
    intros Hc. apply IH in Hc. rewrite <- Hc.
    rewrite (proj1 pick_lawful q job rest Hpick).
    rewrite <- app_assoc. done.
Qed.

(** A step that moves queued jobs into a new batch, or changes nothing. *)
Lemma workerSegment_inv now st st' w :
  workerSegment pick now st = (st', w) -> batcher_inv st -> batcher_inv st'.
Proof.
  unfold workerSegment. destruct (queue st) as [|j0 q0] eqn:Hq; [by intros [= <- _]|].
  destruct (collectBatch pick now st) as [batch rest] eqn:Hcol.
  destruct batch as [|j batch]; [by intros [= <- _]|].
  intros [= <- _] [Hcount Hnd Hlp Hpl].
  unfold collectBatch in Hcol. apply collect_perm in Hcol. simpl in Hcol.
  assert (Hlive : liveJobs (startBatch (j :: batch) (setQueue rest st)) ≡ₚ liveJobs st).
  { unfold liveJobs, startBatch. simpl. rewrite inFlight_app.
    unfold inFlight at 2. cbn [map concat flight phase jobs].
    rewrite app_nil_r, Hcol.
    change (j :: batch ++ rest) with ((j :: batch) ++ rest).
    rewrite (Permutation_app_comm (j :: batch) rest), <- !app_assoc.
    apply Permutation_app_head, Permutation_app_comm. }
  split.
  - intros f. unfold startBatch, addLog, setBatches, setQueue. cbn [log queue].
    pose proof (handlerCalls_starts f (j :: batch)) as H1.
    pose proof (jobsCreated_starts f (j :: batch)) as H2.
    unfold handlerCalls, jobsCreated in *. rewrite !filter_length_app, H1, H2.
    specialize (Hcount f). unfold queuedFor in *.
    rewrite (filter_length_perm _ _ _ Hcol) in Hcount.
    change (j :: batch ++ rest) with ((j :: batch) ++ rest) in Hcount.
    rewrite filter_length_app in Hcount. lia.
  - rewrite Hlive. done.
  - intros job Hjob. rewrite Hlive in Hjob. by apply Hlp.
  - intros f p Hp. destruct (Hpl f p Hp) as (job & Hjob & ? & ?).
    exists job. by rewrite Hlive.
Qed.

Lemma spawnWorkers_inv n now : forall st ws st' ws',
  spawnWorkers pick n now st ws = (st', ws') -> batcher_inv st -> batcher_inv st'.
Proof.
  induction n as [|n IH]; intros st ws st' ws'; simpl.
  - by intros [= <- _].
  - destruct (workerSegment pick now st) as [st1 w] eqn:Hw.
    intros Hs Hinv. eapply IH; [exact Hs|]. by eapply workerSegment_inv.
Qed.

Lemma setProcessing_inv b ws st : batcher_inv st -> batcher_inv (setProcessing b ws st).
Proof. by intros []. Qed.

Lemma processQueue_inv now st : batcher_inv st -> batcher_inv (processQueue pick now st).
Proof.
  intros Hinv. unfold processQueue.
  destruct (spawnWorkers pick _ now (setProcessing true [] st) []) as [st2 ws] eqn:Hs.
  apply setProcessing_inv. eapply spawnWorkers_inv; [exact Hs|].
  by apply setProcessing_inv.
Qed.

Lemma enqueue_inv f p now st :
  batcher_inv st -> batcher_inv (enqueue pick f p now st).1.
Proof.
  intros [Hcount Hnd Hlp Hpl]. unfold enqueue.
  destruct (pendingPromises st !! f) as [promise|] eqn:Hpend; simpl.
  - split; try done. intros f'. simpl.
    unfold handlerCalls, jobsCreated in *. rewrite !filter_length_app. simpl.
    specialize (Hcount f'). lia.
  - match goal with |- batcher_inv (if _ then ?s else _) =>
      assert (Hst1 : batcher_inv s)
    end.
    { assert (Hfresh : f ∉ map file (liveJobs st)).
      { intros Hin. apply list_elem_of_fmap in Hin as (job & -> & Hjob).
        apply Hlp in Hjob. congruence. }
      assert (Hlive : liveJobs
        (mkBatcher (concurrency st) (batchWindow st)
           (queue st ++ [mkJob f p now (nextPromise st)]) (isProcessing st)
           (<[f := nextPromise st]> (pendingPromises st)) (S (nextPromise st))
           (batches st) (workers st)
           (log st ++ [LogEnqueue f (nextPromise st) true]))
        ≡ₚ mkJob f p now (nextPromise st) :: liveJobs st).
      { unfold liveJobs. simpl. rewrite <- app_assoc. simpl.
        by rewrite <- Permutation_middle. }
      split.
      - intros f'. specialize (Hcount f'). cbn [log queue].
        unfold handlerCalls, jobsCreated, queuedFor in *.
        rewrite !filter_length_app. simpl.
        change (isJobFor f' (mkJob f p now (nextPromise st)))
          with (bool_decide (f = f')).
        destruct (bool_decide (f = f')); simpl; lia.
      - rewrite Hlive. simpl. by apply NoDup_cons.
      - intros job Hjob. rewrite Hlive in Hjob. simpl.
        apply elem_of_cons in Hjob as [->|Hjob]; simpl.
        + by rewrite lookup_insert_eq.
        + rewrite lookup_insert_ne; [by apply Hlp|].
          intros ->. apply Hfresh. apply list_elem_of_fmap. eauto.
      - intros f' p'. simpl. destruct (decide (f = f')) as [<-|Hne].
        + rewrite lookup_insert_eq. intros [= <-].
          exists (mkJob f p now (nextPromise st)). rewrite Hlive. split; [left|done].
        + rewrite lookup_insert_ne by done. intros Hp'.
          destruct (Hpl f' p' Hp') as (job & Hjob & ? & ?).
          exists job. rewrite Hlive. split; [by right|done]. }
    simpl. destruct (isProcessing st); [done|]. by apply processQueue_inv.
Qed.

Lemma inFlight_middle (l1 l2 : list Batch) (batch : Batch) :
  inFlight (l1 ++ batch :: l2) = inFlight l1 ++ flight batch ++ inFlight l2.
Proof. by rewrite inFlight_app. Qed.

Lemma inFlight_replace (bs : list Batch) (b : nat) (batch batch' : Batch) :
  bs !! b = Some batch -> flight batch' = flight batch ->
  inFlight (<[b := batch']> bs) = inFlight bs.
Proof.
  intros Hb Hf. destruct (inFlight_insert bs b batch batch' Hb) as (l1 & l2 & -> & ->).
  by rewrite !inFlight_middle, Hf.
Qed.

Lemma inFlight_retire (bs : list Batch) (b : nat) (batch batch' : Batch) :
  bs !! b = Some batch -> phase batch = AwaitingHandlers -> flight batch' = [] ->
  inFlight bs ≡ₚ jobs batch ++ inFlight (<[b := batch']> bs).
Proof.
  intros Hb Hph Hf. destruct (inFlight_insert bs b batch batch' Hb) as (l1 & l2 & -> & ->).
  rewrite !inFlight_middle, Hf. unfold flight at 1. rewrite Hph. simpl.
  by rewrite Permutation_app_swap_app.
Qed.

Lemma forgetFiles_lookup js : forall (p : gmap string nat) f,
  forgetFiles js p !! f = if decide (f ∈ map file js) then None else p !! f.
Proof.
  unfold forgetFiles. induction js as [|j js IH]; intros p f; cbn [foldl map].
  - destruct (decide (f ∈ [])) as [Hin|]; [by apply elem_of_nil in Hin|done].
  - rewrite IH. destruct (decide (f ∈ map file js)) as [Hin|Hin].
    + rewrite decide_True; [done|]. by right.
    + destruct (decide (f = file j)) as [->|Hne].
      * rewrite decide_True by left. apply lookup_delete_eq.
      * rewrite decide_False; [by rewrite lookup_delete_ne|].
        intros [?|?]%elem_of_cons; done.
Qed.

Lemma addLog_inv l st :
  (forall f, handlerCalls f l = 0 /\ jobsCreated f l = 0) ->
  batcher_inv st -> batcher_inv (addLog l st).
Proof.
  intros Hl [Hcount Hnd Hlp Hpl]. split; try done.
  intros f. simpl. destruct (Hl f) as [H1 H2]. specialize (Hcount f).
  unfold handlerCalls, jobsCreated in *. rewrite !filter_length_app. lia.
Qed.

Lemma rejects_silent (js : list UpdateJob) err f :
  handlerCalls f (map (fun job => LogReject (completion job) err) js) = 0 /\
  jobsCreated f (map (fun job => LogReject (completion job) err) js) = 0.
Proof. unfold handlerCalls, jobsCreated. by induction js. Qed.

Lemma resolves_silent (js : list UpdateJob) f :
  handlerCalls f (map (fun job => LogResolve (completion job)) js) = 0 /\
  jobsCreated f (map (fun job => LogResolve (completion job)) js) = 0.
Proof. unfold handlerCalls, jobsCreated. by induction js. Qed.

Lemma settleHandler_inv b k error st st' :
  settleHandler b k error st = Some st' -> batcher_inv st -> batcher_inv st'.
Proof.
  unfold settleHandler. destruct (batches st !! b) as [batch|] eqn:Hb; [|done].
  destruct (handlers batch !! k) as [[| |]|]; try done.
  destruct (jobs batch !! k) as [job|]; [|done].
  intros [= <-] [Hcount Hnd Hlp Hpl]. apply addLog_inv; [done|].
  assert (Hlive : liveJobs (setBatches (<[b := mkBatch (jobs batch)
       (<[k := match error with Some _ => Rejected | None => Fulfilled end]> (handlers batch))
       (match failure batch with Some e => Some e | None => error end)
       (phase batch)]> (batches st)) st) = liveJobs st).
  { unfold liveJobs. simpl. by erewrite inFlight_replace. }
  split; rewrite ?Hlive; done.
Qed.

(** A step that retires batch [b]: its jobs leave the pending map. *)
Lemma retire_inv b batch batch' st :
  batches st !! b = Some batch -> phase batch = AwaitingHandlers ->
  flight batch' = [] ->
  batcher_inv st ->
  batcher_inv (setPending (forgetFiles (jobs batch) (pendingPromises st))
                 (setBatches (<[b := batch']> (batches st)) st)).
Proof.
  intros Hb Hph Hf [Hcount Hnd Hlp Hpl].
  pose proof (inFlight_retire (batches st) b batch batch' Hb Hph Hf) as Hperm.
  set (st' := setPending _ _).
  assert (Hlive : liveJobs st ≡ₚ jobs batch ++ liveJobs st').
  { unfold liveJobs. simpl. rewrite Hperm.
    rewrite !app_assoc. apply Permutation_app_tail, Permutation_app_comm. }
  assert (Hnd' : NoDup (map file (jobs batch) ++ map file (liveJobs st'))).
  { rewrite <- map_app, <- Hlive. done. }
  apply NoDup_app in Hnd' as (_ & Hsep & Hnd').
  split; try done.
  - intros job Hjob. simpl. rewrite forgetFiles_lookup.
    rewrite decide_False.
    + apply Hlp. rewrite Hlive. apply elem_of_app. by right.
    + intros Hin. apply (Hsep _ Hin). apply list_elem_of_fmap. eauto.
  - intros f p. simpl. rewrite forgetFiles_lookup.
    destruct (decide (f ∈ map file (jobs batch))) as [Hin|Hin]; [done|].
    intros Hp. destruct (Hpl f p Hp) as (job & Hjob & Hfile & Hcomp).
    exists job. split; [|done]. rewrite Hlive in Hjob.
    apply elem_of_app in Hjob as [Hjob|Hjob]; [|done].
    exfalso. apply Hin. rewrite <- Hfile. apply list_elem_of_fmap. eauto.
Qed.

Lemma continueBatch_inv b st st' :
  continueBatch b st = Some st' -> batcher_inv st -> batcher_inv st'.
Proof.
  unfold continueBatch. destruct (batches st !! b) as [batch|] eqn:Hb; [|done].
  destruct (phase batch) eqn:Hph; try done.
  destruct (failure batch) as [err|].
  - intros [= <-] Hinv. by eapply retire_inv.
  - destruct (forallb _ _); [|done]. intros [= <-] Hinv.
    apply addLog_inv.
    { intros f. apply resolves_silent. }
    by eapply retire_inv.
Qed.

Lemma continueWorker_inv w now st st' :
  continueWorker pick w now st = Some st' -> batcher_inv st -> batcher_inv st'.
Proof.
  unfold continueWorker. destruct (workers st !! w) as [[b|]|]; try done.
  destruct (batches st !! b) as [batch|] eqn:Hb; [|done].
  assert (Hfinish : forall st0,
    batches st0 !! b = Some batch -> flight batch = [] -> batcher_inv st0 ->
    forall st2 next,
      workerSegment pick now
        (setBatches (<[b := mkBatch (jobs batch) (handlers batch) (failure batch)
                             Finished]> (batches st0)) st0) = (st2, next) ->
      batcher_inv (setProcessing (isProcessing st2) (<[w := next]> (workers st2)) st2)).
  { intros st0 Hb0 Hf0 [Hcount Hnd Hlp Hpl] st2 next Hseg.
    apply setProcessing_inv. eapply workerSegment_inv; [exact Hseg|].
    assert (Hlive : liveJobs (setBatches (<[b := mkBatch (jobs batch) (handlers batch)
                       (failure batch) Finished]> (batches st0)) st0) = liveJobs st0).
    { unfold liveJobs. simpl. erewrite inFlight_replace; [done|exact Hb0|].
      by rewrite Hf0. }
    split; rewrite ?Hlive; done. }
  destruct (phase batch) eqn:Hph; try done.
  - intros [= <-] Hinv.
    destruct (workerSegment pick now _) as [st2 next] eqn:Hseg.
    eapply (Hfinish st); eauto. unfold flight. by rewrite Hph.
  - intros [= <-] Hinv.
    destruct (workerSegment pick now _) as [st2 next] eqn:Hseg.
    eapply (Hfinish (addLog (map (fun job => LogReject (completion job) err)
                               (jobs batch)) st));
      [exact Hb| |apply addLog_inv; [|exact Hinv]|exact Hseg].
    + unfold flight. by rewrite Hph.
    + intros f. apply rejects_silent.
Qed.

Lemma step_inv st l st' :
  step pick st l = Some st' -> batcher_inv st -> batcher_inv st'.
Proof.
  destruct l as [f p now|b k error|b|w now|]; simpl.
  - intros [= <-]. apply enqueue_inv.
  - apply settleHandler_inv.
  - apply continueBatch_inv.
  - apply continueWorker_inv.
  - unfold continueProcessQueue. destruct (_ && _); [|done].
    intros [= <-]. apply setProcessing_inv.
Qed.

Lemma newBatcher_inv c w : batcher_inv (newBatcher c w).
Proof.
  split; simpl.
  - done.
  - constructor.
  - by intros job ?%elem_of_nil.
  - intros f p H. by rewrite lookup_empty in H.
Qed.

Lemma run_inv ls : forall st st',
  run pick st ls = Some st' -> batcher_inv st -> batcher_inv st'.
Proof.
  induction ls as [|l ls IH]; intros st st'; simpl.
  - by intros [= <-].
  - destruct (step pick st l) as [st1|] eqn:Hstep; [|done].
    intros Hrun Hinv. eapply IH; [exact Hrun|]. by eapply step_inv.
Qed.
End Lawful.

(** C6 (amended). For every run of the batcher, whatever the queue
    discipline: an [enqueue(f)] made while a completion for [f] is pending
    (its job is queued, or in a batch whose handlers have not all settled)
    returns the handle of that completion and adds no job; a completion is
    recorded as pending exactly when such a job exists; and the number of
    handler calls with argument [f] plus the number of jobs for [f] still
    queued equals the number of [enqueue(f)] calls made while no completion
    for [f] was pending. *)
Theorem batcher_dedup_and_count
    (pick : list UpdateJob -> option (UpdateJob * list UpdateJob))
    (c w : option nat) (ls : list Label) (st : BatcherState) :
  lawful pick ->
  run pick (newBatcher c w) ls = Some st ->
  (forall job, job ∈ liveJobs st -> forall p now,
     enqueue pick (file job) p now st =
       (addLog [LogEnqueue (file job) (completion job) false] st, completion job)) /\
  (forall f, pendingPromises st !! f = None <->
             forall job, job ∈ liveJobs st -> file job ≠ f) /\
  (forall f, handlerCalls f (log st) + queuedFor f (queue st) = jobsCreated f (log st)).
Proof.
  intros Hlaw Hrun.
  destruct (run_inv pick Hlaw ls _ _ Hrun (newBatcher_inv c w))
    as [Hcount Hnd Hlp Hpl].
  split; [|split; [|exact Hcount]].
  - intros job Hjob p now. unfold enqueue. by rewrite (Hlp job Hjob).
  - intros f. split.
    + intros Hnone job Hjob <-. rewrite (Hlp job Hjob) in Hnone. done.
    + intros Hno. destruct (pendingPromises st !! f) as [p|] eqn:Hp; [|done].
      destruct (Hpl f p Hp) as (job & Hjob & Hfile & _). by destruct (Hno job Hjob).
Qed.

Lemma greatest_in best q : greatest best q ∈ best :: q.
Proof.
  revert best. induction q as [|j q IH]; intros best; simpl; [left|].
  destruct (0 <? compareJobs j best)%Z.
  - right. apply IH.
  - specialize (IH best). apply elem_of_cons in IH as [->|?]; [left|by right; right].
Qed.

Lemma removeFirst_perm job q : job ∈ q -> q ≡ₚ job :: removeFirst job q.
Proof.
  induction q as [|j q IH]; simpl; [by intros ?%elem_of_nil|].
  intros Hin. destruct (decide (j = job)) as [->|Hne]; [done|].
  apply elem_of_cons in Hin as [->|Hin]; [done|].
  rewrite (IH Hin) at 1. apply Permutation_swap.
Qed.

Lemma pickGreatest_lawful : lawful pickGreatest.
Proof.
  split.
  - intros q job rest. unfold pickGreatest. destruct q as [|j q]; [done|].
    intros [= <- <-]. apply removeFirst_perm, greatest_in.
  - intros q. unfold pickGreatest. by destruct q.
Qed.

Lemma batcher_dedup_and_count_witness :
  exists st,
    run pickGreatest (newBatcher None None)
        [CallEnqueue "x" normal 0; CallEnqueue "f" normal 1] = Some st /\
    queue st = [mkJob "f" normal 1 1] /\
    (forall job, job ∈ liveJobs st -> forall p now,
       enqueue pickGreatest (file job) p now st =
         (addLog [LogEnqueue (file job) (completion job) false] st, completion job)) /\
    (forall f, pendingPromises st !! f = None <->
               forall job, job ∈ liveJobs st -> file job ≠ f) /\
    (forall f, handlerCalls f (log st) + queuedFor f (queue st) = jobsCreated f (log st)).
Proof.
  eexists. split; [reflexivity|]. split; [reflexivity|].
  apply (batcher_dedup_and_count pickGreatest None None
           [CallEnqueue "x" normal 0; CallEnqueue "f" normal 1]).
  - exact pickGreatest_lawful.
  - reflexivity.
Defined.

(** C6 (counterexample).  [f] and [g] are processed in one batch.  The
    handler of [f] completes, then [enqueue(f)] is called, then the handler
    of [g] completes: the call is coalesced into the completion of the
    batch.  When the batcher is idle again the handler has been called once
    with [f], and one [enqueue(f)] call was made after that handler
    completed, so the count is 1 and not 1 + 1. *)
Lemma shared_batch_call_is_coalesced :
  option_map (fun st => (quiescent st, handlerCalls "f" (log st),
                         callsAfterHandler "f" 0 0 (log st)))
             sharedBatchFinal
  = Some (true, 1, 1).
Proof. vm_compute. done. Qed.

Example shared_batch_log :
  log <$> sharedBatchFinal =
  Some [LogEnqueue "x" 0 true; LogHandlerStart "x"; LogEnqueue "f" 1 true;
        LogEnqueue "g" 2 true; LogHandlerEnd "x" None; LogResolve 0;
        LogHandlerStart "g"; LogHandlerStart "f"; LogHandlerEnd "f" None;
        LogEnqueue "f" 1 false; LogHandlerEnd "g" None; LogResolve 2; LogResolve 1].
Proof. vm_compute. done. Qed.

(** After a handler of its batch has failed, the file of a handler that is
    still running is no longer pending: [enqueue(f)] creates a second job
    for it. *)
Example failed_batch_requeues_running_file :
  option_map (fun st => (queue st, handlers <$> batches st, last (log st)))
             (run pickGreatest (newBatcher None None) failedBatchRun)
  = Some ([mkJob "f" normal 5 3], [[Fulfilled]; [Rejected; Running]],
          Some (LogEnqueue "f" 3 true)).
Proof. vm_compute. done. Qed.
End BatcherFacts.

(** * More about the update batcher *)

Module BatcherMoreFacts.
Import Batcher BatcherSpec BatcherMore BatcherFacts.

(** ** The comparator *)

(** X15. The comparator of the queue is negative exactly when its first
    argument comes before the second in the order high, normal, low, older
    first among equal priorities; it is zero exactly for equal priority and
    timestamp, and positive exactly when the second comes before the
    first. *)
Theorem compareJobs_order (a b : UpdateJob) :
  ((compareJobs a b < 0)%Z <-> before a b) /\
  ((compareJobs a b = 0)%Z <-> priority a = priority b /\ timestamp a = timestamp b) /\
  ((0 < compareJobs a b)%Z <-> before b a).
Proof.
  unfold compareJobs, before.
  destruct a as [fa pa ta ca], b as [fb pb tb cb]; simpl.
  destruct pa, pb; simpl; repeat (case_decide; simpl);
    try (exfalso; naive_solver);
    (split; [|split]); (split; [intros H|intros H]);
    try lia; try done; try (left; lia); try (right; split; [done|lia]);
    try (split; [done|lia]); try (destruct H as [H|[H1 H2]]; lia);
    try (destruct H as [H1 H2]; lia); try (destruct H as [H|[H1 H2]]; done);
    try (destruct H as [H1 H2]; discriminate H1);
    try (destruct H as [H|[H1 H2]]; [simpl in H; lia|discriminate H1]).
Qed.

(** ** [collectBatch] *)

Section Lawful.
Variable pick : list UpdateJob -> option (UpdateJob * list UpdateJob).
Hypothesis pick_lawful : lawful pick.

Lemma collect_follows n window now first : forall batch q batch' q',
  collect pick n window now (first :: batch) q = (batch', q') ->
  exists more, batch' = first :: batch ++ more /\
               Forall (follows window now first) more /\ length more <= n.
Proof.
  induction n as [|n IH]; intros batch q batch' q'; simpl.
  - intros [= <- <-]. exists []. by rewrite app_nil_r.
  - destruct (pick q) as [[job rest]|] eqn:Hpick;
      [|intros [= <- <-]; exists []; rewrite app_nil_r; split; [done|]; split;
        [done|simpl; lia]].
    destruct (Z.of_nat now - Z.of_nat (timestamp job) <? Z.of_nat window)%Z eqn:Hw;
      simpl;
      [|intros [= <- <-]; exists []; rewrite app_nil_r; split; [done|]; split;
        [done|simpl; lia]].
    destruct (bool_decide (priority first = priority job)) eqn:Hp; simpl;
      [|intros [= <- <-]; exists []; rewrite app_nil_r; split; [done|]; split;
        [done|simpl; lia]].
    intros Hc. change (first :: batch ++ [job]) with (first :: (batch ++ [job])) in Hc.
    apply IH in Hc as (more & -> & Hall & Hlen).
    exists (job :: more). rewrite <- app_assoc. split; [done|]. split.
    + constructor; [|done]. split; [by apply bool_decide_eq_true in Hp|].
      by apply Z.ltb_lt.
    + simpl. lia.
Qed.
End Lawful.

(** X16. [collectBatch] takes at most ten jobs, and at least one from a queue
    that is not empty; the jobs it takes and the jobs it leaves are
    the jobs of the queue; and every job after the first has the priority
    of the first and is younger than the batch window. *)
Theorem collectBatch_shape
    (pick : list UpdateJob -> option (UpdateJob * list UpdateJob))
    (now : nat) (st : BatcherState) :
  lawful pick ->
  length (collectBatch pick now st).1 <= 10 /\
  queue st ≡ₚ (collectBatch pick now st).1 ++ (collectBatch pick now st).2 /\
  (queue st <> [] -> (collectBatch pick now st).1 <> []) /\
  forall first others, (collectBatch pick now st).1 = first :: others ->
    Forall (follows (batchWindow st) now first) others.
Proof.
  intros Hlaw. unfold collectBatch.
  destruct (collect pick 10 (batchWindow st) now [] (queue st)) as [batch rest] eqn:Hc.
  pose proof (collect_perm pick Hlaw _ _ _ _ _ _ _ Hc) as Hperm. simpl in Hperm.
  cbn [fst snd]. change (collect pick 10) with (collect pick (S 9)) in Hc.
  simpl in Hc. destruct (pick (queue st)) as [[job rest0]|] eqn:Hpick.
  - destruct (collect_follows pick 9 (batchWindow st) now job [] _ _ _ Hc)
      as (more & -> & Hall & Hlen).
    split; [simpl; lia|]. split; [done|]. split; [done|].
    by intros first others [= <- <-].
  - injection Hc as <- <-. apply (proj2 Hlaw) in Hpick.
    split; [simpl; lia|]. split; [done|]. split; [done|]. done.
Qed.

Lemma collectBatch_shape_witness :
  length (collectBatch pickGreatest 5
            (mkBatcher 4 100 [mkJob "a" normal 1 0; mkJob "b" high 2 1] true ∅ 2 [] [] [])).1
    <= 10.
Proof.
  apply (collectBatch_shape pickGreatest 5
           (mkBatcher 4 100 [mkJob "a" normal 1 0; mkJob "b" high 2 1] true ∅ 2 [] [] [])
           pickGreatest_lawful).
Defined.



(** ** The workers *)

Section Workers.
Variable pick : list UpdateJob -> option (UpdateJob * list UpdateJob).

Lemma workerSegment_fields now st :
  concurrency (workerSegment pick now st).1 = concurrency st /\
  workers (workerSegment pick now st).1 = workers st /\
  isProcessing (workerSegment pick now st).1 = isProcessing st /\
  (((workerSegment pick now st).2 = None /\
    batches (workerSegment pick now st).1 = batches st) \/
   (exists batch,
      (workerSegment pick now st).2 = Some (length (batches st)) /\
      batches (workerSegment pick now st).1 = batches st ++ [batch])).
Proof.
  unfold workerSegment.
  destruct (queue st);
    [simpl; split; [done|]; split; [done|]; split; [done|]; by left|].
  destruct (collectBatch pick now st) as [[|j batch] rest];
    [simpl; split; [done|]; split; [done|]; split; [done|]; by left|].
  simpl. split; [done|]. split; [done|]. split; [done|]. right. eauto.
Qed.

Lemma workerSegment_awaited now st ws :
  awaited (batches st) ws ->
  awaited (batches (workerSegment pick now st).1)
          (ws ++ [(workerSegment pick now st).2]).
Proof.
  intros Haw b batch Hb Hun.
  destruct (workerSegment_fields now st)
    as (_ & _ & _ & [[Hw Hbs]|(new & Hw & Hbs)]); rewrite Hw; rewrite Hbs in Hb.
  - apply elem_of_app. left. by eapply Haw.
  - apply elem_of_app. destruct (decide (b < length (batches st))) as [Hlt|Hge].
    + rewrite lookup_app_l in Hb by done. left. by eapply Haw.
    + right. apply lookup_lt_Some in Hb as Hlen. rewrite length_app in Hlen.
      simpl in Hlen. assert (b = length (batches st)) as -> by lia. left.
Qed.

Lemma spawnWorkers_awaited n now : forall st ws,
  awaited (batches st) ws ->
  awaited (batches (spawnWorkers pick n now st ws).1) (spawnWorkers pick n now st ws).2 /\
  length (spawnWorkers pick n now st ws).2 = length ws + n /\
  concurrency (spawnWorkers pick n now st ws).1 = concurrency st.
Proof.
  induction n as [|n IH]; intros st ws Haw; simpl.
  - split; [done|]. split; [lia|done].
  - pose proof (workerSegment_awaited now st ws Haw) as Haw1.
    destruct (workerSegment_fields now st) as (Hc & _).
    destruct (workerSegment pick now st) as [st1 w]. simpl in *.
    destruct (IH st1 (ws ++ [w]) Haw1) as (? & Hlen & Hc').
    split; [done|]. rewrite length_app in Hlen. simpl in Hlen.
    split; [lia|congruence].
Qed.

Lemma processQueue_workers now st :
  awaited (batches st) [] -> workers_inv (processQueue pick now st).
Proof.
  intros Haw. unfold processQueue.
  destruct (spawnWorkers_awaited (concurrency (setProcessing true [] st)) now
              (setProcessing true [] st) [] Haw) as (Haw' & Hlen & Hc).
  destruct (spawnWorkers pick _ now (setProcessing true [] st) []) as [st2 ws].
  simpl in *. split; simpl; [done|lia|done].
Qed.

Lemma idle_awaited st :
  workers_inv st -> isProcessing st = false -> awaited (batches st) [].
Proof.
  intros [Hidle _ Haw] Hoff b batch Hb Hun. rewrite <- (Hidle Hoff). by eapply Haw.
Qed.

Lemma enqueue_workers f p now st :
  workers_inv st -> workers_inv (enqueue pick f p now st).1.
Proof.
  intros Hinv. unfold enqueue. destruct (pendingPromises st !! f); simpl.
  - by destruct Hinv.
  - destruct (isProcessing st) eqn:Hproc.
    + destruct Hinv as [Hidle Hlen Haw]. split; simpl; [done|done|done].
    + apply processQueue_workers. simpl. by apply idle_awaited.
Qed.

Lemma awaited_replace (bs : list Batch) ws b batch batch' :
  bs !! b = Some batch -> unfinished batch = true ->
  awaited bs ws -> awaited (<[b := batch']> bs) ws.
Proof.
  intros Hb Hun Haw b' x Hb' Hun'. destruct (decide (b = b')) as [<-|Hne].
  - by eapply Haw.
  - rewrite list_lookup_insert_ne in Hb' by done. by eapply Haw.
Qed.

Lemma settleHandler_workers b k error st st' :
  settleHandler b k error st = Some st' -> workers_inv st -> workers_inv st'.
Proof.
  unfold settleHandler. destruct (batches st !! b) as [batch|] eqn:Hb; [|done].
  destruct (handlers batch !! k) as [[| |]|]; try done.
  destruct (jobs batch !! k) as [job|]; [|done].
  intros [= <-] [Hidle Hlen Haw]. split; simpl; [done|done|].
  intros b' x Hb' Hun'. destruct (decide (b = b')) as [<-|Hne].
  - apply (Haw b batch Hb).
    apply list_lookup_insert_Some in Hb' as [(_ & <- & _)|[? _]]; done.
  - rewrite list_lookup_insert_ne in Hb' by done. by eapply Haw.
Qed.

Lemma continueBatch_workers b st st' :
  continueBatch b st = Some st' -> workers_inv st -> workers_inv st'.
Proof.
  unfold continueBatch. destruct (batches st !! b) as [batch|] eqn:Hb; [|done].
  destruct (phase batch) eqn:Hph; try done.
  assert (Hun : unfinished batch = true) by (unfold unfinished; by rewrite Hph).
  destruct (failure batch) as [err|].
  - intros [= <-] [Hidle Hlen Haw]. split; simpl; [done|done|].
    by eapply awaited_replace.
  - destruct (forallb _ _); [|done]. intros [= <-] [Hidle Hlen Haw].
    split; simpl; [done|done|]. by eapply awaited_replace.
Qed.

Lemma continueWorker_workers w now st st' :
  continueWorker pick w now st = Some st' -> workers_inv st -> workers_inv st'.
Proof.
  unfold continueWorker. destruct (workers st !! w) as [[b|]|] eqn:Hw; try done.
  destruct (batches st !! b) as [batch|] eqn:Hb; [|done].
  assert (Hfinish : forall st0,
    batches st0 = batches st -> workers st0 = workers st ->
    isProcessing st0 = isProcessing st -> concurrency st0 = concurrency st ->
    workers_inv st ->
    workers_inv
      (setProcessing
         (isProcessing (workerSegment pick now
            (setBatches (<[b := mkBatch (jobs batch) (handlers batch) (failure batch)
                                 Finished]> (batches st0)) st0)).1)
         (<[w := (workerSegment pick now
            (setBatches (<[b := mkBatch (jobs batch) (handlers batch) (failure batch)
                                 Finished]> (batches st0)) st0)).2]>
            (workers (workerSegment pick now
            (setBatches (<[b := mkBatch (jobs batch) (handlers batch) (failure batch)
                                 Finished]> (batches st0)) st0)).1))
         (workerSegment pick now
            (setBatches (<[b := mkBatch (jobs batch) (handlers batch) (failure batch)
                                 Finished]> (batches st0)) st0)).1)).
  { intros st0 Hbs Hws Hproc Hconc [Hidle Hlen Haw].
    remember (setBatches (<[b := mkBatch (jobs batch) (handlers batch) (failure batch)
                                  Finished]> (batches st0)) st0) as st1 eqn:Hst1.
    assert (Hb1 : batches st1 = <[b := mkBatch (jobs batch) (handlers batch)
                                         (failure batch) Finished]> (batches st)).
    { subst st1. simpl. by rewrite Hbs. }
    assert (Hw1 : workers st1 = workers st) by (by subst st1).
    assert (Hp1 : isProcessing st1 = isProcessing st) by (by subst st1).
    assert (Hc1 : concurrency st1 = concurrency st) by (by subst st1).
    clear Hst1.
    destruct (workerSegment_fields now st1) as (Hc & Hwk & Hp & Hcase).
    assert (Hold : forall b' x, batches st1 !! b' = Some x -> unfinished x = true ->
                     exists w', w' <> w /\ workers st !! w' = Some (Some b')).
    { intros b' x Hb' Hun'. rewrite Hb1 in Hb'.
      destruct (decide (b = b')) as [<-|Hne].
      - apply list_lookup_insert_Some in Hb' as [(_ & <- & _)|[? _]]; done.
      - rewrite list_lookup_insert_ne in Hb' by done.
        destruct (list_elem_of_lookup_1 _ _ (Haw b' x Hb' Hun')) as [w' Hw'].
        exists w'. split; [|done]. intros ->. rewrite Hw in Hw'. by injection Hw'. }
    destruct (workerSegment pick now st1) as [st2 next]. simpl in *.
    split; simpl.
    - rewrite Hp, Hp1. intros Hoff. rewrite (Hidle Hoff) in Hw. done.
    - rewrite length_insert, Hwk, Hc, Hw1, Hc1. done.
    - rewrite Hwk, Hw1. intros b' x Hb' Hun'.
      destruct Hcase as [[Hnone Hsame]|(new & Hsome & Hmore)].
      + rewrite Hsame in Hb'. destruct (Hold b' x Hb' Hun') as (w' & Hne & Hw').
        apply list_elem_of_lookup. exists w'. by rewrite list_lookup_insert_ne.
      + rewrite Hmore in Hb'.
        destruct (decide (b' < length (batches st1))) as [Hlt|Hge].
        * rewrite lookup_app_l in Hb' by done.
          destruct (Hold b' x Hb' Hun') as (w' & Hne & Hw').
          apply list_elem_of_lookup. exists w'. by rewrite list_lookup_insert_ne.
        * apply lookup_lt_Some in Hb' as Hl. rewrite length_app in Hl. simpl in Hl.
          assert (b' = length (batches st1)) as -> by lia.
          rewrite Hsome. apply list_elem_of_lookup. exists w.
          apply list_lookup_insert_eq. by apply lookup_lt_Some in Hw. }
  destruct (phase batch) eqn:Hph; try done.
  - intros [= <-] Hinv. specialize (Hfinish st eq_refl eq_refl eq_refl eq_refl Hinv).
    by destruct (workerSegment pick now _).
  - intros [= <-] Hinv.
    specialize (Hfinish (addLog (map (fun job => LogReject (completion job) err)
                                     (jobs batch)) st)
                  eq_refl eq_refl eq_refl eq_refl Hinv).
    by destruct (workerSegment pick now _).
Qed.

Lemma continueProcessQueue_workers st st' :
  continueProcessQueue st = Some st' -> workers_inv st -> workers_inv st'.
Proof.
  unfold continueProcessQueue.
  destruct (isProcessing st); simpl; [|done].
  destruct (forallb _ (workers st)) eqn:Hall; [|done].
  intros [= <-] [Hidle Hlen Haw]. split; simpl; [done|lia|].
  intros b batch Hb Hun. exfalso.
  pose proof (Haw b batch Hb Hun) as Hin.
  rewrite forallb_forall in Hall. apply list_elem_of_In, Hall in Hin. done.
Qed.

Lemma step_workers st l st' :
  step pick st l = Some st' -> workers_inv st -> workers_inv st'.
Proof.
  destruct l as [f p now|b k error|b|w now|]; simpl.
  - intros [= <-]. apply enqueue_workers.
  - apply settleHandler_workers.
  - apply continueBatch_workers.
  - apply continueWorker_workers.
  - apply continueProcessQueue_workers.
Qed.

Lemma spawnWorkers_concurrency n now : forall st ws,
  concurrency (spawnWorkers pick n now st ws).1 = concurrency st.
Proof.
  induction n as [|n IH]; intros st ws; simpl; [done|].
  destruct (workerSegment_fields now st) as (Hc & _).
  destruct (workerSegment pick now st) as [st1 w]. simpl in *.
  by rewrite IH.
Qed.

Lemma step_concurrency st l st' :
  step pick st l = Some st' -> concurrency st' = concurrency st.
Proof.
  destruct l as [f p now|b k error|b|w now|]; simpl.
  - intros [= <-]. unfold enqueue. destruct (pendingPromises st !! f); [done|].
    simpl. destruct (isProcessing st); [done|]. unfold processQueue.
    match goal with |- context [spawnWorkers pick ?n now ?s []] =>
      pose proof (spawnWorkers_concurrency n now s []) as Hc;
      destruct (spawnWorkers pick n now s []) as [st2 ws]
    end. simpl in *. done.
  - unfold settleHandler. destruct (batches st !! b) as [batch|]; [|done].
    destruct (handlers batch !! k) as [[| |]|]; try done.
    destruct (jobs batch !! k); [|done]. by intros [= <-].
  - unfold continueBatch. destruct (batches st !! b) as [batch|]; [|done].
    destruct (phase batch); try done. destruct (failure batch).
    + by intros [= <-].
    + destruct (forallb _ _); [|done]. by intros [= <-].
  - unfold continueWorker. destruct (workers st !! w) as [[b|]|]; try done.
    destruct (batches st !! b) as [batch|]; [|done].
    destruct (phase batch); try done; intros [= <-];
      match goal with |- context [workerSegment pick now ?s] =>
        destruct (workerSegment_fields now s) as (Hc & _);
        destruct (workerSegment pick now s) as [st2 next]
      end; simpl in *; done.
  - unfold continueProcessQueue. destruct (_ && _); [|done]. by intros [= <-].
Qed.

Lemma run_workers ls : forall st st',
  run pick st ls = Some st' -> workers_inv st ->
  workers_inv st' /\ concurrency st' = concurrency st.
Proof.
  induction ls as [|l ls IH]; intros st st'; simpl.
  - by intros [= <-].
  - destruct (step pick st l) as [st1|] eqn:Hstep; [|done].
    intros Hrun Hinv.
    destruct (IH st1 st' Hrun (step_workers _ _ _ Hstep Hinv)) as [? Hc].
    split; [done|]. rewrite Hc. by eapply step_concurrency.
Qed.
End Workers.

Lemma unfinished_awaited st b :
  workers_inv st -> b ∈ unfinishedBatches st -> Some b ∈ workers st.
Proof.
  intros [_ _ Haw] Hb. unfold unfinishedBatches in Hb.
  apply list_elem_of_filter in Hb as [Hun _].
  destruct (batches st !! b) as [batch|] eqn:Hbatch; [|done].
  injection Hun as Hun. by eapply Haw.
Qed.

(** X18. At every moment of every run, the batches whose worker has not come
    back from [processBatch] are at most [concurrency] (four by default),
    and there is none when [isProcessing] is false. *)
Theorem unfinished_batches_bounded
    (pick : list UpdateJob -> option (UpdateJob * list UpdateJob))
    (c w : option nat) (ls : list Label) (st : BatcherState) :
  lawful pick ->
  run pick (newBatcher c w) ls = Some st ->
  length (unfinishedBatches st) <= concurrency (newBatcher c w) /\
  concurrency (newBatcher c w) = match c with Some (S n) => S n | _ => 4 end /\
  (isProcessing st = false -> unfinishedBatches st = []).
Proof.
  intros _ Hrun.
  destruct (run_workers pick ls _ _ Hrun) as [Hinv Hc].
  { split; simpl; [done|lia|]. by intros b batch ?. }
  split; [|split; [done|]].
  - rewrite <- Hc. etrans; [|apply (wi_len _ Hinv)].
    rewrite <- (length_fmap Some (unfinishedBatches st)).
    apply submseteq_length, NoDup_submseteq.
    + apply (NoDup_fmap_2 Some). apply NoDup_filter, NoDup_seq.
    + intros x (b & -> & Hb)%list_elem_of_fmap. by apply unfinished_awaited.
  - intros Hoff. destruct (unfinishedBatches st) as [|b bs] eqn:Hu; [done|].
    exfalso. assert (Hb : b ∈ unfinishedBatches st) by (rewrite Hu; left).
    apply (unfinished_awaited st b Hinv) in Hb.
    rewrite (wi_idle _ Hinv Hoff) in Hb. by apply elem_of_nil in Hb.
Qed.

Lemma unfinished_batches_bounded_witness :
  length (unfinishedBatches
            (default (newBatcher None None)
               (run pickGreatest (newBatcher None None)
                  [CallEnqueue "x" normal 0; CallEnqueue "f" normal 1]))) <= 4.
Proof.
  apply (unfinished_batches_bounded pickGreatest None None
           [CallEnqueue "x" normal 0; CallEnqueue "f" normal 1] _
           pickGreatest_lawful eq_refl).
Defined.

(** ** Settling follows the handlers *)

Lemma justified_mono l l' e :
  (forall x, x ∈ l -> x ∈ l') -> justified l e -> justified l' e.
Proof.
  intros Hsub. destruct e as [| | |p|p err]; simpl; try done.
  - intros (f & ? & ? & ?). exists f. auto.
  - intros (f & f' & ? & ? & ?). exists f, f'. auto.
Qed.

Lemma settled_in_order_app l new :
  settled_in_order l -> Forall (justified l) new -> settled_in_order (l ++ new).
Proof.
  intros Hl Hnew l1 e l2 Heq.
  apply app_eq_app in Heq as [m [[Hl' Hm]|[Hl1 Hm]]].
  - destruct m as [|e' m]; simpl in Hm.
    + rewrite app_nil_r in Hl'. subst l1. rewrite <- Hm in Hnew.
      by apply Forall_cons in Hnew as [? _].
    + injection Hm as <- _. by apply (Hl l1 e m).
  - rewrite Hm in Hnew. apply Forall_app in Hnew as [_ Hnew].
    apply Forall_cons in Hnew as [He _].
    eapply justified_mono; [|exact He]. intros x Hx. rewrite Hl1.
    apply elem_of_app. by left.
Qed.

(** The log grows by entries that are justified, and nothing else changes. *)
Lemma addLog_log_inv new st :
  Forall (justified (log st)) new -> log_inv st -> log_inv (addLog new st).
Proof.
  intros Hnew [Hord Hq Hb Hf Hfail Hlen]. split; simpl.
  - by apply settled_in_order_app.
  - intros job Hjob. apply elem_of_app. left. by apply Hq.
  - intros b batch job Hbatch Hjob. destruct (Hb b batch job Hbatch Hjob).
    split; apply elem_of_app; by left.
  - intros b batch k job H1 H2 H3. apply elem_of_app. left. by eapply Hf.
  - intros b batch err H1 H2. destruct (Hfail b batch err H1 H2) as [f Hin].
    exists f. apply elem_of_app. by left.
  - done.
Qed.

Section Settling.
Variable pick : list UpdateJob -> option (UpdateJob * list UpdateJob).
Hypothesis pick_lawful : lawful pick.

Lemma workerSegment_log_inv now st :
  log_inv st -> log_inv (workerSegment pick now st).1.
Proof.
  intros Hinv. unfold workerSegment. destruct (queue st) as [|j0 q0] eqn:Hq0; [done|].
  destruct (collectBatch pick now st) as [batch rest] eqn:Hcol.
  destruct batch as [|j batch]; [done|]. cbn [fst].
  unfold collectBatch in Hcol. apply (collect_perm pick pick_lawful) in Hcol.
  simpl in Hcol.
  destruct Hinv as [Hord Hq Hb Hf Hfail Hlen].
  assert (Hstarts : Forall (justified (log st))
            (map (fun job => LogHandlerStart (file job)) (j :: batch))).
  { apply Forall_forall. by intros e (job & -> & _)%list_elem_of_fmap. }
  split; cbn [startBatch addLog setBatches setQueue log queue batches].
  - by apply settled_in_order_app.
  - intros job Hjob. apply elem_of_app. left. apply Hq. rewrite Hcol.
    change (j :: batch ++ rest) with ((j :: batch) ++ rest).
    apply elem_of_app. by right.
  - intros b x job Hx Hjob.
    destruct (decide (b < length (batches st))) as [Hlt|Hge].
    + rewrite lookup_app_l in Hx by done. destruct (Hb b x job Hx Hjob).
      split; apply elem_of_app; by left.
    + rewrite lookup_app_r in Hx by lia.
      destruct (b - length (batches st)) as [|n]; [|done].
      injection Hx as <-. cbn [jobs] in Hjob. split.
      * apply elem_of_app. left. apply Hq. rewrite Hcol.
        change (j :: batch ++ rest) with ((j :: batch) ++ rest).
        apply elem_of_app. by left.
      * apply elem_of_app. right. apply list_elem_of_fmap. by exists job.
  - intros b x k job Hx Hk Hjob.
    destruct (decide (b < length (batches st))) as [Hlt|Hge].
    + rewrite lookup_app_l in Hx by done. apply elem_of_app. left. by eapply Hf.
    + rewrite lookup_app_r in Hx by lia.
      destruct (b - length (batches st)) as [|n]; [|done].
      injection Hx as <-. cbn [handlers] in Hk.
      destruct k as [|k]; [done|]. simpl in Hk.
      apply list_lookup_fmap_Some in Hk as (? & ? & ?). done.
  - intros b x err Hx Herr.
    destruct (decide (b < length (batches st))) as [Hlt|Hge].
    + rewrite lookup_app_l in Hx by done.
      destruct (Hfail b x err Hx Herr) as [f Hin]. exists f. apply elem_of_app. by left.
    + rewrite lookup_app_r in Hx by lia.
      destruct (b - length (batches st)) as [|n]; [|done].
      injection Hx as <-. by destruct Herr.
  - intros b x Hx.
    destruct (decide (b < length (batches st))) as [Hlt|Hge].
    + rewrite lookup_app_l in Hx by done. by eapply Hlen.
    + rewrite lookup_app_r in Hx by lia.
      destruct (b - length (batches st)) as [|n]; [|done].
      injection Hx as <-. cbn [handlers jobs]. simpl. by rewrite length_map.
Qed.

Lemma spawnWorkers_log_inv n now : forall st ws,
  log_inv st -> log_inv (spawnWorkers pick n now st ws).1.
Proof.
  induction n as [|n IH]; intros st ws Hinv; simpl; [done|].
  pose proof (workerSegment_log_inv now st Hinv) as H1.
  destruct (workerSegment pick now st) as [st1 w]. by apply IH.
Qed.

Lemma setProcessing_log_inv b ws st : log_inv st -> log_inv (setProcessing b ws st).
Proof. by intros []. Qed.

Lemma processQueue_log_inv now st : log_inv st -> log_inv (processQueue pick now st).
Proof.
  intros Hinv. unfold processQueue.
  pose proof (spawnWorkers_log_inv (concurrency (setProcessing true [] st)) now
                (setProcessing true [] st) [] (setProcessing_log_inv _ _ _ Hinv)) as H.
  destruct (spawnWorkers pick _ now (setProcessing true [] st) []) as [st2 ws].
  by apply setProcessing_log_inv.
Qed.

Lemma enqueue_log_inv f p now st : log_inv st -> log_inv (enqueue pick f p now st).1.
Proof.
  intros Hinv. unfold enqueue. destruct (pendingPromises st !! f) as [promise|]; simpl.
  - apply (addLog_log_inv [LogEnqueue f promise false] st); [|done].
    by apply Forall_singleton.
  - match goal with |- log_inv (if _ then ?s else _) => assert (Hst1 : log_inv s) end.
    { destruct Hinv as [Hord Hq Hb Hf Hfail Hlen]. split; simpl.
      - apply settled_in_order_app; [done|]. by apply Forall_singleton.
      - intros job [Hjob| ->%list_elem_of_singleton]%elem_of_app.
        + apply elem_of_app. left. by apply Hq.
        + apply elem_of_app. right. left.
      - intros b batch job Hbatch Hjob. destruct (Hb b batch job Hbatch Hjob).
        split; apply elem_of_app; by left.
      - intros b batch k job H1 H2 H3. apply elem_of_app. left. by eapply Hf.
      - intros b batch err H1 H2. destruct (Hfail b batch err H1 H2) as [f' Hin].
        exists f'. apply elem_of_app. by left.
      - done. }
    destruct (isProcessing st); [done|]. by apply processQueue_log_inv.
Qed.

Lemma settleHandler_log_inv b k error st st' :
  settleHandler b k error st = Some st' -> log_inv st -> log_inv st'.
Proof.
  unfold settleHandler. destruct (batches st !! b) as [batch|] eqn:Hbatch; [|done].
  destruct (handlers batch !! k) as [[| |]|] eqn:Hk; try done.
  destruct (jobs batch !! k) as [job|] eqn:Hjob; [|done].
  intros [= <-] [Hord Hq Hb Hf Hfail Hlen].
  split; cbn [addLog setBatches log queue batches].
  - apply settled_in_order_app; [done|]. by apply Forall_singleton.
  - intros j Hj. apply elem_of_app. left. by apply Hq.
  - intros b' x j Hx Hj.
    apply list_lookup_insert_Some in Hx as [(<- & <- & _)|[_ Hx]].
    + destruct (Hb b batch j Hbatch Hj). split; apply elem_of_app; by left.
    + destruct (Hb b' x j Hx Hj). split; apply elem_of_app; by left.
  - intros b' x k' j Hx Hk' Hj.
    apply list_lookup_insert_Some in Hx as [(<- & <- & _)|[_ Hx]].
    + cbn [handlers jobs] in *. destruct (decide (k = k')) as [<-|Hne].
      * rewrite list_lookup_insert_eq in Hk' by by eapply lookup_lt_Some.
        destruct error; [done|]. rewrite Hjob in Hj. injection Hj as <-.
        apply elem_of_app. right. left.
      * rewrite list_lookup_insert_ne in Hk' by done.
        apply elem_of_app. left. by eapply Hf.
    + apply elem_of_app. left. by eapply Hf.
  - intros b' x err Hx Herr.
    apply list_lookup_insert_Some in Hx as [(<- & <- & _)|[_ Hx]].
    + cbn [failure phase] in Herr. destruct (failure batch) as [e0|] eqn:Hfl.
      * destruct (Hfail b batch err Hbatch) as [f Hin].
        { destruct Herr as [[= <-]|Herr]; [by left|by right]. }
        exists f. apply elem_of_app. by left.
      * destruct Herr as [->|Herr].
        -- exists (file job). apply elem_of_app. right. left.
        -- destruct (Hfail b batch err Hbatch (or_intror Herr)) as [f Hin].
           exists f. apply elem_of_app. by left.
    + destruct (Hfail b' x err Hx Herr) as [f Hin]. exists f. apply elem_of_app. by left.
  - intros b' x Hx.
    apply list_lookup_insert_Some in Hx as [(<- & <- & _)|[_ Hx]].
    + cbn [handlers jobs]. rewrite length_insert. by eapply Hlen.
    + by eapply Hlen.
Qed.

(** Changing the phase of a batch, and the pending map. *)
Lemma setPhase_log_inv b batch ph pending st :
  batches st !! b = Some batch ->
  (forall err, ph = Threw err -> failure batch = Some err) ->
  log_inv st ->
  log_inv (setPending pending
             (setBatches (<[b := mkBatch (jobs batch) (handlers batch) (failure batch)
                                         ph]> (batches st)) st)).
Proof.
  intros Hbatch Hph [Hord Hq Hb Hf Hfail Hlen].
  split; cbn [setPending setBatches log queue batches]; [done|done| | | |].
  - intros b' x j Hx Hj.
    apply list_lookup_insert_Some in Hx as [(<- & <- & _)|[_ Hx]]; by eapply Hb.
  - intros b' x k' j Hx Hk' Hj.
    apply list_lookup_insert_Some in Hx as [(<- & <- & _)|[_ Hx]]; by eapply Hf.
  - intros b' x err Hx Herr.
    apply list_lookup_insert_Some in Hx as [(<- & <- & _)|[_ Hx]]; [|by eapply Hfail].
    cbn [failure phase] in Herr. apply (Hfail b batch err Hbatch). left.
    destruct Herr as [?|?]; [done|by apply Hph].
  - intros b' x Hx.
    apply list_lookup_insert_Some in Hx as [(<- & <- & _)|[_ Hx]];
      [cbn [handlers jobs]|]; by eapply Hlen.
Qed.

Lemma continueBatch_log_inv b st st' :
  continueBatch b st = Some st' -> log_inv st -> log_inv st'.
Proof.
  unfold continueBatch. destruct (batches st !! b) as [batch|] eqn:Hbatch; [|done].
  destruct (phase batch) eqn:Hph; try done.
  destruct (failure batch) as [err|] eqn:Hfl.
  - intros [= <-] Hinv. rewrite <- Hfl. apply setPhase_log_inv; [done| |done].
    intros err' [= <-]. done.
  - destruct (forallb _ (handlers batch)) eqn:Hall; [|done]. intros [= <-] Hinv.
    rewrite <- Hfl.
    apply addLog_log_inv; [|by apply setPhase_log_inv].
    cbn [setPending setBatches log].
    apply Forall_forall. intros e (job & -> & Hjob)%list_elem_of_fmap. simpl.
    destruct Hinv as [Hord Hq Hb Hf Hfail Hlen].
    destruct (Hb b batch job Hbatch Hjob) as [Hcreated Hstarted].
    exists (file job). split; [done|]. split; [done|].
    apply list_elem_of_lookup in Hjob as [k Hk].
    destruct (handlers batch !! k) as [h|] eqn:Hh.
    + rewrite forallb_forall in Hall.
      assert (h = Fulfilled) as ->.
      { specialize (Hall h). destruct h; try done;
          (discriminate Hall; apply list_elem_of_In, list_elem_of_lookup; eauto). }
      by eapply Hf.
    + apply lookup_ge_None in Hh. apply lookup_lt_Some in Hk.
      rewrite (Hlen b batch Hbatch) in Hh. lia.
Qed.

Lemma continueWorker_log_inv w now st st' :
  continueWorker pick w now st = Some st' -> log_inv st -> log_inv st'.
Proof.
  unfold continueWorker. destruct (workers st !! w) as [[b|]|]; try done.
  destruct (batches st !! b) as [batch|] eqn:Hbatch; [|done].
  assert (Hfinish : forall st0, batches st0 !! b = Some batch -> log_inv st0 ->
    log_inv (let '(st2, next) :=
               workerSegment pick now
                 (setBatches (<[b := mkBatch (jobs batch) (handlers batch)
                                             (failure batch) Finished]> (batches st0))
                             st0) in
             setProcessing (isProcessing st2) (<[w := next]> (workers st2)) st2)).
  { intros st0 Hb0 Hinv0.
    pose proof (setPhase_log_inv b batch Finished (pendingPromises st0) st0 Hb0) as H1.
    assert (Hsame : setPending (pendingPromises st0)
              (setBatches (<[b := mkBatch (jobs batch) (handlers batch) (failure batch)
                                          Finished]> (batches st0)) st0) =
            setBatches (<[b := mkBatch (jobs batch) (handlers batch) (failure batch)
                                       Finished]> (batches st0)) st0) by done.
    rewrite Hsame in H1.
    pose proof (workerSegment_log_inv now _ (H1 ltac:(done) Hinv0)) as H2.
    destruct (workerSegment pick now _) as [st2 next].
    by apply setProcessing_log_inv. }
  destruct (phase batch) eqn:Hph; try done.
  - intros [= <-] Hinv. by apply (Hfinish st).
  - intros [= <-] Hinv.
    apply (Hfinish (addLog (map (fun job => LogReject (completion job) err)
                                (jobs batch)) st)); [done|].
    apply addLog_log_inv; [|done].
    apply Forall_forall. intros e (job & -> & Hjob)%list_elem_of_fmap. simpl.
    destruct Hinv as [Hord Hq Hb Hf Hfail Hlen].
    destruct (Hb b batch job Hbatch Hjob) as [Hcreated Hstarted].
    destruct (Hfail b batch err Hbatch (or_intror Hph)) as [f' Hin].
    by exists (file job), f'.
Qed.

Lemma step_log_inv st l st' :
  step pick st l = Some st' -> log_inv st -> log_inv st'.
Proof.
  destruct l as [f p now|b k error|b|w now|]; simpl.
  - intros [= <-]. apply enqueue_log_inv.
  - apply settleHandler_log_inv.
  - apply continueBatch_log_inv.
  - apply continueWorker_log_inv.
  - unfold continueProcessQueue. destruct (_ && _); [|done].
    intros [= <-]. apply setProcessing_log_inv.
Qed.

Lemma run_log_inv ls : forall st st',
  run pick st ls = Some st' -> log_inv st -> log_inv st'.
Proof.
  induction ls as [|l ls IH]; intros st st'; simpl.
  - by intros [= <-].
  - destruct (step pick st l) as [st1|] eqn:Hstep; [|done].
    intros Hrun Hinv. eapply IH; [exact Hrun|]. by eapply step_log_inv.
Qed.
End Settling.

Lemma newBatcher_log_inv c w : log_inv (newBatcher c w).
Proof.
  split; simpl.
  - intros l1 e l2 Heq. by destruct l1.
  - by intros job ?%elem_of_nil.
  - intros b batch job Hb. by rewrite lookup_nil in Hb.
  - intros b batch k job Hb. by rewrite lookup_nil in Hb.
  - intros b batch err Hb. by rewrite lookup_nil in Hb.
  - intros b batch Hb. by rewrite lookup_nil in Hb.
Qed.

(** X19. In every run, a completion is settled only for a job that was
    created with it and whose handler has been called; it is resolved only
    after a handler for the job's file has completed without error, and
    rejected only with the error of a handler that has failed before. *)
Theorem settling_follows_handlers
    (pick : list UpdateJob -> option (UpdateJob * list UpdateJob))
    (c w : option nat) (ls : list Label) (st : BatcherState)
    (l1 l2 : list LogEntry) (p : nat) :
  lawful pick ->
  run pick (newBatcher c w) ls = Some st ->
  (log st = l1 ++ LogResolve p :: l2 ->
     exists f, LogEnqueue f p true ∈ l1 /\ LogHandlerStart f ∈ l1 /\
               LogHandlerEnd f None ∈ l1) /\
  (forall err, log st = l1 ++ LogReject p err :: l2 ->
     exists f f', LogEnqueue f p true ∈ l1 /\ LogHandlerStart f ∈ l1 /\
                  LogHandlerEnd f' (Some err) ∈ l1).
Proof.
  intros Hlaw Hrun.
  destruct (run_log_inv pick Hlaw ls _ _ Hrun (newBatcher_log_inv c w))
    as [Hord _ _ _ _ _].
  split.
  - intros Heq. apply (Hord l1 (LogResolve p) l2 Heq).
  - intros err Heq. apply (Hord l1 (LogReject p err) l2 Heq).
Qed.

Lemma settling_follows_handlers_witness :
  exists st,
    run pickGreatest (newBatcher None None)
        [CallEnqueue "x" normal 0; HandlerSettles 0 0 None; BatchContinues 0]
      = Some st /\
    forall l1 l2,
      log st = l1 ++ LogResolve 0 :: l2 ->
      exists f, LogEnqueue f 0 true ∈ l1 /\ LogHandlerStart f ∈ l1 /\
                LogHandlerEnd f None ∈ l1.
Proof.
  eexists. split; [vm_compute; reflexivity|]. intros l1 l2.
  apply (settling_follows_handlers pickGreatest None None
           [CallEnqueue "x" normal 0; HandlerSettles 0 0 None; BatchContinues 0]).
  - exact pickGreatest_lawful.
  - vm_compute. reflexivity.
Defined.

End BatcherMoreFacts.

(** * The dependency proxy *)

Module DependencyProxyFacts.
Import DependencyProxy.

Section Facts.
Context {Heap Obj Value : Type}.
Variable reflectGet : Obj -> PropKey -> Heap -> Value.
Variable reflectSet : Obj -> PropKey -> Value -> Heap -> Heap * bool.
Variable asObject : Value -> option Obj.

Local Abbreviation runProg := (runProg reflectGet reflectSet asObject).
Local Abbreviation trackDependencies :=
  (trackDependencies reflectGet reflectSet asObject).

Lemma runProg_accessed {T} (p : Prog T) : forall st,
  accessedProperties (runProg p st).1.1 =
  foldl (fun s x => jset_add x s) (accessedProperties st)
        (omap stringKey (runProg p st).2).
Proof.
  induction p as [r|target prop k IH|target prop value k IH]; intros st; simpl.
  - done.
  - destruct prop as [s|n]; simpl.
    + destruct (asObject _) as [o|];
        match goal with |- context [DependencyProxy.runProg _ _ _ (k ?g) ?s1] =>
          specialize (IH g s1); destruct (runProg (k g) s1) as [[st2 r] keys]
        end; simpl in *; done.
    + match goal with |- context [DependencyProxy.runProg _ _ _ (k ?g) ?s1] =>
        specialize (IH g s1); destruct (runProg (k g) s1) as [[st2 r] keys]
      end; simpl in *; done.
  - destruct prop as [s|n]; simpl;
      destruct (reflectSet _ _ _ _) as [h ok];
      match goal with |- context [DependencyProxy.runProg _ _ _ (k ?g) ?s1] =>
        specialize (IH g s1); destruct (runProg (k g) s1) as [[st2 r] keys]
      end; simpl in *; done.
Qed.

(** X20. After [trackDependencies(fn, tracker)], the tracker holds exactly the
    string keys that [fn] read or wrote through the proxy and through the
    proxies it got from it, nested objects included, each once, in the
    order of first use; symbol keys are not recorded, and nothing recorded
    before the call is left. *)
Theorem tracked_names {T} (fn : Prog T) (st : Tracked) :
  getAccessedProperties (trackDependencies fn st).1.1 =
    jset_of_array (omap stringKey (trackDependencies fn st).2) /\
  forall s, s ∈ getAccessedProperties (trackDependencies fn st).1.1 <->
            KString s ∈ (trackDependencies fn st).2.
Proof.
  assert (Heq : getAccessedProperties (trackDependencies fn st).1.1 =
                jset_of_array (omap stringKey (trackDependencies fn st).2)).
  { unfold getAccessedProperties, DependencyProxy.trackDependencies.
    by rewrite runProg_accessed. }
  split; [done|]. intros s. rewrite Heq, jset_of_array_elem, list_elem_of_omap.
  split.
  - intros ([s'|n] & Hin & [= <-]). done.
  - intros Hin. by exists (KString s).
Qed.
End Facts.

Example tracked_names_sample :
  getAccessedProperties
    (trackDependencies sampleGet sampleSet (fun v => v) sampleProg
       (mkTracked tt ["stale"])).1.1 = ["user"; "name"].
Proof. reflexivity. Qed.
End DependencyProxyFacts.

(** * The message channel *)

Module ChannelFacts.
Import Channel.

Section Facts.
Context {World Value : Type}.
Variable behaviour : string -> HMRMessage -> World -> World * option Value.



End Facts.
End ChannelFacts.

(** * The transform pipeline *)

Module PipelineFacts.
Import Pipeline PipelineSpec.

Section Facts.
Context {Ast : Type}.
Variable parseToAST : string -> string -> Ast + string.
Variable analyzeModule : Ast -> string -> list string * list string.
Variable applyTransformations : string -> string -> Ast -> bool -> string + string.

Local Abbreviation transform :=
  (transform parseToAST analyzeModule applyTransformations).
Local Abbreviation runTransforms :=
  (runTransforms parseToAST analyzeModule applyTransformations).
Local Abbreviation results_from_trees := (results_from_trees analyzeModule).

(** A call of [transform] only adds to the two caches. *)
Lemma transform_grows file code hmr st :
  version (transform file code hmr st).1 = version st /\
  (forall k r, cache st !! k = Some r ->
               cache (transform file code hmr st).1 !! k = Some r) /\
  (forall f ast, astCache st !! f = Some ast ->
                 astCache (transform file code hmr st).1 !! f = Some ast) /\
  (forall r, (transform file code hmr st).2 = inl r ->
             cache (transform file code hmr st).1 !! (file, version st, hmr) = Some r) /\
  (results_from_trees st -> results_from_trees (transform file code hmr st).1).
Proof.
  unfold Pipeline.transform, PipelineSpec.results_from_trees.
  destruct (cache st !! (file, version st, hmr)) as [r0|] eqn:Hhit.
  { simpl. split; [done|]. split; [done|]. split; [done|]. split; [|done].
    by intros r [= <-]. }
  destruct (astCache st !! file) as [ast|] eqn:Hast.
  - destruct (analyzeModule ast file) as [exports deps] eqn:Han.
    destruct (applyTransformations file code ast hmr) as [transformed|e]; simpl.
    + split; [done|]. split.
      { intros k r Hk. rewrite lookup_insert_ne; [done|]. intros <-. congruence. }
      split; [done|]. split.
      { intros r [= <-]. by rewrite lookup_insert_eq. }
      intros Hinv f v h r.
      destruct (decide ((file, version st, hmr) = (f, v, h))) as [[= <- <- <-]|Hne].
      * rewrite lookup_insert_eq. intros [= <-]. exists ast. by rewrite Han.
      * rewrite lookup_insert_ne by done. apply Hinv.
    + split; [done|]. split; [done|]. split; [done|]. split; [|done]. done.
  - destruct (parseToAST file code) as [ast|e]; simpl.
    + assert (Htrees : forall f ast', astCache st !! f = Some ast' ->
                <[file := ast]> (astCache st) !! f = Some ast').
      { intros f ast' Hf. rewrite lookup_insert_ne; [done|]. intros <-. congruence. }
      destruct (analyzeModule ast file) as [exports deps] eqn:Han.
      destruct (applyTransformations file code ast hmr) as [transformed|e]; simpl.
      * split; [done|]. split.
        { intros k r Hk. rewrite lookup_insert_ne; [done|]. intros <-. congruence. }
        split; [done|]. split.
        { intros r [= <-]. by rewrite lookup_insert_eq. }
        intros Hinv f v h r.
        destruct (decide ((file, version st, hmr) = (f, v, h))) as [[= <- <- <-]|Hne].
        -- rewrite lookup_insert_eq. intros [= <-]. exists ast.
           rewrite lookup_insert_eq, Han. done.
        -- rewrite lookup_insert_ne by done. intros Hr.
           destruct (Hinv f v h r Hr) as (ast' & Hf & ?). exists ast'. auto.
      * split; [done|]. split; [done|]. split; [done|]. split; [done|].
        intros Hinv f v h r Hr.
        destruct (Hinv f v h r Hr) as (ast' & Hf & ?). exists ast'. auto.
    + split; [done|]. split; [done|]. split; [done|]. split; [|done]. done.
Qed.

Lemma runTransforms_grows calls : forall st,
  version (runTransforms st calls) = version st /\
  (forall k r, cache st !! k = Some r -> cache (runTransforms st calls) !! k = Some r) /\
  (forall f ast, astCache st !! f = Some ast ->
                 astCache (runTransforms st calls) !! f = Some ast) /\
  (results_from_trees st -> results_from_trees (runTransforms st calls)).
Proof.
  induction calls as [|c calls IH]; intros st; simpl; [done|].
  destruct (transform_grows (tc_file c) (tc_code c) (tc_hmr c) st)
    as (Hv & Hc & Ha & _ & Hinv).
  destruct (IH (transform (tc_file c) (tc_code c) (tc_hmr c) st).1)
    as (Hv' & Hc' & Ha' & Hinv').
  split; [congruence|]. split; [auto|]. split; [auto|]. auto.
Qed.

(** X22. The pipeline never drops or replaces what it has cached.  Once
    [transform] has returned a result for a file, every later call for that
    file with the same flag returns this very result, whatever code it is
    given; and with the other flag it still reports the same exports and
    dependencies, those of the tree parsed first, whatever code it is
    given. *)
Theorem transform_results_are_final (calls calls' : list TransformCall)
    (file code code' : string) (hmr hmr' : bool) (r r' : TransformResult) :
  (transform file code hmr (runTransforms newPipeline calls)).2 = inl r ->
  (transform file code' hmr'
     (runTransforms (transform file code hmr (runTransforms newPipeline calls)).1
                    calls')).2 = inl r' ->
  (hmr' = hmr -> r' = r) /\
  res_exports r' = res_exports r /\ res_deps r' = res_deps r.
Proof.
  intros Hr Hr'.
  set (st0 := runTransforms newPipeline calls) in *.
  assert (Hinv0 : results_from_trees st0).
  { apply runTransforms_grows. intros f v h x Hx. simpl in Hx.
    by rewrite lookup_empty in Hx. }
  destruct (transform_grows file code hmr st0) as (Hv1 & _ & _ & Hc1 & Hinv1).
  specialize (Hc1 r Hr). specialize (Hinv1 Hinv0).
  set (st1 := (transform file code hmr st0).1) in *.
  destruct (runTransforms_grows calls' st1) as (Hv2 & Hc2 & Ha2 & Hinv2).
  specialize (Hinv2 Hinv1).
  set (st2 := runTransforms st1 calls') in *.
  destruct (transform_grows file code' hmr' st2) as (Hv3 & Hc3 & Ha3 & Hc3' & Hinv3).
  specialize (Hc3' r' Hr'). specialize (Hinv3 Hinv2).
  set (st3 := (transform file code' hmr' st2).1) in *.
  assert (Hr3 : cache st3 !! (file, version st2, hmr) = Some r).
  { apply Hc3, Hc2. by rewrite Hv2, Hv1. }
  split.
  - intros ->. congruence.
  - destruct (Hinv3 _ _ _ _ Hr3) as (ast & Hast & He & Hd).
    destruct (Hinv3 _ _ _ _ Hc3') as (ast' & Hast' & He' & Hd').
    assert (ast' = ast) as -> by congruence. split; congruence.
Qed.
End Facts.

Lemma transform_results_are_final_witness :
  (false = true ->
   mkResult "import 'b'" ["import 'a'"] [] = mkResult "import 'a'" ["import 'a'"] []) /\
  res_exports (mkResult "import 'b'" ["import 'a'"] []) =
    res_exports (mkResult "import 'a'" ["import 'a'"] []) /\
  res_deps (mkResult "import 'b'" ["import 'a'"] []) =
    res_deps (mkResult "import 'a'" ["import 'a'"] []).
Proof.
  apply (transform_results_are_final sampleParse sampleAnalyze sampleApply [] []
           "m.ts" "import 'a'" "import 'b'" true false
           (mkResult "import 'a'" ["import 'a'"] [])
           (mkResult "import 'b'" ["import 'a'"] [])); reflexivity.
Defined.

End PipelineFacts.
